(** * kvstore: record codec, write-ahead log, snapshot codec and store

    A shallow embedding of the Go package [kvstore] (entry.go, wal.go,
    snapshot.go, store.go) and the properties of its durability and
    recovery protocol. *)

From Stdlib Require Import ZArith List Lia Bool.
From Stdlib Require Import Strings.String Strings.Ascii Strings.Byte DecimalString.
From stdpp Require Import gmap strings list fin_maps.

Local Open Scope Z_scope.

(** ** Bytes and fixed-width big-endian integers (encoding/binary) *)

Module Bin.

Definition Z_of_byte (b : byte) : Z := Z.of_N (Byte.to_N b).

Definition byte_of_Z (z : Z) : byte :=
  match Byte.of_N (Z.to_N (z mod 256)) with
  | Some b => b
  | None => x00
  end.

(** [binary.BigEndian.PutUintN]: the low [n] bytes of [z], most significant
    byte first. *)
Fixpoint be_put (n : nat) (z : Z) : list byte :=
  match n with
  | O => []
  | S k => be_put k (Z.shiftr z 8) ++ [byte_of_Z z]
  end.

(** [binary.BigEndian.UintN]. *)
Definition be_get (bs : list byte) : Z :=
  fold_left (fun acc b => acc * 256 + Z_of_byte b) bs 0.

(** Go's conversions [uint32(x)], [uint64(x)] and [int64(x)]. *)
Definition uint32 (z : Z) : Z := z mod 2 ^ 32.
Definition uint64 (z : Z) : Z := z mod 2 ^ 64.
Definition int64 (z : Z) : Z :=
  let u := z mod 2 ^ 64 in if u <? 2 ^ 63 then u else u - 2 ^ 64.

Definition put_uint32 (z : Z) : list byte := be_put 4 z.
Definition put_int64 (z : Z) : list byte := be_put 8 (uint64 z).
Definition get_uint32 (bs : list byte) : Z := be_get bs.
Definition get_int64 (bs : list byte) : Z := int64 (be_get bs).

End Bin.

(** ** hash/crc32: the IEEE polynomial, reflected, bit at a time *)

Module CRC32.

Definition IEEE : Z := 0xEDB88320.

Definition step (c : Z) : Z :=
  if Z.testbit c 0 then Z.lxor (Z.shiftr c 1) IEEE else Z.shiftr c 1.

Definition update_byte (c : Z) (b : byte) : Z :=
  Nat.iter 8 step (Z.lxor c (Bin.Z_of_byte b)).

Definition update (c : Z) (p : list byte) : Z := fold_left update_byte p c.

Definition ChecksumIEEE (p : list byte) : Z :=
  Z.lxor (update 0xFFFFFFFF p) 0xFFFFFFFF.

End CRC32.

(** ** Go errors, [fmt.Errorf] and [strings.Contains] *)

Module GoErr.

Inductive error : Type :=
  | io_EOF
  | io_ErrUnexpectedEOF
  | errorString (msg : string)
  | wrapError (msg : string) (err : error).

Definition Error (e : error) : string :=
  match e with
  | io_EOF => "EOF"
  | io_ErrUnexpectedEOF => "unexpected EOF"
  | errorString msg => msg
  | wrapError msg _ => msg
  end.

(** [fmt.Errorf(prefix + "%w", err)]. *)
Definition Errorf_w (prefix : string) (err : error) : error :=
  wrapError (prefix ++ Error err) err.

(** [err == io.EOF]: identity of the sentinel, not of a wrapper around it. *)
Definition is_io_EOF (e : error) : bool :=
  match e with io_EOF => true | _ => false end.

Fixpoint strings_Contains (s substr : string) : bool :=
  match s with
  | EmptyString => String.prefix substr s
  | String _ t => String.prefix substr s || strings_Contains t substr
  end.

Definition hex_digit (d : Z) : ascii :=
  match String.get (Z.to_nat d) "0123456789ABCDEF" with
  | Some c => c
  | None => "0"%char
  end.

Fixpoint fmt_X_aux (fuel : nat) (z : Z) (acc : string) : string :=
  match fuel with
  | O => acc
  | S f =>
      let acc' := String (hex_digit (z mod 16)) acc in
      if z / 16 =? 0 then acc' else fmt_X_aux f (z / 16) acc'
  end.

(** The verb [%X] at a [uint32]. *)
Definition fmt_X (z : Z) : string := fmt_X_aux 8 z EmptyString.

(** The verb [%d] at a [uint32]. *)
Definition fmt_d (z : Z) : string := NilZero.string_of_uint (N.to_uint (Z.to_N z)).

End GoErr.

Export GoErr.

(** ** io.Reader over a byte sequence *)

Abbreviation Reader := (list byte).

Abbreviation result A := (sum A error).

(** [io.ReadFull(r, buf)] with [len(buf) = n]. *)
Definition io_ReadFull (n : Z) (r : Reader) : result (list byte) * Reader :=
  if n <=? 0 then (inl [], r)
  else if n <=? Z.of_nat (length r) then
    (inl (take (Z.to_nat n) r), drop (Z.to_nat n) r)
  else match r with
       | [] => (inr io_EOF, [])
       | _ :: _ => (inr io_ErrUnexpectedEOF, [])
       end.

(** ** entry.go *)

Definition OpSet : byte := x01.
Definition OpDelete : byte := x02.

Definition EntryMagic : Z := 0x4B564C47.

#[global] Instance byte_eq_decision : EqDecision byte := Byte.byte_eq_dec.

(** A Go slice [[]byte]: [None] is the nil slice. *)
Definition slice : Type := option (list byte).

Definition bytes_of (v : slice) : list byte := default [] v.
Definition len (v : slice) : nat := length (bytes_of v).

Record Entry : Type := mkEntry {
  Operation : byte;
  Timestamp : Z;
  Key : string;
  Value : slice;
}.

Definition NewSetEntry (now : Z) (key : string) (value : slice) : Entry :=
  {| Operation := OpSet; Timestamp := now; Key := key; Value := value |}.

Definition NewDeleteEntry (now : Z) (key : string) : Entry :=
  {| Operation := OpDelete; Timestamp := now; Key := key; Value := None |}.

(** The bytes [Encode] collects in [dataBuffer] before the checksum. *)
Definition Encode_data (e : Entry) : list byte :=
  let keyBytes := list_byte_of_string (Key e) in
  let keyLen := Bin.uint32 (Z.of_nat (String.length (Key e))) in
  let valueLen := Bin.uint32 (Z.of_nat (len (Value e))) in
  Bin.put_uint32 EntryMagic
  ++ [Operation e]
  ++ Bin.put_int64 (Timestamp e)
  ++ Bin.put_uint32 keyLen
  ++ keyBytes
  ++ Bin.put_uint32 valueLen
  ++ (if 0 <? valueLen then bytes_of (Value e) else []).

(** The record layout: magic, op, timestamp, key length, key, value length,
    value. *)
Definition frame (op : byte) (ts : Z) (key value : list byte) : list byte :=
  Bin.put_uint32 EntryMagic ++ [op] ++ Bin.put_int64 ts
  ++ Bin.put_uint32 (Z.of_nat (length key)) ++ key
  ++ Bin.put_uint32 (Z.of_nat (length value)) ++ value.

(** The bytes of an encoded record that frame it: the 4 bytes of the magic
    and the two 4-byte length fields. [j] is an offset into the record. *)
Definition framing_byte (e : Entry) (j : nat) : bool :=
  let kl := String.length (Key e) in
  (j <? 4)%nat
  || ((13 <=? j)%nat && (j <? 17)%nat)
  || ((17 + kl <=? j)%nat && (j <? 21 + kl)%nat).

(** [Entry.Encode] into a [bytes.Buffer], whose writes cannot fail. *)
Definition Encode (e : Entry) : list byte :=
  let data := Encode_data e in
  let checksum := CRC32.ChecksumIEEE data in
  data ++ Bin.put_uint32 checksum.

(** The records of the data model: a 64-bit signed timestamp, and key and
    value lengths that fit the 32-bit length fields. *)
Definition wf_entry (e : Entry) : Prop :=
  - 2 ^ 63 <= Timestamp e < 2 ^ 63
  /\ Z.of_nat (String.length (Key e)) < 2 ^ 32
  /\ Z.of_nat (len (Value e)) < 2 ^ 32.

Definition with_value (e : Entry) (v : slice) : Entry :=
  {| Operation := Operation e; Timestamp := Timestamp e; Key := Key e;
     Value := v |}.

Definition DecodeEntry (r : Reader) : result Entry * Reader :=
  match io_ReadFull 4 r with
  | (inr err, r) => (inr (Errorf_w "failed to read magic: " err), r)
  | (inl magicB, r) =>
  let magic := Bin.get_uint32 magicB in
  let dataBuffer := Bin.put_uint32 magic in
  if negb (magic =? EntryMagic) then
    (inr (errorString ("invalid magic: expected 0x" ++ fmt_X EntryMagic
                       ++ ", got 0x" ++ fmt_X magic)), r)
  else
  match io_ReadFull 1 r with
  | (inr err, r) => (inr (Errorf_w "failed to read operation: " err), r)
  | (inl opB, r) =>
  let operation := hd x00 opB in
  let dataBuffer := dataBuffer ++ [operation] in
  match io_ReadFull 8 r with
  | (inr err, r) => (inr (Errorf_w "failed to read timestamp: " err), r)
  | (inl tsB, r) =>
  let timestamp := Bin.get_int64 tsB in
  let dataBuffer := dataBuffer ++ Bin.put_int64 timestamp in
  match io_ReadFull 4 r with
  | (inr err, r) => (inr (Errorf_w "failed to read key length: " err), r)
  | (inl klB, r) =>
  let keyLen := Bin.get_uint32 klB in
  let dataBuffer := dataBuffer ++ Bin.put_uint32 keyLen in
  match io_ReadFull keyLen r with
  | (inr err, r) => (inr (Errorf_w "failed to read key: " err), r)
  | (inl key, r) =>
  let dataBuffer := dataBuffer ++ key in
  match io_ReadFull 4 r with
  | (inr err, r) => (inr (Errorf_w "failed to read value length: " err), r)
  | (inl vlB, r) =>
  let valueLen := Bin.get_uint32 vlB in
  let dataBuffer := dataBuffer ++ Bin.put_uint32 valueLen in
  match (if 0 <? valueLen then io_ReadFull valueLen r
         else (inl [], r)) with
  | (inr err, r) => (inr (Errorf_w "failed to read value: " err), r)
  | (inl value, r) =>
  let dataBuffer := dataBuffer ++ value in
  match io_ReadFull 4 r with
  | (inr err, r) => (inr (Errorf_w "failed to read checksum: " err), r)
  | (inl ckB, r) =>
  let storedChecksum := Bin.get_uint32 ckB in
  let computedChecksum := CRC32.ChecksumIEEE dataBuffer in
  if negb (computedChecksum =? storedChecksum) then
    (inr (errorString ("checksum mismatch: expected 0x" ++ fmt_X storedChecksum
                       ++ ", got 0x" ++ fmt_X computedChecksum
                       ++ " (data corrupted)")), r)
  else
    (inl {| Operation := operation; Timestamp := timestamp;
            Key := string_of_list_byte key; Value := Some value |}, r)
  end end end end end end end end.

(** ** The data directory and the failures the host can inject

    The three files the package keeps under its data directory; [None] is a
    file that does not exist. *)

Record Dir : Type := mkDir {
  wal_log : option (list byte);
  snapshot_dat : option (list byte);
  snapshot_dat_tmp : option (list byte);
}.

Definition empty_dir : Dir :=
  {| wal_log := None; snapshot_dat := None; snapshot_dat_tmp := None |}.

Definition set_wal_log (d : Dir) (c : option (list byte)) : Dir :=
  {| wal_log := c; snapshot_dat := snapshot_dat d;
     snapshot_dat_tmp := snapshot_dat_tmp d |}.

Definition set_snapshot_dat_tmp (d : Dir) (c : option (list byte)) : Dir :=
  {| wal_log := wal_log d; snapshot_dat := snapshot_dat d;
     snapshot_dat_tmp := c |}.

(** [os.Rename(tempPath, snapshotPath)]. *)
Definition rename_tmp (d : Dir) : Dir :=
  {| wal_log := wal_log d; snapshot_dat := snapshot_dat_tmp d;
     snapshot_dat_tmp := None |}.

(** The system call that fails during one operation of the package, if any.
    [FailWrite n] is a write to the log that stops with an error after [n]
    bytes; [FailWriteAt i] is the failure of the [i]-th write to the snapshot
    temp file. *)
Inductive Fault : Type :=
  | NoFault
  | FailMkdir
  | FailOpen
  | FailWrite (n : nat)
  | FailWriteAt (i : nat)
  | FailSync
  | FailSeek
  | FailTruncate
  | FailClose
  | FailRename.

Definition os_ErrClosed : error := errorString "file already closed".
Definition os_EIO : error := errorString "input/output error".

(** ** wal.go *)

(** [*os.File]: all the package observes of a handle is whether it was closed. *)
Record File : Type := mkFile { closed : bool }.

Record WAL : Type := mkWAL {
  file : File;
  dataDir : string;
  syncMode : bool;
}.

Definition NewWAL (d : Dir) (flt : Fault) (dir : string) (sync : bool)
  : result WAL * Dir :=
  match flt with
  | FailMkdir => (inr (Errorf_w "failed to create data directory: " os_EIO), d)
  | FailOpen => (inr (Errorf_w "failed to open WAL file: " os_EIO), d)
  | _ =>
      (inl {| file := {| closed := false |}; dataDir := dir; syncMode := sync |},
       set_wal_log d (Some (default [] (wal_log d))))
  end.

(** [w.file.Write(p)] on a handle opened with [O_APPEND]. *)
Definition file_Write (f : File) (d : Dir) (flt : Fault) (p : list byte)
  : option error * Dir :=
  if closed f then (Some os_ErrClosed, d)
  else match flt with
       | FailWrite n =>
           (Some os_EIO, set_wal_log d (Some (default [] (wal_log d) ++ take n p)))
       | _ => (None, set_wal_log d (Some (default [] (wal_log d) ++ p)))
       end.

Definition file_Sync (f : File) (flt : Fault) : option error :=
  if closed f then Some os_ErrClosed
  else match flt with FailSync => Some os_EIO | _ => None end.

Definition file_Seek (f : File) (flt : Fault) : option error :=
  if closed f then Some os_ErrClosed
  else match flt with FailSeek => Some os_EIO | _ => None end.

Definition Append (w : WAL) (d : Dir) (flt : Fault) (entry : Entry)
  : option error * Dir :=
  let buf := Encode entry in
  match file_Write (file w) d flt buf with
  | (Some err, d) => (Some (Errorf_w "failed to write to WAL: " err), d)
  | (None, d) =>
      if syncMode w then
        match file_Sync (file w) flt with
        | Some err => (Some (Errorf_w "failed to sync WAL: " err), d)
        | None => (None, d)
        end
      else (None, d)
  end.

(** The [for] loop of [Replay] over the bytes from the read offset on;
    [callback] threads the state its closure mutates. [None]: out of fuel. *)
Fixpoint Replay_loop {A : Type} (fuel : nat)
    (callback : Entry -> A -> option error * A) (r : Reader) (a : A)
  : option (option error * A) :=
  match fuel with
  | O => None
  | S fuel =>
      match DecodeEntry r with
      | (inr err, _) =>
          if is_io_EOF err then Some (None, a)
          else if strings_Contains (Error err) "checksum mismatch" then Some (None, a)
          else if strings_Contains (Error err) "failed to read" then Some (None, a)
          else Some (Some (Errorf_w "failed to decode WAL entry: " err), a)
      | (inl entry, r) =>
          if negb (Byte.eqb (Operation entry) OpSet)
             && negb (Byte.eqb (Operation entry) OpDelete)
          then Replay_loop fuel callback r a
          else match callback entry a with
               | (Some err, a) =>
                   Some (Some (Errorf_w "callback failed during replay: " err), a)
               | (None, a) => Replay_loop fuel callback r a
               end
      end
  end.

(** What the loop makes of a decoding error: [None] is a clean stop. *)
Definition replay_verdict (err : error) : option error :=
  if is_io_EOF err then None
  else if strings_Contains (Error err) "checksum mismatch" then None
  else if strings_Contains (Error err) "failed to read" then None
  else Some (Errorf_w "failed to decode WAL entry: " err).

(** [Replay]: seek to the start, run the loop, seek to the end. The loop gets
    more fuel than there are bytes to read, which it cannot use up
    ([Replay_fuel_enough]). *)
Definition Replay {A : Type} (w : WAL) (d : Dir) (flt : Fault)
    (callback : Entry -> A -> option error * A) (a : A) : option error * A :=
  match file_Seek (file w) flt with
  | Some err => (Some (Errorf_w "failed to seek to start of WAL: " err), a)
  | None =>
      let r := default [] (wal_log d) in
      match Replay_loop (S (length r)) callback r a with
      | Some (Some err, a) => (Some err, a)
      | Some (None, a) =>
          match file_Seek (file w) flt with
          | Some err => (Some (Errorf_w "failed to seek to end of WAL: " err), a)
          | None => (None, a)
          end
      | None => (Some (errorString "replay did not terminate"), a)
      end
  end.

Definition WAL_Close (w : WAL) (flt : Fault) : option error * WAL :=
  match file_Sync (file w) flt with
  | Some err => (Some (Errorf_w "failed to sync WAL on close: " err), w)
  | None =>
      let w' := {| file := {| closed := true |}; dataDir := dataDir w;
                   syncMode := syncMode w |} in
      match flt with
      | FailClose => (Some (Errorf_w "failed to close WAL file: " os_EIO), w')
      | _ => (None, w')
      end
  end.

Definition Truncate (w : WAL) (d : Dir) (flt : Fault) : option error * Dir :=
  if closed (file w) then (Some (Errorf_w "failed to truncate WAL: " os_ErrClosed), d)
  else match flt with
       | FailTruncate => (Some (Errorf_w "failed to truncate WAL: " os_EIO), d)
       | FailSeek =>
           (Some (Errorf_w "failed to seek after truncate: " os_EIO),
            set_wal_log d (Some []))
       | _ => (None, set_wal_log d (Some []))
       end.

(** ** snapshot.go *)

Definition SnapshotMagic : Z := 0x4B565350.

(** The order in which one [for key, value := range data] visits a map. Go
    leaves it unspecified: it is some enumeration of the entries. *)
Definition MapRange : Type := gmap string slice -> list (string * slice).

Definition range_ok (range : MapRange) : Prop :=
  forall m, range m ≡ₚ map_to_list m.

(** [headerBuf] of [writeSnapshot]. *)
Definition snapshot_header (timestamp count : Z) : list byte :=
  Bin.put_uint32 SnapshotMagic ++ Bin.put_int64 timestamp ++ Bin.put_uint32 count.

(** [entryBuf] of one iteration, followed by its checksum. *)
Definition snapshot_entryBuf (kv : string * slice) : list byte :=
  let keyBytes := list_byte_of_string kv.1 in
  let keyLen := Bin.uint32 (Z.of_nat (length keyBytes)) in
  let valueLen := Bin.uint32 (Z.of_nat (len kv.2)) in
  Bin.put_uint32 keyLen ++ keyBytes ++ Bin.put_uint32 valueLen
  ++ (if 0 <? valueLen then bytes_of kv.2 else []).

Definition snapshot_entry (kv : string * slice) : list byte :=
  let entryBuf := snapshot_entryBuf kv in
  entryBuf ++ Bin.put_uint32 (CRC32.ChecksumIEEE entryBuf).

(** Everything a successful [writeSnapshot] writes to the temp file. *)
Definition snapshot_bytes (range : MapRange) (now : Z) (data : gmap string slice)
  : list byte :=
  let count := Bin.uint32 (Z.of_nat (size data)) in
  let headerBuf := snapshot_header now count in
  headerBuf ++ Bin.put_uint32 (CRC32.ChecksumIEEE headerBuf)
  ++ concat (map snapshot_entry (range data)).

Definition writeSnapshot (range : MapRange) (d : Dir) (flt : Fault) (now : Z)
    (data : gmap string slice) : option error * Dir :=
  let cleanup := set_snapshot_dat_tmp d None in
  let nwrites := (2 + 2 * length (range data))%nat in
  match flt with
  | FailOpen =>
      (Some (Errorf_w "failed to create snapshot temp file: " os_EIO), d)
  | FailWriteAt 0 => (Some (Errorf_w "failed to write header: " os_EIO), cleanup)
  | FailWriteAt 1 =>
      (Some (Errorf_w "failed to write header checksum: " os_EIO), cleanup)
  | FailWriteAt i =>
      if (i <? nwrites)%nat then
        if Nat.even i
        then (Some (Errorf_w "failed to write entry: " os_EIO), cleanup)
        else (Some (Errorf_w "failed to write entry checksum: " os_EIO), cleanup)
      else (None, rename_tmp (set_snapshot_dat_tmp d (Some (snapshot_bytes range now data))))
  | FailSync => (Some (Errorf_w "failed to sync snapshot: " os_EIO), cleanup)
  | FailClose =>
      (Some (Errorf_w "failed to close snapshot temp file: " os_EIO), cleanup)
  | FailRename =>
      (Some (Errorf_w "failed to rename snapshot file: " os_EIO),
       set_snapshot_dat_tmp d (Some (snapshot_bytes range now data)))
  | _ => (None, rename_tmp (set_snapshot_dat_tmp d (Some (snapshot_bytes range now data))))
  end.

(** The entry loop of [loadSnapshot]: [n] entries remain, the next has index [i]. *)
Fixpoint loadSnapshot_entries (n : nat) (i : Z) (r : Reader)
    (data : gmap string slice) : result (gmap string slice) :=
  match n with
  | O => inl data
  | S n =>
  let at_i := (" for entry " ++ fmt_d i ++ ": ")%string in
  match io_ReadFull 4 r with
  | (inr err, _) => inr (Errorf_w ("failed to read key length" ++ at_i) err)
  | (inl klB, r) =>
  let keyLen := Bin.get_uint32 klB in
  let entryBuf := Bin.put_uint32 keyLen in
  match io_ReadFull keyLen r with
  | (inr err, _) => inr (Errorf_w ("failed to read key" ++ at_i) err)
  | (inl keyBytes, r) =>
  let entryBuf := entryBuf ++ keyBytes in
  match io_ReadFull 4 r with
  | (inr err, _) => inr (Errorf_w ("failed to read value length" ++ at_i) err)
  | (inl vlB, r) =>
  let valueLen := Bin.get_uint32 vlB in
  let entryBuf := entryBuf ++ Bin.put_uint32 valueLen in
  match (if 0 <? valueLen then io_ReadFull valueLen r
         else (inl [], r)) with
  | (inr err, _) => inr (Errorf_w ("failed to read value" ++ at_i) err)
  | (inl value, r) =>
  let entryBuf := entryBuf ++ value in
  match io_ReadFull 4 r with
  | (inr err, _) => inr (Errorf_w ("failed to read entry checksum" ++ at_i) err)
  | (inl ckB, r) =>
  let storedEntryChecksum := Bin.get_uint32 ckB in
  let computedEntryChecksum := CRC32.ChecksumIEEE entryBuf in
  if negb (computedEntryChecksum =? storedEntryChecksum) then
    inr (errorString ("entry " ++ fmt_d i ++ " checksum mismatch: expected 0x"
                      ++ fmt_X storedEntryChecksum ++ ", got 0x"
                      ++ fmt_X computedEntryChecksum ++ " (snapshot corrupted)"))
  else
    let key := string_of_list_byte keyBytes in
    loadSnapshot_entries n (i + 1) r (<[key := Some value]> data)
  end end end end end
  end.

Definition loadSnapshot (d : Dir) (flt : Fault) : result (gmap string slice) :=
  match snapshot_dat d with
  | None => inl ∅
  | Some content =>
  match flt with
  | FailOpen => inr (Errorf_w "failed to open snapshot file: " os_EIO)
  | _ =>
  match io_ReadFull 4 content with
  | (inr err, _) => inr (Errorf_w "failed to read magic: " err)
  | (inl magicB, r) =>
  let magic := Bin.get_uint32 magicB in
  let headerBuf := Bin.put_uint32 magic in
  if negb (magic =? SnapshotMagic) then
    inr (errorString ("invalid magic: expected 0x" ++ fmt_X SnapshotMagic
                      ++ ", got 0x" ++ fmt_X magic))
  else
  match io_ReadFull 8 r with
  | (inr err, _) => inr (Errorf_w "failed to read timestamp: " err)
  | (inl tsB, r) =>
  let timestamp := Bin.get_int64 tsB in
  let headerBuf := headerBuf ++ Bin.put_int64 timestamp in
  match io_ReadFull 4 r with
  | (inr err, _) => inr (Errorf_w "failed to read count: " err)
  | (inl cntB, r) =>
  let count := Bin.get_uint32 cntB in
  let headerBuf := headerBuf ++ Bin.put_uint32 count in
  match io_ReadFull 4 r with
  | (inr err, _) => inr (Errorf_w "failed to read header checksum: " err)
  | (inl ckB, r) =>
  let storedHeaderChecksum := Bin.get_uint32 ckB in
  let computedHeaderChecksum := CRC32.ChecksumIEEE headerBuf in
  if negb (computedHeaderChecksum =? storedHeaderChecksum) then
    inr (errorString ("header checksum mismatch: expected 0x"
                      ++ fmt_X storedHeaderChecksum ++ ", got 0x"
                      ++ fmt_X computedHeaderChecksum ++ " (snapshot corrupted)"))
  else loadSnapshot_entries (Z.to_nat count) 0 r ∅
  end end end end
  end
  end.

(** The maps of the data model: fewer than 2^32 entries, key and value
    lengths that fit the 32-bit length fields. *)
Definition wf_map (m : gmap string slice) : Prop :=
  Z.of_nat (size m) < 2 ^ 32
  /\ map_Forall (fun k v => Z.of_nat (String.length k) < 2 ^ 32
                            /\ Z.of_nat (len v) < 2 ^ 32) m.

(** What [loadSnapshot] makes of a value: [make([]byte, valueLen)] filled
    with its bytes, never nil. *)
Definition loaded (v : slice) : slice := Some (bytes_of v).

Definition snapshotExists (d : Dir) : bool := bool_decide (is_Some (snapshot_dat d)).

(** ** store.go *)

Record Config : Type := mkConfig {
  DataDir : string;
  SyncWrites : bool;
}.

Record Store : Type := mkStore {
  data : gmap string slice;
  wal : WAL;
  config : Config;
}.

(** The closure [OpenWithConfig] hands to [Replay]; it mutates [store.data]. *)
Definition replay_callback (entry : Entry) (data : gmap string slice)
  : option error * gmap string slice :=
  if Byte.eqb (Operation entry) OpSet then (None, <[Key entry := Value entry]> data)
  else if Byte.eqb (Operation entry) OpDelete then (None, delete (Key entry) data)
  else (None, data).

Definition OpenWithConfig (d : Dir) (flt : Fault) (cfg : Config)
  : result Store * Dir :=
  match NewWAL d flt (DataDir cfg) (SyncWrites cfg) with
  | (inr err, d) => (inr (Errorf_w "failed to open WAL: " err), d)
  | (inl w, d) =>
      match Replay w d flt replay_callback ∅ with
      | (Some err, _) =>
          let '(_, _) := WAL_Close w flt in
          (inr (Errorf_w "failed to replay WAL: " err), d)
      | (None, m) => (inl {| data := m; wal := w; config := cfg |}, d)
      end
  end.

Definition Open (d : Dir) (flt : Fault) (dir : string) : result Store * Dir :=
  OpenWithConfig d flt {| DataDir := dir; SyncWrites := true |}.

Definition with_data (s : Store) (m : gmap string slice) : Store :=
  {| data := m; wal := wal s; config := config s |}.

Definition with_wal (s : Store) (w : WAL) : Store :=
  {| data := data s; wal := w; config := config s |}.

Definition Set_ (s : Store) (d : Dir) (flt : Fault) (now : Z)
    (key : string) (value : slice) : option error * Store * Dir :=
  let entry := NewSetEntry now key value in
  match Append (wal s) d flt entry with
  | (Some err, d) => (Some (Errorf_w "WAL append failed: " err), s, d)
  | (None, d) => (None, with_data s (<[key := value]> (data s)), d)
  end.

Definition Get (s : Store) (key : string) : slice * bool :=
  match data s !! key with
  | None => (None, false)
  | Some value => (value, true)
  end.

Definition Delete (s : Store) (d : Dir) (flt : Fault) (now : Z) (key : string)
  : option error * Store * Dir :=
  let entry := NewDeleteEntry now key in
  match Append (wal s) d flt entry with
  | (Some err, d) => (Some (Errorf_w "WAL append failed: " err), s, d)
  | (None, d) => (None, with_data s (delete key (data s)), d)
  end.

Definition Close (s : Store) (d : Dir) (flt : Fault) : option error * Store * Dir :=
  match Truncate (wal s) d flt with
  | (Some err, d) =>
      let '(_, w) := WAL_Close (wal s) flt in
      (Some (Errorf_w "WAL truncate failed: " err), with_wal s w, d)
  | (None, d) =>
      match WAL_Close (wal s) flt with
      | (Some err, w) => (Some (Errorf_w "WAL close failed: " err), with_wal s w, d)
      | (None, w) => (None, with_wal s w, d)
      end
  end.

Definition Len (s : Store) : nat := size (data s).

Definition Keys (range : MapRange) (s : Store) : list string :=
  (range (data s)).*1.

(** ** Sessions: a run of [Set] and [Delete] calls on an open store *)

Inductive Op : Type :=
  | DoSet (key : string) (value : slice)
  | DoDelete (key : string).

Definition run_op (s : Store) (d : Dir) (flt : Fault) (now : Z) (o : Op)
  : option error * Store * Dir :=
  match o with
  | DoSet key value => Set_ s d flt now key value
  | DoDelete key => Delete s d flt now key
  end.

Definition op_entry (now : Z) (o : Op) : Entry :=
  match o with
  | DoSet key value => NewSetEntry now key value
  | DoDelete key => NewDeleteEntry now key
  end.

(** The bytes a session's successful calls append to the log. *)
Definition log_of (ops : list (Z * Op)) : list byte :=
  concat (map (fun o => Encode (op_entry o.1 o.2)) ops).

(** A call as it reads back from the log: its value is never nil. *)
Definition loaded_op (o : Z * Op) : Z * Op :=
  match o.2 with
  | DoSet key value => (o.1, DoSet key (Some (bytes_of value)))
  | DoDelete key => (o.1, DoDelete key)
  end.

(** Runs the calls in order, each at its own clock reading, with no failure
    injected; stops at the first call that returns an error. *)
Fixpoint run_ops (s : Store) (d : Dir) (ops : list (Z * Op))
  : option error * Store * Dir :=
  match ops with
  | [] => (None, s, d)
  | (now, o) :: ops =>
      match run_op s d NoFault now o with
      | (Some err, s, d) => (Some err, s, d)
      | (None, s, d) => run_ops s d ops
      end
  end.

(** What the calls of a session leave in a map, the last call on a key
    deciding. *)
Definition apply_op (m : gmap string slice) (o : Op) : gmap string slice :=
  match o with
  | DoSet key value => <[key := value]> m
  | DoDelete key => delete key m
  end.

Definition apply_ops (m : gmap string slice) (ops : list (Z * Op))
  : gmap string slice :=
  fold_left (fun m o => apply_op m o.2) ops m.

(** The states a caller can hold: an opened store, then successful writes. *)
Inductive reachable : Store -> Dir -> Prop :=
  | reach_open d flt cfg s d' :
      OpenWithConfig d flt cfg = (inl s, d') -> reachable s d'
  | reach_op s d flt now o s' d' :
      reachable s d -> run_op s d flt now o = (None, s', d') -> reachable s' d'.

(** Flipping bit [i] (0 is the most significant bit of the first byte) of a
    byte sequence. *)
Definition flip_bit (i : nat) (bs : list byte) : list byte :=
  match bs !! (i / 8)%nat with
  | None => bs
  | Some b =>
      <[(i / 8)%nat := Bin.byte_of_Z (Z.lxor (Bin.Z_of_byte b)
                                        (Z.shiftl 1 (7 - Z.of_nat (i mod 8))))]> bs
  end.

(** A clean shutdown and restart: open, run the calls, [Close], open again.
    [None] when a step returns an error. *)
Definition reopen_after_close (d : Dir) (cfg : Config) (ops : list (Z * Op))
  : option Store :=
  match OpenWithConfig d NoFault cfg with
  | (inr _, _) => None
  | (inl s, d) =>
      match run_ops s d ops with
      | (Some _, _, _) => None
      | (None, s, d) =>
          match Close s d NoFault with
          | (Some _, _, _) => None
          | (None, _, d) =>
              match OpenWithConfig d NoFault cfg with
              | (inr _, _) => None
              | (inl s2, _) => Some s2
              end
          end
      end
  end.

Definition cfg0 : Config := {| DataDir := "testing-data"; SyncWrites := true |}.

Definition value1 : slice := Some (list_byte_of_string "value1").
Definition value2 : slice := Some (list_byte_of_string "value2").

(** The store of [TestStoreWALFailure]: one key written, then the log's file
    handle closed behind the store's back. *)
Definition store_wal_closed : Store :=
  {| data := {[ "key1"%string := value1 ]};
     wal := {| file := {| closed := true |}; dataDir := "testing-data";
               syncMode := true |};
     config := cfg0 |}.

(** A store that was opened on an empty directory and took one [Set]. *)
Definition store_one_key : Store :=
  {| data := {[ "key1"%string := value1 ]};
     wal := {| file := {| closed := false |}; dataDir := "testing-data";
               syncMode := true |};
     config := cfg0 |}.

(** The session of [TestStoreRecoveryAfterCleanShutdown]. *)
Definition two_sets : list (Z * Op) :=
  [(1, DoSet "key1" value1); (2, DoSet "key2" value2)].

(** A directory left by a run that wrote two records, and the same with
    one bit of the final record's magic flipped. *)
Definition wal_two_records : list byte :=
  Encode (NewSetEntry 1 "key1" value1) ++ Encode (NewSetEntry 2 "key2" value2).

Definition wal_tail_flipped (i : nat) : list byte :=
  Encode (NewSetEntry 1 "key1" value1)
  ++ flip_bit i (Encode (NewSetEntry 2 "key2" value2)).

Definition dir_with_wal (w : list byte) : Dir :=
  {| wal_log := Some w; snapshot_dat := None; snapshot_dat_tmp := None |}.

Definition open_fails (d : Dir) : bool :=
  match OpenWithConfig d NoFault cfg0 with
  | (inr _, _) => true
  | (inl _, _) => false
  end.

(** A directory holding a valid snapshot of one key and an empty log, and
    one whose snapshot file is a single stray byte. *)
Definition dir_with_snapshot : Dir :=
  {| wal_log := Some [];
     snapshot_dat := Some (snapshot_bytes map_to_list 1 {[ "key1"%string := value1 ]});
     snapshot_dat_tmp := None |}.

Definition dir_corrupt_snapshot : Dir :=
  {| wal_log := Some []; snapshot_dat := Some [x00]; snapshot_dat_tmp := None |}.

(** ** Logs of arbitrary records *)

(** A record as [DecodeEntry] returns it from its encoding. *)
Definition decoded (e : Entry) : Entry := with_value e (loaded (Value e)).

Definition encode_all (es : list Entry) : list byte := concat (map Encode es).

(** What the loop of [Replay] does with the records of a log: other
    operation codes are skipped, the first callback error ends it. *)
Fixpoint replay_entries {A : Type} (callback : Entry -> A -> option error * A)
    (es : list Entry) (a : A) : option error * A :=
  match es with
  | [] => (None, a)
  | e :: es =>
      if negb (Byte.eqb (Operation e) OpSet) && negb (Byte.eqb (Operation e) OpDelete)
      then replay_entries callback es a
      else match callback (decoded e) a with
           | (Some err, a) =>
               (Some (Errorf_w "callback failed during replay: " err), a)
           | (None, a) => replay_entries callback es a
           end
  end.

(** What one record of the log does to the recovered map. *)
Definition apply_entry (m : gmap string slice) (e : Entry) : gmap string slice :=
  if Byte.eqb (Operation e) OpSet then <[Key e := loaded (Value e)]> m
  else if Byte.eqb (Operation e) OpDelete then delete (Key e) m
  else m.

(** The callback of the WAL tests: it records what it is handed. *)
Definition collect (e : Entry) (seen : list Entry) : option error * list Entry :=
  (None, seen ++ [e]).

(** [Append] of each record in turn, with no failure injected; stops at the
    first error. *)
Fixpoint append_all (w : WAL) (d : Dir) (es : list Entry) : option error * Dir :=
  match es with
  | [] => (None, d)
  | e :: es =>
      match Append w d NoFault e with
      | (Some err, d) => (Some err, d)
      | (None, d) => append_all w d es
      end
  end.

Definition wal_open (dir : string) (sync : bool) : WAL :=
  {| file := {| closed := false |}; dataDir := dir; syncMode := sync |}.

Definition opened (m : gmap string slice) (cfg : Config) : Store :=
  {| data := m; wal := wal_open (DataDir cfg) (SyncWrites cfg); config := cfg |}.

(** ** The map and the log *)

(** Two maps with the same keys and, at each key, the same value bytes. *)
Definition same_bytes (m1 m2 : gmap string slice) : Prop :=
  forall k, bytes_of <$> (m1 !! k) = bytes_of <$> (m2 !! k).

(** The log holds whole records and the map is what they replay to. *)
Definition in_sync (s : Store) (d : Dir) : Prop :=
  exists es,
    Forall wf_entry es
    /\ wal_log d = Some (encode_all es)
    /\ same_bytes (data s) (fold_left apply_entry es ∅).

(** ** Snapshot files given entry by entry *)

(** A snapshot file with the given entries in the given order: the header
    with their number, then each entry with its checksum. *)
Definition snapshot_file (now : Z) (l : list (string * slice)) : list byte :=
  let headerBuf := snapshot_header now (Bin.uint32 (Z.of_nat (length l))) in
  headerBuf ++ Bin.put_uint32 (CRC32.ChecksumIEEE headerBuf)
  ++ concat (map snapshot_entry l).

Definition wf_pair (kv : string * slice) : Prop :=
  Z.of_nat (String.length kv.1) < 2 ^ 32 /\ Z.of_nat (len kv.2) < 2 ^ 32.

Definition dir_with_snapshot_file (f : list byte) : Dir :=
  {| wal_log := None; snapshot_dat := Some f; snapshot_dat_tmp := None |}.

(** ** entry.go, the revision before the checksum *)

Module EntryV0.

Section Writer.

(** An [io.Writer] and its [Write], which may fail. *)
Context {W : Type} (Write : list byte -> W -> option error * W).

Definition Encode (e : Entry) (w : W) : option error * W :=
  match Write (Bin.put_uint32 EntryMagic) w with
  | (Some err, w) => (Some (Errorf_w "failed to write magic: " err), w)
  | (None, w) =>
  match Write [Operation e] w with
  | (Some err, w) => (Some (Errorf_w "failed to write operation: " err), w)
  | (None, w) =>
  match Write (Bin.put_int64 (Timestamp e)) w with
  | (Some err, w) => (Some (Errorf_w "failed to write timestamp: " err), w)
  | (None, w) =>
  let keyBytes := list_byte_of_string (Key e) in
  let keyLen := Bin.uint32 (Z.of_nat (String.length (Key e))) in
  match Write (Bin.put_uint32 keyLen) w with
  | (Some err, w) => (Some (Errorf_w "failed to write key length: " err), w)
  | (None, w) =>
  match Write keyBytes w with
  | (Some err, w) => (Some (Errorf_w "failed to write key: " err), w)
  | (None, w) =>
  let valueLen := Bin.uint32 (Z.of_nat (len (Value e))) in
  match Write (Bin.put_uint32 valueLen) w with
  | (Some err, w) => (Some (Errorf_w "failed to write value length: " err), w)
  | (None, w) =>
  if 0 <? valueLen then
    match Write (bytes_of (Value e)) w with
    | (Some err, w) => (Some (Errorf_w "failed to write value: " err), w)
    | (None, w) => (None, w)
    end
  else (None, w)
  end end end end end end.

End Writer.

(** [Write] of a [bytes.Buffer]: appends, and returns a nil error. *)
Definition buffer_Write (p : list byte) (buf : list byte)
  : option error * list byte :=
  (None, buf ++ p).

(** A writer that takes [n] more bytes and then fails with [err]: a failing
    [Write] keeps the bytes that still fit. *)
Definition limited_Write (err : error) (p : list byte) (w : nat * list byte)
  : option error * (nat * list byte) :=
  if (length p <=? w.1)%nat then (None, ((w.1 - length p)%nat, w.2 ++ p))
  else (Some err, (0%nat, w.2 ++ take w.1 p)).

Definition DecodeEntry (r : Reader) : result Entry * Reader :=
  match io_ReadFull 4 r with
  | (inr err, r) => (inr (Errorf_w "failed to read magic: " err), r)
  | (inl magicB, r) =>
  let magic := Bin.get_uint32 magicB in
  if negb (magic =? EntryMagic) then (inr (errorString "invalid magic"), r)
  else
  match io_ReadFull 1 r with
  | (inr err, r) => (inr (Errorf_w "failed to read operation: " err), r)
  | (inl opB, r) =>
  let operation := hd x00 opB in
  match io_ReadFull 8 r with
  | (inr err, r) => (inr (Errorf_w "failed to read timestamp: " err), r)
  | (inl tsB, r) =>
  let timestamp := Bin.get_int64 tsB in
  match io_ReadFull 4 r with
  | (inr err, r) => (inr (Errorf_w "failed to read key length: " err), r)
  | (inl klB, r) =>
  let keyLen := Bin.get_uint32 klB in
  match io_ReadFull keyLen r with
  | (inr err, r) => (inr (Errorf_w "failed to read key: " err), r)
  | (inl key, r) =>
  match io_ReadFull 4 r with
  | (inr err, r) => (inr (Errorf_w "failed to read value length: " err), r)
  | (inl vlB, r) =>
  let valueLen := Bin.get_uint32 vlB in
  match (if 0 <? valueLen then io_ReadFull valueLen r
         else (inl [], r)) with
  | (inr err, r) => (inr (Errorf_w "failed to read value: " err), r)
  | (inl value, r) =>
    (inl {| Operation := operation; Timestamp := timestamp;
            Key := string_of_list_byte key; Value := Some value |}, r)
  end end end end end end end.

(** The record the revision writes into an empty [bytes.Buffer]. *)
Definition record (e : Entry) : list byte := (Encode buffer_Write e []).2.

End EntryV0.

(** ** store.go, the revision that keeps the map in memory only *)

Module MemStore.

Record Store : Type := mkStore {
  data : gmap string slice;
}.

Definition OpenWithConfig (cfg : Config) : result Store :=
  inl {| data := ∅ |}.

Definition Open (dir : string) : result Store :=
  OpenWithConfig {| DataDir := dir; SyncWrites := true |}.

Definition Set_ (s : Store) (key : string) (value : slice) : option error * Store :=
  (None, {| data := <[key := value]> (data s) |}).

Definition Get (s : Store) (key : string) : slice * bool :=
  match data s !! key with
  | None => (None, false)
  | Some value => (value, true)
  end.

Definition Delete (s : Store) (key : string) : option error * Store :=
  (None, {| data := delete key (data s) |}).

Definition Close (s : Store) : option error := None.

Definition Len (s : Store) : nat := size (data s).

Definition Keys (range : MapRange) (s : Store) : list string :=
  (range (data s)).*1.

Definition run_op (s : Store) (o : Op) : option error * Store :=
  match o with
  | DoSet key value => Set_ s key value
  | DoDelete key => Delete s key
  end.

(** The calls of a session in order; stops at the first error. *)
Fixpoint run_ops (s : Store) (ops : list (Z * Op)) : option error * Store :=
  match ops with
  | [] => (None, s)
  | (_, o) :: ops =>
      match run_op s o with
      | (Some err, s) => (Some err, s)
      | (None, s) => run_ops s ops
      end
  end.

End MemStore.

(** ** Values past the 32-bit length fields *)

(** A value of 2^32 zero bytes. [Set] and [writeSnapshot] take it like any
    other; its length does not fit the length field of a record or of a
    snapshot entry. *)
Definition oversize_value : slice := Some (replicate (Z.to_nat (2 ^ 32)) x00).

Definition oversize_map : gmap string slice :=
  {[ "k"%string := oversize_value ]}.

(** Closed side conditions on concrete records. *)
Ltac wf_compute :=
  vm_compute; repeat split; first [reflexivity | discriminate].

(** * Properties *)

(** ** Bytes and big-endian integers *)

Module BinFacts.
Import Bin.

Lemma Z_of_byte_range b : 0 <= Z_of_byte b < 256.
Proof.
  unfold Z_of_byte. pose proof (Byte.to_N_bounded b) as H.
  lia.
Qed.

Lemma byte_of_Z_of_byte b : byte_of_Z (Z_of_byte b) = b.
Proof.
  unfold byte_of_Z. pose proof (Z_of_byte_range b) as H.
  rewrite Z.mod_small by lia. unfold Z_of_byte.
  rewrite N2Z.id, Byte.of_to_N. reflexivity.
Qed.

Lemma Z_of_byte_of_Z z : Z_of_byte (byte_of_Z z) = z mod 256.
Proof.
  unfold byte_of_Z, Z_of_byte.
  assert (Hr : 0 <= z mod 256 < 256) by (apply Z.mod_pos_bound; lia).
  destruct (Byte.of_N (Z.to_N (z mod 256))) as [b|] eqn:E.
  - apply Byte.to_of_N in E. rewrite E. lia.
  - exfalso. pose proof (Byte.to_of_N_option_map (Z.to_N (z mod 256))) as H.
    rewrite E in H. simpl in H.
    destruct (N.leb_spec (Z.to_N (z mod 256)) 255); [discriminate | lia].
Qed.

Lemma byte_of_Z_mod z : byte_of_Z (z mod 256) = byte_of_Z z.
Proof. unfold byte_of_Z. rewrite Z.mod_mod by lia. reflexivity. Qed.

Lemma be_put_length n z : length (be_put n z) = n.
Proof.
  revert z. induction n as [|n IH]; intros z; simpl; [reflexivity|].
  rewrite length_app, IH. simpl. lia.
Qed.

Lemma be_get_snoc l b : be_get (l ++ [b]) = be_get l * 256 + Z_of_byte b.
Proof. unfold be_get. rewrite fold_left_app. reflexivity. Qed.

Lemma be_get_range l : 0 <= be_get l < 2 ^ (8 * Z.of_nat (length l)).
Proof.
  induction l as [|b l IH] using rev_ind.
  - cbn. lia.
  - rewrite be_get_snoc, length_app. simpl length.
    pose proof (Z_of_byte_range b).
    replace (8 * Z.of_nat (length l + 1)) with (8 * Z.of_nat (length l) + 8) by lia.
    rewrite Z.pow_add_r by lia. change (2 ^ 8) with 256. nia.
Qed.

Lemma be_get_put n z : be_get (be_put n z) = z mod 2 ^ (8 * Z.of_nat n).
Proof.
  revert z. induction n as [|n IH]; intros z.
  - cbn. rewrite Z.mod_1_r. reflexivity.
  - cbn [be_put]. rewrite be_get_snoc, IH, Z_of_byte_of_Z, Z.shiftr_div_pow2 by lia.
    replace (8 * Z.of_nat (S n)) with (8 + 8 * Z.of_nat n) by lia.
    rewrite Z.pow_add_r by lia. change (2 ^ 8) with 256.
    rewrite (Z.rem_mul_r z 256 (2 ^ (8 * Z.of_nat n))) by lia. lia.
Qed.

Lemma be_put_get l : be_put (length l) (be_get l) = l.
Proof.
  induction l as [|b l IH] using rev_ind; [reflexivity|].
  rewrite length_app, Nat.add_comm. cbn [length Nat.add be_put].
  rewrite be_get_snoc, Z.shiftr_div_pow2 by lia. change (2 ^ 8) with 256.
  pose proof (Z_of_byte_range b).
  rewrite Z.div_add_l, (Z.div_small (Z_of_byte b)), Z.add_0_r, IH by lia.
  f_equal. f_equal.
  rewrite <- byte_of_Z_mod, Z.add_comm, Z.mod_add, byte_of_Z_mod by lia.
  apply byte_of_Z_of_byte.
Qed.

Lemma get_put_uint32 z : 0 <= z < 2 ^ 32 -> get_uint32 (put_uint32 z) = z.
Proof.
  intros H. unfold get_uint32, put_uint32. rewrite be_get_put.
  apply Z.mod_small. exact H.
Qed.

Lemma put_get_uint32 l : length l = 4%nat -> put_uint32 (get_uint32 l) = l.
Proof. intros H. unfold put_uint32, get_uint32. rewrite <- H. apply be_put_get. Qed.

Lemma get_put_int64 z :
  - 2 ^ 63 <= z < 2 ^ 63 -> get_int64 (put_int64 z) = z.
Proof.
  intros H. unfold get_int64, put_int64, int64, uint64. rewrite be_get_put.
  change (2 ^ (8 * Z.of_nat 8)) with (2 ^ 64). rewrite !Z.mod_mod by lia.
  destruct (Z.neg_nonneg_cases z) as [Hn|Hp].
  - assert (E : z mod 2 ^ 64 = z + 2 ^ 64).
    { rewrite <- (Z.mod_add z 1) by lia. rewrite Z.mod_small; lia. }
    rewrite E. destruct (Z.ltb_spec (z + 2 ^ 64) (2 ^ 63)); lia.
  - rewrite Z.mod_small by lia. destruct (Z.ltb_spec z (2 ^ 63)); lia.
Qed.

Lemma put_get_int64 l : length l = 8%nat -> put_int64 (get_int64 l) = l.
Proof.
  intros H. unfold put_int64, get_int64, int64, uint64.
  pose proof (be_get_range l) as Hr. rewrite H in Hr.
  change (2 ^ (8 * Z.of_nat 8)) with (2 ^ 64) in Hr.
  rewrite (Z.mod_small (be_get l)) by lia.
  destruct (Z.ltb_spec (be_get l) (2 ^ 63)).
  - rewrite Z.mod_small by lia. rewrite <- H. apply be_put_get.
  - rewrite <- (Z.mod_add _ 1) by lia.
    rewrite Z.mod_small by lia.
    replace (be_get l - 2 ^ 64 + 1 * 2 ^ 64) with (be_get l) by lia.
    rewrite <- H. apply be_put_get.
Qed.

Lemma uint32_small z : 0 <= z < 2 ^ 32 -> uint32 z = z.
Proof. apply Z.mod_small. Qed.

Lemma uint32_range z : 0 <= uint32 z < 2 ^ 32.
Proof. apply Z.mod_pos_bound. lia. Qed.

End BinFacts.

(** ** The record codec *)

(** The model of [crc32.ChecksumIEEE] on the standard check vector, and of
    the formatting verbs. *)
Example crc32_check_value :
  CRC32.ChecksumIEEE (list_byte_of_string "123456789") = 0xCBF43926.
Proof. vm_compute. reflexivity. Qed.

Example fmt_X_magic : fmt_X EntryMagic = "4B564C47"%string.
Proof. vm_compute. reflexivity. Qed.

Example fmt_d_index : fmt_d 12 = "12"%string.
Proof. vm_compute. reflexivity. Qed.

(** The layout of one record, byte for byte. *)
Example Encode_layout :
  Encode (NewSetEntry 1 "key1" value1)
  = [x4b; x56; x4c; x47; x01;
     x00; x00; x00; x00; x00; x00; x00; x01;
     x00; x00; x00; x04; x6b; x65; x79; x31;
     x00; x00; x00; x06; x76; x61; x6c; x75; x65; x31;
     xc6; x57; xb2; xcc].
Proof. vm_compute. reflexivity. Qed.

Section Codec.
Import Bin BinFacts.

Lemma io_ReadFull_app n bs rest :
  Z.of_nat (length bs) = n -> io_ReadFull n (bs ++ rest) = (inl bs, rest).
Proof.
  intros <-. unfold io_ReadFull. destruct bs as [|b bs]; [reflexivity|].
  destruct (Z.leb_spec (Z.of_nat (length (b :: bs))) 0) as [H|_];
    [simpl length in H; lia|].
  destruct (Z.leb_spec (Z.of_nat (length (b :: bs)))
              (Z.of_nat (length ((b :: bs) ++ rest)))) as [_|H];
    [|rewrite length_app in H; lia].
  rewrite Nat2Z.id, take_app_length, drop_app_length. reflexivity.
Qed.

Lemma io_ReadFull_uint32 z rest :
  io_ReadFull 4 (put_uint32 z ++ rest) = (inl (put_uint32 z), rest).
Proof. apply io_ReadFull_app. unfold put_uint32. rewrite be_put_length. reflexivity. Qed.

Lemma io_ReadFull_int64 z rest :
  io_ReadFull 8 (put_int64 z ++ rest) = (inl (put_int64 z), rest).
Proof. apply io_ReadFull_app. unfold put_int64. rewrite be_put_length. reflexivity. Qed.

Lemma length_list_byte_of_string s :
  length (list_byte_of_string s) = String.length s.
Proof.
  unfold list_byte_of_string. rewrite length_map.
  induction s as [|c s IH]; simpl; [reflexivity | now rewrite IH].
Qed.

Lemma int64_get_put ts : get_int64 (put_int64 ts) = int64 ts.
Proof.
  unfold get_int64, put_int64, int64, uint64. rewrite be_get_put.
  change (2 ^ (8 * Z.of_nat 8)) with (2 ^ 64). rewrite !Z.mod_mod by lia.
  reflexivity.
Qed.

Lemma put_int64_int64 ts : put_int64 (int64 ts) = put_int64 ts.
Proof.
  rewrite <- int64_get_put. apply put_get_int64. apply be_put_length.
Qed.

Lemma DecodeEntry_frame op ts key value c rest :
  Z.of_nat (length key) < 2 ^ 32 ->
  Z.of_nat (length value) < 2 ^ 32 ->
  0 <= c < 2 ^ 32 ->
  DecodeEntry (frame op ts key value ++ put_uint32 c ++ rest) =
    if CRC32.ChecksumIEEE (frame op ts key value) =? c then
      (inl {| Operation := op; Timestamp := int64 ts;
              Key := string_of_list_byte key; Value := Some value |}, rest)
    else
      (inr (errorString ("checksum mismatch: expected 0x" ++ fmt_X c
                         ++ ", got 0x" ++ fmt_X (CRC32.ChecksumIEEE (frame op ts key value))
                         ++ " (data corrupted)")), rest).
Proof.
  intros Hk Hv Hc. unfold frame, DecodeEntry.
  rewrite <- !app_assoc.
  rewrite (io_ReadFull_uint32 EntryMagic).
  cbv beta iota zeta.
  rewrite (get_put_uint32 EntryMagic) by (unfold EntryMagic; lia).
  rewrite Z.eqb_refl. cbn [negb].
  rewrite (io_ReadFull_app 1 [op] _ eq_refl).
  cbv beta iota zeta. cbn [hd].
  rewrite (io_ReadFull_int64 ts).
  cbv beta iota zeta.
  rewrite (io_ReadFull_uint32 (Z.of_nat (length key))).
  cbv beta iota zeta.
  rewrite (get_put_uint32 (Z.of_nat (length key))) by lia.
  rewrite (io_ReadFull_app _ key _ eq_refl).
  cbv beta iota zeta.
  rewrite (io_ReadFull_uint32 (Z.of_nat (length value))).
  cbv beta iota zeta.
  rewrite (get_put_uint32 (Z.of_nat (length value))) by lia.
  assert (Hval : (if 0 <? Z.of_nat (length value)
                  then io_ReadFull (Z.of_nat (length value))
                         (value ++ put_uint32 c ++ rest)
                  else (inl [], value ++ put_uint32 c ++ rest))
                 = (inl value, put_uint32 c ++ rest)).
  { destruct value as [|v value]; [reflexivity|].
    replace (0 <? Z.of_nat (length (v :: value))) with true
      by (symmetry; apply Z.ltb_lt; simpl length; lia).
    apply io_ReadFull_app. reflexivity. }
  rewrite Hval. cbv beta iota zeta.
  rewrite (io_ReadFull_uint32 c).
  cbv beta iota zeta.
  rewrite (get_put_uint32 c) by lia.
  rewrite int64_get_put, put_int64_int64.
  rewrite <- !app_assoc.
  destruct (CRC32.ChecksumIEEE _ =? c); reflexivity.
Qed.

Lemma lxor_lt_pow2 a b n :
  0 <= n -> 0 <= a < 2 ^ n -> 0 <= b < 2 ^ n -> 0 <= Z.lxor a b < 2 ^ n.
Proof.
  intros Hn Ha Hb.
  assert (E : Z.lxor a b = Z.lxor a b mod 2 ^ n).
  { apply Z.bits_inj'. intros k Hk.
    destruct (Z.lt_ge_cases k n) as [Hlt|Hge].
    - rewrite Z.mod_pow2_bits_low by lia. reflexivity.
    - rewrite Z.mod_pow2_bits_high by lia.
      rewrite Z.lxor_spec.
      rewrite <- (Z.mod_small a (2 ^ n)), <- (Z.mod_small b (2 ^ n)) by lia.
      rewrite !Z.mod_pow2_bits_high by lia. reflexivity. }
  rewrite E. apply Z.mod_pos_bound. lia.
Qed.

Lemma crc_step_range c : 0 <= c < 2 ^ 32 -> 0 <= CRC32.step c < 2 ^ 32.
Proof.
  intros H. unfold CRC32.step.
  assert (Hs : 0 <= Z.shiftr c 1 < 2 ^ 31).
  { rewrite Z.shiftr_div_pow2 by lia. change (2 ^ 1) with 2.
    split; [apply Z.div_pos; lia | apply Z.div_lt_upper_bound; lia]. }
  destruct (Z.testbit c 0).
  - apply lxor_lt_pow2; unfold CRC32.IEEE; lia.
  - lia.
Qed.

Lemma crc_update_byte_range c b :
  0 <= c < 2 ^ 32 -> 0 <= CRC32.update_byte c b < 2 ^ 32.
Proof.
  intros H. unfold CRC32.update_byte.
  assert (H0 : 0 <= Z.lxor c (Z_of_byte b) < 2 ^ 32).
  { pose proof (Z_of_byte_range b). apply lxor_lt_pow2; lia. }
  revert H0. generalize (Z.lxor c (Z_of_byte b)). intros x Hx.
  do 8 (try apply crc_step_range). exact Hx.
Qed.

Lemma crc_update_range p c :
  0 <= c < 2 ^ 32 -> 0 <= CRC32.update c p < 2 ^ 32.
Proof.
  revert c. unfold CRC32.update.
  induction p as [|b p IH]; intros c H; simpl; [exact H|].
  apply IH. apply crc_update_byte_range. exact H.
Qed.

Lemma ChecksumIEEE_range p : 0 <= CRC32.ChecksumIEEE p < 2 ^ 32.
Proof.
  unfold CRC32.ChecksumIEEE. apply lxor_lt_pow2; [lia | | lia].
  apply crc_update_range. lia.
Qed.

Lemma Encode_data_frame e :
  wf_entry e ->
  Encode_data e =
    frame (Operation e) (Timestamp e) (list_byte_of_string (Key e))
      (bytes_of (Value e)).
Proof.
  intros (_ & Hk & Hv). unfold Encode_data, frame, len in *.
  rewrite length_list_byte_of_string.
  rewrite !uint32_small by lia.
  destruct (bytes_of (Value e)) as [|v l]; [reflexivity|].
  replace (0 <? Z.of_nat (length (v :: l))) with true
    by (symmetry; apply Z.ltb_lt; simpl length; lia).
  reflexivity.
Qed.

Lemma int64_small z : - 2 ^ 63 <= z < 2 ^ 63 -> int64 z = z.
Proof.
  intros H. rewrite <- int64_get_put. apply get_put_int64. exact H.
Qed.

(** Decoding an encoded record: the fields come back, the value as a
    non-nil slice ([make([]byte, valueLen)]). *)
Lemma DecodeEntry_Encode e rest :
  wf_entry e ->
  DecodeEntry (Encode e ++ rest) =
    (inl (with_value e (Some (bytes_of (Value e)))), rest).
Proof.
  intros Hwf. unfold Encode. rewrite (Encode_data_frame e Hwf).
  destruct Hwf as (Ht & Hk & Hv). unfold len in Hv.
  rewrite <- app_assoc.
  rewrite DecodeEntry_frame;
    [ | rewrite length_list_byte_of_string; lia | lia | apply ChecksumIEEE_range ].
  rewrite Z.eqb_refl, int64_small, string_of_list_byte_of_string by lia.
  reflexivity.
Qed.

End Codec.

(** C6. For every well-formed record (any operation byte, so Set and Delete
    in particular, a 64-bit timestamp, key and value lengths below 2^32),
    decoding the bytes produced by encoding it succeeds, consumes exactly
    those bytes, and yields a record with the same operation, timestamp, key
    and value bytes. *)
Theorem decode_encode_roundtrip (e : Entry) (rest : list byte) :
  wf_entry e ->
  exists e',
    DecodeEntry (Encode e ++ rest) = (inl e', rest)
    /\ Operation e' = Operation e
    /\ Timestamp e' = Timestamp e
    /\ Key e' = Key e
    /\ bytes_of (Value e') = bytes_of (Value e).
Proof.
  intros Hwf. eexists. split; [apply DecodeEntry_Encode; exact Hwf|].
  repeat split.
Qed.

Lemma decode_encode_roundtrip_witness :
  exists e',
    DecodeEntry (Encode (NewSetEntry 1700000000000000000 "test-key"
                           (Some (list_byte_of_string "test-value"))) ++ [])
    = (inl e', [])
    /\ Operation e' = OpSet
    /\ Timestamp e' = 1700000000000000000
    /\ Key e' = "test-key"%string
    /\ bytes_of (Value e') = list_byte_of_string "test-value".
Proof.
  apply (decode_encode_roundtrip
           (NewSetEntry 1700000000000000000 "test-key"
              (Some (list_byte_of_string "test-value"))) []).
  wf_compute.
Defined.

(** C8. An encoded record is its data bytes (magic, op, timestamp, key
    length, key, value length, value) followed by a 4-byte big-endian
    trailer holding the IEEE CRC-32 of exactly those data bytes; and when
    [DecodeEntry] reads a complete record whose stored trailer [c] differs
    from the CRC it recomputes, it returns a checksum-mismatch error. *)
Theorem Encode_crc_trailer (e : Entry) (c : Z) (rest : list byte) :
  wf_entry e ->
  0 <= c < 2 ^ 32 ->
  (exists trailer,
      Encode e = frame (Operation e) (Timestamp e)
                   (list_byte_of_string (Key e)) (bytes_of (Value e))
                 ++ trailer
      /\ length trailer = 4%nat
      /\ Bin.get_uint32 trailer =
           CRC32.ChecksumIEEE (frame (Operation e) (Timestamp e)
                                 (list_byte_of_string (Key e))
                                 (bytes_of (Value e))))
  /\ (c <> CRC32.ChecksumIEEE (Encode_data e) ->
      exists msg,
        DecodeEntry (Encode_data e ++ Bin.put_uint32 c ++ rest)
        = (inr (errorString msg), rest)
        /\ strings_Contains msg "checksum mismatch" = true).
Proof.
  intros Hwf Hc. split.
  - exists (Bin.put_uint32 (CRC32.ChecksumIEEE (Encode_data e))).
    unfold Encode. rewrite (Encode_data_frame e Hwf).
    split; [reflexivity | split].
    + apply BinFacts.be_put_length.
    + apply BinFacts.get_put_uint32, ChecksumIEEE_range.
  - intros Hne. rewrite (Encode_data_frame e Hwf) in *.
    destruct Hwf as (Ht & Hk & Hv). unfold len in Hv.
    rewrite DecodeEntry_frame;
      [ | rewrite length_list_byte_of_string; lia | lia | exact Hc ].
    destruct (Z.eqb_spec (CRC32.ChecksumIEEE
                            (frame (Operation e) (Timestamp e)
                               (list_byte_of_string (Key e))
                               (bytes_of (Value e)))) c) as [E|_].
    + congruence.
    + eexists. split; [reflexivity|]. reflexivity.
Qed.

Lemma Encode_crc_trailer_witness :
  (exists trailer,
      Encode (NewSetEntry 7 "k" (Some [x61]))
      = frame OpSet 7 [x6b] [x61] ++ trailer
      /\ length trailer = 4%nat
      /\ Bin.get_uint32 trailer = CRC32.ChecksumIEEE (frame OpSet 7 [x6b] [x61]))
  /\ (exists msg,
        DecodeEntry (Encode_data (NewSetEntry 7 "k" (Some [x61]))
                     ++ Bin.put_uint32 0 ++ [])
        = (inr (errorString msg), [])
        /\ strings_Contains msg "checksum mismatch" = true).
Proof.
  destruct (Encode_crc_trailer (NewSetEntry 7 "k" (Some [x61])) 0 [])
    as [Htrailer Hmismatch].
  - wf_compute.
  - lia.
  - split; [exact Htrailer|]. apply Hmismatch. vm_compute. discriminate.
Defined.

(** C9. A record whose value has length zero (a nil or an empty slice; every
    Delete record is built with a nil value) decodes from its encoding to a
    record whose value is the empty, non-nil byte sequence; the nil and the
    empty value have the same encoding, so the round trip identifies them. *)
Theorem decode_zero_length_value (e : Entry) (rest : list byte) :
  wf_entry e ->
  len (Value e) = 0%nat ->
  DecodeEntry (Encode e ++ rest) = (inl (with_value e (Some [])), rest)
  /\ Encode (with_value e None) = Encode (with_value e (Some [])).
Proof.
  intros Hwf Hlen. split.
  - rewrite DecodeEntry_Encode by exact Hwf.
    unfold len in Hlen. apply length_zero_iff_nil in Hlen. rewrite Hlen.
    reflexivity.
  - reflexivity.
Qed.

Lemma decode_zero_length_value_witness :
  DecodeEntry (Encode (NewDeleteEntry 42 "test-key") ++ [])
  = (inl (with_value (NewDeleteEntry 42 "test-key") (Some [])), [])
  /\ Encode (with_value (NewDeleteEntry 42 "test-key") None)
     = Encode (with_value (NewDeleteEntry 42 "test-key") (Some [])).
Proof.
  apply (decode_zero_length_value (NewDeleteEntry 42 "test-key") []).
  - wf_compute.
  - reflexivity.
Defined.

(** ** The store: writes, reads *)

(** C5. When the WAL append of a [Set] or [Delete] fails, the call returns
    that error (wrapped) and the store it leaves is the one it was given:
    the map is unchanged, so every key, the written one included, reads as
    before. *)
Theorem append_failure_leaves_map (s : Store) (d : Dir) (flt : Fault) (now : Z)
    (o : Op) (err : error) (d1 : Dir) :
  Append (wal s) d flt (op_entry now o) = (Some err, d1) ->
  exists s',
    run_op s d flt now o = (Some (Errorf_w "WAL append failed: " err), s', d1)
    /\ data s' = data s
    /\ forall k, Get s' k = Get s k.
Proof.
  intros H. exists s. destruct o as [key value|key]; cbn [run_op op_entry] in *.
  - unfold Set_. rewrite H. auto.
  - unfold Delete. rewrite H. auto.
Qed.

(** The converse reading: a call that changed the map had a successful
    append before it. *)
Lemma map_change_after_append (s : Store) (d : Dir) (flt : Fault) (now : Z)
    (o : Op) r s' d' :
  run_op s d flt now o = (r, s', d') ->
  data s' <> data s ->
  r = None /\ Append (wal s) d flt (op_entry now o) = (None, d').
Proof.
  destruct o as [key value|key]; cbn [run_op op_entry]; unfold Set_, Delete;
    destruct (Append _ _ _ _) as [[e|] d2]; intros [= <- <- <-]; intros Hne;
    solve [ contradiction | auto ].
Qed.

Lemma append_failure_leaves_map_witness :
  exists s',
    run_op store_wal_closed empty_dir NoFault 5 (DoSet "key2" value2)
    = (Some (Errorf_w "WAL append failed: "
               (Errorf_w "failed to write to WAL: " os_ErrClosed)),
       s', empty_dir)
    /\ data s' = data store_wal_closed
    /\ forall k, Get s' k = Get store_wal_closed k.
Proof.
  apply (append_failure_leaves_map store_wal_closed empty_dir NoFault 5
           (DoSet "key2" value2)
           (Errorf_w "failed to write to WAL: " os_ErrClosed) empty_dir).
  reflexivity.
Defined.

Section Reads.
Variable range : MapRange.
Hypothesis Hrange : range_ok range.

Lemma Keys_perm s : Keys range s ≡ₚ (map_to_list (data s)).*1.
Proof. unfold Keys. rewrite (Hrange (data s)). reflexivity. Qed.

Lemma Keys_NoDup s : NoDup (Keys range s).
Proof. rewrite Keys_perm. apply NoDup_fst_map_to_list. Qed.

Lemma Keys_found s k : k ∈ Keys range s <-> (Get s k).2 = true.
Proof.
  rewrite Keys_perm. unfold Get. rewrite list_elem_of_fmap. split.
  - intros [[k' v] [-> Hin]]. apply elem_of_map_to_list in Hin.
    cbn [fst snd] in *. rewrite Hin. reflexivity.
  - destruct (data s !! k) as [v|] eqn:E; [|discriminate].
    intros _. exists (k, v). split; [reflexivity|].
    apply elem_of_map_to_list. exact E.
Qed.

Lemma Len_Keys s : Len s = length (Keys range s).
Proof.
  rewrite Keys_perm. unfold Len.
  rewrite length_fmap, length_map_to_list. reflexivity.
Qed.

End Reads.

(** C10. In every state reached by an open followed by successful [Set] and
    [Delete] calls, whatever order the map is ranged over, [Keys] lists
    without repetition exactly the keys that [Get] finds, and [Len] is their
    number. *)
Theorem reads_agree (range : MapRange) (s : Store) (d : Dir) :
  range_ok range ->
  reachable s d ->
  NoDup (Keys range s)
  /\ (forall k, k ∈ Keys range s <-> (Get s k).2 = true)
  /\ Len s = length (Keys range s).
Proof.
  intros Hrange _. split; [|split].
  - apply Keys_NoDup, Hrange.
  - intros k. apply Keys_found, Hrange.
  - apply Len_Keys, Hrange.
Qed.

Lemma reads_agree_witness :
  NoDup (Keys map_to_list store_one_key)
  /\ (forall k, k ∈ Keys map_to_list store_one_key
               <-> (Get store_one_key k).2 = true)
  /\ Len store_one_key = length (Keys map_to_list store_one_key).
Proof.
  apply (reads_agree map_to_list store_one_key
           (dir_with_wal (Encode (NewSetEntry 1 "key1" value1)))).
  - intros m. reflexivity.
  - eapply (reach_op _ _ NoFault 1 (DoSet "key1" value1)).
    + eapply (reach_open empty_dir NoFault cfg0). vm_compute. reflexivity.
    + vm_compute. reflexivity.
Defined.

(** ** Shutdown and recovery as the store implements them *)

(** Opening a directory whose log is empty gives the empty map, whatever the
    snapshot files hold. *)
Lemma Open_empty_log d cfg :
  wal_log d = Some [] ->
  OpenWithConfig d NoFault cfg =
    (inl {| data := ∅;
            wal := {| file := {| closed := false |}; dataDir := DataDir cfg;
                      syncMode := SyncWrites cfg |};
            config := cfg |}, d).
Proof.
  intros H. destruct d as [w sn tmp]. cbn in H. subst w. reflexivity.
Qed.

(** [Close] on a store whose log handle is open: the log is cut to zero
    length, the handle closed, and no snapshot file is touched. *)
Lemma Close_open_handle s d :
  closed (file (wal s)) = false ->
  Close s d NoFault =
    (None,
     with_wal s {| file := {| closed := true |}; dataDir := dataDir (wal s);
                   syncMode := syncMode (wal s) |},
     set_wal_log d (Some [])).
Proof.
  intros H. unfold Close, Truncate, WAL_Close, file_Sync. rewrite H. reflexivity.
Qed.

(** C1 (the code departs from it). After open, two successful [Set] calls, a
    successful [Close] and a second open of the same directory, the store
    is empty: [Get] reports both keys as not found, although the last
    successful operation on each wrote a value. *)
Theorem clean_shutdown_loses_writes :
  exists s2,
    reopen_after_close empty_dir cfg0 two_sets = Some s2
    /\ Get s2 "key1" = (None, false)
    /\ Get s2 "key2" = (None, false)
    /\ Len s2 = 0%nat
    /\ apply_ops ∅ two_sets !! "key1"%string = Some value1
    /\ apply_ops ∅ two_sets !! "key2"%string = Some value2.
Proof.
  eexists. split; [vm_compute; reflexivity|].
  repeat split; vm_compute; reflexivity.
Qed.

(** The same for every store: whatever it holds, a successful [Close]
    followed by an open finds nothing. *)
Lemma Close_then_Open_empty s d cfg :
  closed (file (wal s)) = false ->
  exists s' d',
    Close s d NoFault = (None, s', d')
    /\ snapshot_dat d' = snapshot_dat d
    /\ exists s2, OpenWithConfig d' NoFault cfg = (inl s2, d') /\ data s2 = ∅.
Proof.
  intros H. rewrite (Close_open_handle s d H). do 2 eexists.
  split; [reflexivity|]. split; [reflexivity|].
  eexists. split; [apply Open_empty_log; reflexivity | reflexivity].
Qed.

(** C2 (the code departs from it). [Close] writes no snapshot: on a store
    that holds a key, over a directory without snapshot file, it returns
    success, leaves the directory without snapshot file and has cut the log
    to zero length. *)
Theorem Close_writes_no_snapshot :
  exists s' d',
    Close store_one_key (dir_with_wal (Encode (NewSetEntry 1 "key1" value1)))
      NoFault = (None, s', d')
    /\ data s' = {[ "key1"%string := value1 ]}
    /\ snapshot_dat d' = None
    /\ snapshotExists d' = false
    /\ wal_log d' = Some [].
Proof.
  do 2 eexists. split; [vm_compute; reflexivity|].
  repeat split.
Qed.

(** [Close] never creates, replaces or removes a snapshot file, with or
    without an injected failure. *)
Lemma Close_keeps_snapshot_files s d flt :
  snapshot_dat (Close s d flt).2 = snapshot_dat d
  /\ snapshot_dat_tmp (Close s d flt).2 = snapshot_dat_tmp d.
Proof.
  unfold Close, Truncate.
  destruct (closed (file (wal s))), flt; cbn;
    repeat match goal with
           | |- context [WAL_Close ?w ?f] => destruct (WAL_Close w f) as [[e|] w']
           end; cbn; auto.
Qed.

(** C3 (the code departs from it). [OpenWithConfig] does not read the
    snapshot: over a directory whose snapshot file holds one key (which
    [loadSnapshot] reads back) and whose log is empty it returns an empty
    store; over a directory whose snapshot file is corrupt (which
    [loadSnapshot] rejects) it succeeds. *)
Theorem Open_ignores_snapshot :
  loadSnapshot dir_with_snapshot NoFault = inl {[ "key1"%string := value1 ]}
  /\ (exists s, OpenWithConfig dir_with_snapshot NoFault cfg0
                = (inl s, dir_with_snapshot)
                /\ data s = ∅ /\ Get s "key1" = (None, false))
  /\ (exists err, loadSnapshot dir_corrupt_snapshot NoFault = inr err)
  /\ open_fails dir_corrupt_snapshot = false.
Proof.
  split; [vm_compute; reflexivity|].
  split; [eexists; split; [vm_compute; reflexivity | split; reflexivity]|].
  split; [eexists; vm_compute; reflexivity|].
  vm_compute. reflexivity.
Qed.

Lemma Replay_reads_log_only {A : Type} w d d' flt
    (callback : Entry -> A -> option error * A) a :
  wal_log d = wal_log d' ->
  Replay w d flt callback a = Replay w d' flt callback a.
Proof. unfold Replay. intros ->. reflexivity. Qed.

(** The result of [OpenWithConfig] does not depend on the snapshot files. *)
Lemma Open_independent_of_snapshot w sn tmp sn' tmp' flt cfg :
  (OpenWithConfig (mkDir w sn tmp) flt cfg).1
  = (OpenWithConfig (mkDir w sn' tmp') flt cfg).1.
Proof.
  unfold OpenWithConfig, NewWAL.
  destruct flt; cbv beta iota; try reflexivity; cbn [wal_log];
    match goal with
    | |- context [Replay ?h (set_wal_log (mkDir w sn tmp) ?c) ?f ?cb ?a] =>
        rewrite (Replay_reads_log_only h (set_wal_log (mkDir w sn tmp) c)
                   (set_wal_log (mkDir w sn' tmp') c) f cb a eq_refl);
        destruct (Replay h (set_wal_log (mkDir w sn' tmp') c) f cb a) as [[e|] m]
    end;
    repeat match goal with
           | |- context [WAL_Close ?h ?f] => destruct (WAL_Close h f) as [? ?]
           end; reflexivity.
Qed.

(** C4 (the code departs from it). With two validly encoded records in the
    log and the first bit of the final record flipped (its first byte, "K"
    of the magic, becomes 0xCB), open fails with an invalid-magic error;
    with the log intact it recovers both records. *)
Theorem flipped_magic_fails_open :
  flip_bit 0 (Encode (NewSetEntry 2 "key2" value2))
    = xcb :: tail (Encode (NewSetEntry 2 "key2" value2))
  /\ (OpenWithConfig (dir_with_wal (wal_tail_flipped 0)) NoFault cfg0).1
     = inr (Errorf_w "failed to replay WAL: "
              (Errorf_w "failed to decode WAL entry: "
                 (errorString "invalid magic: expected 0x4B564C47, got 0xCB564C47")))
  /\ (exists s,
        OpenWithConfig (dir_with_wal wal_two_records) NoFault cfg0
        = (inl s, dir_with_wal wal_two_records)
        /\ Get s "key1" = (value1, true)
        /\ Get s "key2" = (value2, true)).
Proof.
  split; [vm_compute; reflexivity|].
  split; [vm_compute; reflexivity|].
  eexists. split; [vm_compute; reflexivity|].
  split; vm_compute; reflexivity.
Qed.

(** On that log, the single-bit flips of the final record that make open
    fail are exactly the 32 flips inside its magic; after any of the other
    248 flips open succeeds with the first record recovered. *)
Lemma flipped_tail_characterised :
  forallb (fun i =>
             Bool.eqb (open_fails (dir_with_wal (wal_tail_flipped i))) (i <? 32)%nat)
    (seq 0 280) = true
  /\ forallb (fun i =>
                match OpenWithConfig (dir_with_wal (wal_tail_flipped i)) NoFault cfg0 with
                | (inl s, _) => bool_decide (data s = {[ "key1"%string := value1 ]})
                | (inr _, _) => true
                end)
       (seq 0 280) = true.
Proof. split; vm_compute; reflexivity. Qed.

(** ** The snapshot codec *)

Section Snapshot.
Import Bin BinFacts.

Lemma snapshot_entryBuf_wf k v :
  Z.of_nat (String.length k) < 2 ^ 32 ->
  Z.of_nat (len v) < 2 ^ 32 ->
  snapshot_entryBuf (k, v) =
    put_uint32 (Z.of_nat (length (list_byte_of_string k)))
    ++ list_byte_of_string k
    ++ put_uint32 (Z.of_nat (length (bytes_of v))) ++ bytes_of v.
Proof.
  intros Hk Hv. unfold snapshot_entryBuf, len in *. cbn [fst snd].
  rewrite !uint32_small by (rewrite ?length_list_byte_of_string; lia).
  destruct (bytes_of v) as [|b l]; [reflexivity|].
  replace (0 <? Z.of_nat (length (b :: l))) with true
    by (symmetry; apply Z.ltb_lt; simpl length; lia).
  reflexivity.
Qed.

Lemma loadSnapshot_entries_step n i k v rest acc :
  Z.of_nat (String.length k) < 2 ^ 32 ->
  Z.of_nat (len v) < 2 ^ 32 ->
  loadSnapshot_entries (S n) i (snapshot_entry (k, v) ++ rest) acc =
    loadSnapshot_entries n (i + 1) rest (<[k := loaded v]> acc).
Proof.
  intros Hk Hv. unfold snapshot_entry.
  rewrite (snapshot_entryBuf_wf k v Hk Hv).
  set (kb := list_byte_of_string k). set (vb := bytes_of v).
  assert (Hkb : Z.of_nat (length kb) < 2 ^ 32)
    by (subst kb; rewrite length_list_byte_of_string; lia).
  assert (Hvb : Z.of_nat (length vb) < 2 ^ 32) by exact Hv.
  cbn [loadSnapshot_entries]. rewrite <- !app_assoc.
  rewrite (io_ReadFull_uint32 (Z.of_nat (length kb))).
  cbv beta iota zeta.
  rewrite (get_put_uint32 (Z.of_nat (length kb))) by lia.
  rewrite (io_ReadFull_app _ kb _ eq_refl).
  cbv beta iota zeta.
  rewrite (io_ReadFull_uint32 (Z.of_nat (length vb))).
  cbv beta iota zeta.
  rewrite (get_put_uint32 (Z.of_nat (length vb))) by lia.
  set (c := CRC32.ChecksumIEEE _).
  assert (Hval : (if 0 <? Z.of_nat (length vb)
                  then io_ReadFull (Z.of_nat (length vb))
                         (vb ++ put_uint32 c ++ rest)
                  else (inl [], vb ++ put_uint32 c ++ rest))
                 = (inl vb, put_uint32 c ++ rest)).
  { destruct vb as [|b vb]; [reflexivity|].
    replace (0 <? Z.of_nat (length (b :: vb))) with true
      by (symmetry; apply Z.ltb_lt; simpl length; lia).
    apply io_ReadFull_app. reflexivity. }
  rewrite Hval. cbv beta iota zeta.
  rewrite (io_ReadFull_uint32 c).
  cbv beta iota zeta.
  rewrite (get_put_uint32 c) by (subst c; apply ChecksumIEEE_range).
  rewrite <- !app_assoc. fold c.
  rewrite Z.eqb_refl. cbn [negb].
  subst kb. rewrite string_of_list_byte_of_string. reflexivity.
Qed.

(** The entry loop on the entries written for a list of pairs: each is
    inserted in turn. *)
Lemma loadSnapshot_entries_written l i rest acc :
  Forall (fun kv => Z.of_nat (String.length kv.1) < 2 ^ 32
                    /\ Z.of_nat (len kv.2) < 2 ^ 32) l ->
  loadSnapshot_entries (length l) i (concat (map snapshot_entry l) ++ rest) acc =
    inl (fold_left (fun m kv => <[kv.1 := loaded kv.2]> m) l acc).
Proof.
  revert i acc. induction l as [|[k v] l IH]; intros i acc Hwf; [reflexivity|].
  apply Forall_cons in Hwf as [[Hk Hv] Hl]. cbn [fst snd] in Hk, Hv.
  cbn [length map concat fold_left]. rewrite <- app_assoc.
  rewrite loadSnapshot_entries_step by assumption.
  apply IH. exact Hl.
Qed.

Lemma fold_insert_lookup (f : slice -> slice) (l : list (string * slice))
    (acc : gmap string slice) (k : string) :
  NoDup l.*1 ->
  fold_left (fun m kv => <[kv.1 := f kv.2]> m) l acc !! k =
    match (list_to_map l : gmap string slice) !! k with
    | Some v => Some (f v)
    | None => acc !! k
    end.
Proof.
  revert acc. induction l as [|[k' v'] l IH]; intros acc Hnd.
  - reflexivity.
  - cbn [fmap list_fmap fst] in Hnd. apply NoDup_cons in Hnd as [Hnotin Hnd].
    cbn [fold_left list_to_map foldr fst snd curry]. rewrite (IH _ Hnd).
    destruct (decide (k' = k)) as [->|Hne].
    + rewrite lookup_insert_eq.
      rewrite (not_elem_of_list_to_map_1 l k Hnotin).
      rewrite lookup_insert_eq. reflexivity.
    + rewrite !lookup_insert_ne by exact Hne. reflexivity.
Qed.

Lemma range_list_to_map (range : MapRange) (m : gmap string slice) :
  range_ok range ->
  NoDup (range m).*1 /\ list_to_map (range m) = m /\ length (range m) = size m.
Proof.
  intros Hrange. pose proof (Hrange m) as Hp.
  assert (Hnd : NoDup (range m).*1)
    by (rewrite Hp; apply NoDup_fst_map_to_list).
  split; [exact Hnd|]. split.
  - rewrite (list_to_map_proper _ _ Hnd Hp). apply list_to_map_to_list.
  - rewrite Hp. apply length_map_to_list.
Qed.

Lemma range_Forall (range : MapRange) (m : gmap string slice)
    (P : string -> slice -> Prop) :
  range_ok range -> map_Forall P m -> Forall (fun kv => P kv.1 kv.2) (range m).
Proof.
  intros Hrange HP. rewrite (Hrange m). apply Forall_forall.
  intros [k v] Hin. apply elem_of_map_to_list in Hin. exact (HP k v Hin).
Qed.

(** Loading what [writeSnapshot] wrote for [m] gives [m] back, each value as
    a non-nil slice. *)
Lemma loadSnapshot_written range now m d :
  range_ok range ->
  wf_map m ->
  snapshot_dat d = Some (snapshot_bytes range now m) ->
  loadSnapshot d NoFault = inl (loaded <$> m).
Proof.
  intros Hrange [Hsize Hwf] Hd.
  destruct (range_list_to_map range m Hrange) as (Hnd & Hmap & Hlen).
  unfold loadSnapshot. rewrite Hd. unfold snapshot_bytes, snapshot_header.
  rewrite (uint32_small (Z.of_nat (size m))) by lia.
  rewrite <- !app_assoc.
  rewrite (io_ReadFull_uint32 SnapshotMagic).
  cbv beta iota zeta.
  rewrite (get_put_uint32 SnapshotMagic) by (unfold SnapshotMagic; lia).
  rewrite Z.eqb_refl. cbn [negb].
  rewrite (io_ReadFull_int64 now).
  cbv beta iota zeta.
  rewrite (io_ReadFull_uint32 (Z.of_nat (size m))).
  cbv beta iota zeta.
  rewrite (get_put_uint32 (Z.of_nat (size m))) by lia.
  rewrite int64_get_put, put_int64_int64.
  rewrite <- !app_assoc.
  set (c := CRC32.ChecksumIEEE _).
  rewrite (io_ReadFull_uint32 c).
  cbv beta iota zeta.
  rewrite (get_put_uint32 c) by (subst c; apply ChecksumIEEE_range).
  rewrite Z.eqb_refl. cbn [negb].
  rewrite Nat2Z.id, <- Hlen.
  rewrite <- (app_nil_r (concat _)).
  rewrite loadSnapshot_entries_written
    by (apply (range_Forall range m _ Hrange Hwf)).
  f_equal. apply map_eq. intros k.
  rewrite (fold_insert_lookup loaded _ _ _ Hnd), Hmap, lookup_fmap, lookup_empty.
  destruct (m !! k); reflexivity.
Qed.

Lemma writeSnapshot_ok range d now m :
  writeSnapshot range d NoFault now m =
    (None, {| wal_log := wal_log d;
              snapshot_dat := Some (snapshot_bytes range now m);
              snapshot_dat_tmp := None |}).
Proof. reflexivity. Qed.

End Snapshot.

(** C7. For every map of the data model (string keys, byte-string values,
    lengths and entry count within the 32-bit fields), and whatever order
    the entries are ranged over, writing it as a snapshot succeeds and
    loading the file then written yields a map with the same key set and,
    for every key, the same value bytes. *)
Theorem snapshot_roundtrip (range : MapRange) (d : Dir) (now : Z)
    (m : gmap string slice) :
  range_ok range ->
  wf_map m ->
  exists d' m',
    writeSnapshot range d NoFault now m = (None, d')
    /\ loadSnapshot d' NoFault = inl m'
    /\ dom m' = dom m
    /\ forall k, bytes_of <$> (m' !! k) = bytes_of <$> (m !! k).
Proof.
  intros Hrange Hwf. do 2 eexists.
  split; [apply writeSnapshot_ok|].
  split; [apply (loadSnapshot_written range now m _ Hrange Hwf); reflexivity|].
  split.
  - apply dom_fmap_L.
  - intros k. rewrite lookup_fmap. destruct (m !! k); reflexivity.
Qed.

Lemma snapshot_roundtrip_witness :
  exists d' m',
    writeSnapshot map_to_list empty_dir NoFault 1
      {[ "key1"%string := value1; "key2"%string := value2 ]} = (None, d')
    /\ loadSnapshot d' NoFault = inl m'
    /\ dom m' = dom ({[ "key1"%string := value1; "key2"%string := value2 ]}
                      : gmap string slice)
    /\ forall k, bytes_of <$> (m' !! k)
                 = bytes_of <$> (({[ "key1"%string := value1;
                                      "key2"%string := value2 ]}
                                  : gmap string slice) !! k).
Proof.
  apply (snapshot_roundtrip map_to_list empty_dir 1
           {[ "key1"%string := value1; "key2"%string := value2 ]}).
  - intros m. reflexivity.
  - split; [vm_compute; reflexivity|].
    apply map_Forall_insert_2; [wf_compute|].
    apply map_Forall_insert_2; [wf_compute|].
    apply map_Forall_empty.
Defined.

Section SnapshotOversize.
Import Bin BinFacts.

Lemma len_replicate n b : len (Some (replicate n b)) = n.
Proof. unfold len, bytes_of. cbn [default from_option id]. apply length_replicate. Qed.

Lemma len_oversize_value : Z.of_nat (len oversize_value) = 2 ^ 32.
Proof. unfold oversize_value. rewrite len_replicate. apply Z2Nat.id. lia. Qed.

Lemma uint32_wraps : uint32 (2 ^ 32) = 0.
Proof. reflexivity. Qed.

(** A value of 2^32 bytes is written as an entry with an empty value: its
    length wraps to 0 in [uint32(len(value))], and no value byte follows. *)
Lemma snapshot_entry_wrapped k v :
  Z.of_nat (len v) = 2 ^ 32 ->
  snapshot_entry (k, v) = snapshot_entry (k, Some []).
Proof.
  intros Hv. unfold snapshot_entry, snapshot_entryBuf. cbn [fst snd].
  rewrite Hv, uint32_wraps. reflexivity.
Qed.

Lemma snapshot_bytes_wrapped range now k v :
  range_ok range ->
  Z.of_nat (len v) = 2 ^ 32 ->
  snapshot_bytes range now {[ k := v ]} = snapshot_bytes range now {[ k := Some [] ]}.
Proof.
  intros Hrange Hv.
  assert (Hone : forall w : slice, range {[ k := w ]} = [(k, w)]).
  { intros w. apply Permutation_singleton_r.
    rewrite (Hrange {[ k := w ]}), map_to_list_singleton. reflexivity. }
  unfold snapshot_bytes. rewrite !map_size_singleton, !Hone.
  cbn [map concat]. rewrite (snapshot_entry_wrapped k v Hv). reflexivity.
Qed.

Lemma empty_value_differs (v : slice) :
  (0 < len v)%nat ->
  bytes_of <$> Some (Some [] : slice) <> bytes_of <$> Some v.
Proof.
  intros Hv H. cbn in H. injection H as H.
  unfold len in Hv. rewrite <- H in Hv. cbn in Hv. lia.
Qed.

End SnapshotOversize.

(** Counterexample to C7 as worded, for every map: the map with the one key
    k bound to a value of 2^32 bytes is written without error, with a value
    length of 0, and loads back as the map that binds k to the empty
    value. *)
Lemma snapshot_roundtrip_oversize_value :
  exists d',
    writeSnapshot map_to_list empty_dir NoFault 0 oversize_map = (None, d')
    /\ loadSnapshot d' NoFault = inl {[ "k"%string := Some [] ]}
    /\ bytes_of <$> (({[ "k"%string := Some [] ]} : gmap string slice) !! "k"%string)
       <> bytes_of <$> (oversize_map !! "k"%string).
Proof.
  eexists. split; [apply writeSnapshot_ok|]. split.
  - rewrite (loadSnapshot_written map_to_list 0 {[ "k"%string := Some [] ]}).
    + rewrite map_fmap_singleton. reflexivity.
    + intros m. reflexivity.
    + split; [rewrite map_size_singleton; lia|].
      apply map_Forall_singleton. split; [cbn; lia | cbn; lia].
    + cbn [snapshot_dat]. unfold oversize_map.
      rewrite (snapshot_bytes_wrapped map_to_list 0 "k" oversize_value);
        [reflexivity | intros m; reflexivity | exact len_oversize_value].
  - unfold oversize_map. rewrite !lookup_singleton_eq.
    apply empty_value_differs.
    assert (Hpos : forall n : nat, Z.of_nat n = 2 ^ 32 -> (0 < n)%nat)
      by (intros n Hn; lia).
    apply Hpos, len_oversize_value.
Qed.

(** ** Replay of the log *)

Section ReplayFacts.
Import Bin BinFacts.

Lemma io_ReadFull_inv n r bs r' :
  io_ReadFull n r = (inl bs, r') ->
  r = bs ++ r' /\ (0 < n -> Z.of_nat (length bs) = n).
Proof.
  unfold io_ReadFull.
  destruct (Z.leb_spec n 0) as [Hn|Hn].
  - intros [= <- <-]. split; [reflexivity | lia].
  - destruct (Z.leb_spec n (Z.of_nat (length r))) as [Hle|Hgt].
    + intros [= <- <-]. split; [symmetry; apply take_drop|].
      intros _. rewrite length_take. lia.
    + destruct r; discriminate.
Qed.

Lemma io_ReadFull_le n r x r' :
  io_ReadFull n r = (x, r') -> (length r' <= length r)%nat.
Proof.
  unfold io_ReadFull.
  destruct (n <=? 0); [intros [= <- <-]; lia|].
  destruct (n <=? Z.of_nat (length r)).
  - intros [= <- <-]. rewrite length_drop. lia.
  - destruct r; intros [= <- <-]; simpl; lia.
Qed.

(** A record that decodes takes at least its 4 magic bytes off the reader. *)
Lemma DecodeEntry_shrinks r e r' :
  DecodeEntry r = (inl e, r') -> (length r' < length r)%nat.
Proof.
  unfold DecodeEntry.
  destruct (io_ReadFull 4 r) as [[magicB|?] r1] eqn:E1; [|discriminate].
  apply io_ReadFull_inv in E1 as [-> Hlen]. specialize (Hlen ltac:(lia)).
  rewrite length_app.
  destruct (negb _); [discriminate|].
  destruct (io_ReadFull 1 r1) as [[opB|?] r2] eqn:E2; [|discriminate].
  apply io_ReadFull_le in E2.
  destruct (io_ReadFull 8 r2) as [[tsB|?] r3] eqn:E3; [|discriminate].
  apply io_ReadFull_le in E3.
  destruct (io_ReadFull 4 r3) as [[klB|?] r4] eqn:E4; [|discriminate].
  apply io_ReadFull_le in E4.
  destruct (io_ReadFull (get_uint32 klB) r4) as [[key|?] r5] eqn:E5; [|discriminate].
  apply io_ReadFull_le in E5.
  destruct (io_ReadFull 4 r5) as [[vlB|?] r6] eqn:E6; [|discriminate].
  apply io_ReadFull_le in E6.
  destruct (if 0 <? get_uint32 vlB then io_ReadFull (get_uint32 vlB) r6
            else (inl [], r6)) as [[value|?] r7] eqn:E7; [|discriminate].
  assert (H7 : (length r7 <= length r6)%nat).
  { destruct (0 <? get_uint32 vlB).
    - eapply io_ReadFull_le, E7.
    - injection E7 as _ <-. lia. }
  destruct (io_ReadFull 4 r7) as [[ckB|?] r8] eqn:E8; [|discriminate].
  apply io_ReadFull_le in E8.
  destruct (negb _); [discriminate|].
  intros [= _ <-]. lia.
Qed.

(** The loop of [Replay] ends within the fuel [Replay] gives it. *)
Lemma Replay_loop_terminates {A : Type} fuel
    (callback : Entry -> A -> option error * A) r a :
  (length r < fuel)%nat -> is_Some (Replay_loop fuel callback r a).
Proof.
  revert r a. induction fuel as [|fuel IH]; intros r a Hlt; [lia|].
  cbn [Replay_loop].
  destruct (DecodeEntry r) as [[entry|err] r'] eqn:E.
  - apply DecodeEntry_shrinks in E.
    destruct (_ && _); [apply IH; lia|].
    destruct (callback entry a) as [[?|] ?]; [eexists; reflexivity|].
    apply IH. lia.
  - repeat match goal with |- context [if ?b then _ else _] => destruct b end;
      eexists; reflexivity.
Qed.

(** So [Replay] never takes the out-of-fuel branch of its model. *)
Lemma Replay_fuel_enough {A : Type}
    (callback : Entry -> A -> option error * A) r a :
  is_Some (Replay_loop (S (length r)) callback r a).
Proof. apply Replay_loop_terminates. lia. Qed.

(** What one replayed record does to the map. *)
Lemma replay_callback_op now o m :
  replay_callback (with_value (op_entry now o)
                     (loaded (Value (op_entry now o)))) m
  = (None, apply_op m (match o with
                       | DoSet key value => DoSet key (loaded value)
                       | DoDelete key => DoDelete key
                       end)).
Proof. destruct o; reflexivity. Qed.

(** The end of a log of whole records reads as a failed read of the magic,
    which stops the loop without error. *)
Lemma Replay_loop_end {A : Type} fuel
    (callback : Entry -> A -> option error * A) a :
  Replay_loop (S fuel) callback [] a = Some (None, a).
Proof. reflexivity. Qed.

Lemma Encode_length e : (4 <= length (Encode e))%nat.
Proof.
  unfold Encode. rewrite length_app. unfold put_uint32.
  rewrite be_put_length. lia.
Qed.

(** Replaying the log of a session applies its calls in order. *)
Lemma Replay_loop_session ops fuel m :
  Forall (fun o => wf_entry (op_entry o.1 o.2)) ops ->
  (length (log_of ops) < fuel)%nat ->
  Replay_loop fuel replay_callback (log_of ops) m
  = Some (None, apply_ops m (map loaded_op ops)).
Proof.
  revert fuel m. induction ops as [|[now o] ops IH]; intros fuel m Hwf Hfuel.
  - destruct fuel; [simpl in Hfuel; lia | reflexivity].
  - apply Forall_cons in Hwf as [Hwf Hops]. cbn [fst snd] in Hwf.
    unfold log_of in *. cbn [map concat fst snd] in *.
    rewrite length_app in Hfuel. pose proof (Encode_length (op_entry now o)).
    destruct fuel as [|fuel]; [lia|].
    cbn [Replay_loop]. rewrite (DecodeEntry_Encode _ _ Hwf).
    replace (negb _ && negb _) with false by (destruct o; reflexivity).
    fold (loaded (Value (op_entry now o))).
    rewrite replay_callback_op.
    rewrite IH by (assumption || lia).
    destruct o; reflexivity.
Qed.

(** Successful calls on a store whose log handle is open: the map takes the
    calls, the log their records. *)
Lemma run_ops_log s d ops :
  closed (file (wal s)) = false ->
  run_ops s d ops =
    (None, with_data s (apply_ops (data s) ops),
     match ops with
     | [] => d
     | _ => set_wal_log d (Some (default [] (wal_log d) ++ log_of ops))
     end).
Proof.
  intros Hopen. revert s d Hopen.
  induction ops as [|[now o] ops IH]; intros s d Hopen.
  - destruct s; reflexivity.
  - cbn [run_ops].
    assert (Hstep : run_op s d NoFault now o =
                    (None, with_data s (apply_op (data s) o),
                     set_wal_log d (Some (default [] (wal_log d)
                                          ++ Encode (op_entry now o))))).
    { destruct o; cbn [run_op op_entry apply_op];
        unfold Set_, Delete, Append, file_Write, file_Sync;
        rewrite Hopen; destruct (syncMode (wal s)); reflexivity. }
    rewrite Hstep. rewrite IH by exact Hopen.
    f_equal. destruct ops as [|o' ops].
    + unfold log_of. cbn [map concat fst snd]. rewrite app_nil_r. reflexivity.
    + unfold set_wal_log, log_of. cbn [wal_log snapshot_dat snapshot_dat_tmp
        default map concat fst snd from_option id].
      rewrite <- app_assoc. reflexivity.
Qed.

(** Recovery after a crash: a session on a fresh directory that ends
    without [Close], then an open, which finds every call's effect. *)
Lemma crash_recovery cfg ops k :
  Forall (fun o => wf_entry (op_entry o.1 o.2)) ops ->
  exists s d s2,
    OpenWithConfig empty_dir NoFault cfg = (inl s, d)
    /\ run_ops s d ops = (None, with_data s (apply_ops ∅ ops),
                          set_wal_log d (Some (log_of ops)))
    /\ OpenWithConfig (set_wal_log d (Some (log_of ops))) NoFault cfg
       = (inl s2, set_wal_log d (Some (log_of ops)))
    /\ bytes_of <$> (data s2 !! k) = bytes_of <$> (apply_ops ∅ ops !! k).
Proof.
  intros Hwf. do 3 eexists. split; [reflexivity|]. split.
  - rewrite run_ops_log by reflexivity. destruct ops; reflexivity.
  - unfold OpenWithConfig, NewWAL, Replay, file_Seek.
    cbn [closed file set_wal_log wal_log default snapshot_dat snapshot_dat_tmp
         from_option id].
    rewrite Replay_loop_session by (assumption || lia).
    split; [reflexivity|]. cbn [data].
    generalize (∅ : gmap string slice) as m. clear Hwf.
    induction ops as [|[now o] ops IH] using rev_ind; intros m; [reflexivity|].
    unfold apply_ops in *. rewrite map_app, !fold_left_app. cbn [map fold_left].
    destruct o as [key value|key]; unfold loaded_op; cbn [fst snd apply_op].
    + destruct (decide (key = k)) as [->|Hne].
      * rewrite !lookup_insert_eq. reflexivity.
      * rewrite !lookup_insert_ne by exact Hne. apply IH.
    + destruct (decide (key = k)) as [->|Hne].
      * rewrite !lookup_delete_eq. reflexivity.
      * rewrite !lookup_delete_ne by exact Hne. apply IH.
Qed.

End ReplayFacts.

(** ** What the checksum detects *)

Section Detection.
Import Bin BinFacts.

Lemma testbit_above c n k :
  0 <= c < 2 ^ n -> n <= k -> Z.testbit c k = false.
Proof.
  intros Hc Hk.
  destruct (Z.lt_ge_cases n 0) as [Hneg|Hpos];
    [rewrite Z.pow_neg_r in Hc by exact Hneg; lia|].
  rewrite <- (Z.mod_small c (2 ^ n)) by exact Hc.
  apply Z.mod_pow2_bits_high. lia.
Qed.

Lemma lxor_cancel_r a b p : Z.lxor a p = Z.lxor b p -> a = b.
Proof.
  intros H. apply (f_equal (fun x => Z.lxor x p)) in H.
  rewrite !Z.lxor_assoc, Z.lxor_nilpotent, !Z.lxor_0_r in H. exact H.
Qed.

Lemma lxor_cancel_l a b p : Z.lxor p a = Z.lxor p b -> a = b.
Proof. rewrite !(Z.lxor_comm p). apply lxor_cancel_r. Qed.

(** Bit 31 of the next state is bit 0 of the current one. *)
Lemma crc_step_top c :
  0 <= c < 2 ^ 32 -> Z.testbit (CRC32.step c) 31 = Z.testbit c 0.
Proof.
  intros Hc. unfold CRC32.step.
  assert (Hs : Z.testbit (Z.shiftr c 1) 31 = false).
  { rewrite Z.shiftr_spec by lia. apply (testbit_above c 32); lia. }
  destruct (Z.testbit c 0).
  - rewrite Z.lxor_spec, Hs. reflexivity.
  - exact Hs.
Qed.

Lemma crc_step_inj c c' :
  0 <= c < 2 ^ 32 -> 0 <= c' < 2 ^ 32 ->
  CRC32.step c = CRC32.step c' -> c = c'.
Proof.
  intros Hc Hc' H.
  assert (H0 : Z.testbit c 0 = Z.testbit c' 0)
    by (rewrite <- !crc_step_top by assumption; rewrite H; reflexivity).
  assert (Hs : Z.shiftr c 1 = Z.shiftr c' 1).
  { unfold CRC32.step in H. rewrite <- H0 in H.
    destruct (Z.testbit c 0); [eapply lxor_cancel_r|]; exact H. }
  apply Z.bits_inj'. intros n Hn.
  destruct (Z.eq_dec n 0) as [->|Hne]; [exact H0|].
  replace n with (n - 1 + 1) by lia.
  rewrite <- !Z.shiftr_spec by lia. rewrite Hs. reflexivity.
Qed.

Lemma crc_iter_range n x :
  0 <= x < 2 ^ 32 -> 0 <= Nat.iter n CRC32.step x < 2 ^ 32.
Proof.
  intros Hx. induction n as [|n IH]; [exact Hx|].
  cbn [Nat.iter nat_rect]. apply crc_step_range, IH.
Qed.

Lemma crc_iter_inj n x y :
  0 <= x < 2 ^ 32 -> 0 <= y < 2 ^ 32 ->
  Nat.iter n CRC32.step x = Nat.iter n CRC32.step y -> x = y.
Proof.
  intros Hx Hy. induction n as [|n IH]; [auto|].
  cbn [Nat.iter nat_rect]. intros H. apply IH.
  apply crc_step_inj in H; [exact H | apply crc_iter_range ..]; assumption.
Qed.

Lemma Z_of_byte_inj b b' : Z_of_byte b = Z_of_byte b' -> b = b'.
Proof.
  intros H. rewrite <- (byte_of_Z_of_byte b), <- (byte_of_Z_of_byte b'), H.
  reflexivity.
Qed.

Lemma lxor_byte_range c b : 0 <= c < 2 ^ 32 -> 0 <= Z.lxor c (Z_of_byte b) < 2 ^ 32.
Proof.
  intros Hc. pose proof (Z_of_byte_range b). apply lxor_lt_pow2; lia.
Qed.

Lemma crc_update_byte_inj_state b c c' :
  0 <= c < 2 ^ 32 -> 0 <= c' < 2 ^ 32 ->
  CRC32.update_byte c b = CRC32.update_byte c' b -> c = c'.
Proof.
  intros Hc Hc' H. unfold CRC32.update_byte in H.
  apply crc_iter_inj in H; [|apply lxor_byte_range; assumption ..].
  eapply lxor_cancel_r, H.
Qed.

Lemma crc_update_byte_inj_byte c b b' :
  0 <= c < 2 ^ 32 ->
  CRC32.update_byte c b = CRC32.update_byte c b' -> b = b'.
Proof.
  intros Hc H. unfold CRC32.update_byte in H.
  apply crc_iter_inj in H; [|apply lxor_byte_range; assumption ..].
  apply Z_of_byte_inj. eapply lxor_cancel_l, H.
Qed.

Lemma crc_update_inj_state p c c' :
  0 <= c < 2 ^ 32 -> 0 <= c' < 2 ^ 32 ->
  CRC32.update c p = CRC32.update c' p -> c = c'.
Proof.
  revert c c'. unfold CRC32.update.
  induction p as [|b p IH]; intros c c' Hc Hc' H; [exact H|].
  cbn [fold_left] in H.
  apply IH in H; [|apply crc_update_byte_range; assumption ..].
  eapply crc_update_byte_inj_state; eassumption.
Qed.

(** The checksum changes whenever one byte of the data is replaced by a
    different one: every single-bit flip is detected. *)
Lemma ChecksumIEEE_detects_byte l j b b' :
  l !! j = Some b -> b' <> b ->
  CRC32.ChecksumIEEE (<[j := b']> l) <> CRC32.ChecksumIEEE l.
Proof.
  intros Hj Hne H.
  assert (Hlt : (j < length l)%nat) by (eapply lookup_lt_Some, Hj).
  rewrite insert_take_drop in H by exact Hlt.
  rewrite <- (take_drop_middle l j b Hj) in H at 3.
  unfold CRC32.ChecksumIEEE in H. apply lxor_cancel_r in H.
  unfold CRC32.update in H. rewrite !fold_left_app in H. cbn [fold_left] in H.
  fold (CRC32.update 0xFFFFFFFF (take j l)) in H.
  assert (Hr : 0 <= CRC32.update 0xFFFFFFFF (take j l) < 2 ^ 32)
    by (apply crc_update_range; lia).
  apply (crc_update_inj_state (drop (S j) l)) in H;
    [|apply crc_update_byte_range; exact Hr ..].
  apply crc_update_byte_inj_byte in H; [|exact Hr].
  contradiction.
Qed.

End Detection.

(** ** A record with one byte replaced *)

Section Replaced.
Import Bin BinFacts.

Lemma put_uint32_length z : length (put_uint32 z) = 4%nat.
Proof. apply be_put_length. Qed.

Lemma put_int64_length z : length (put_int64 z) = 8%nat.
Proof. apply be_put_length. Qed.

(** Replacing a byte of the layout outside the magic and the length fields
    gives the layout of another record with the same lengths. *)
Lemma frame_insert op ts kb vb j b' :
  (j < length (frame op ts kb vb))%nat ->
  (4 <= j)%nat ->
  ~ (13 <= j < 17)%nat ->
  ~ (17 + length kb <= j < 21 + length kb)%nat ->
  exists op' ts' kb' vb',
    <[j := b']> (frame op ts kb vb) = frame op' ts' kb' vb'
    /\ length kb' = length kb /\ length vb' = length vb.
Proof.
  intros Hlt H4 H13 H17. unfold frame in *.
  rewrite !length_app, !put_uint32_length, put_int64_length in Hlt.
  cbn [length] in Hlt.
  rewrite insert_app_r_alt by (rewrite put_uint32_length; lia).
  rewrite put_uint32_length.
  destruct (decide (j = 4)%nat) as [->|Hj4].
  { exists b', ts, kb, vb. split; [reflexivity | auto]. }
  rewrite (insert_app_r_alt [op]) by (cbn [length]; lia). cbn [length].
  destruct (decide (j < 13)%nat) as [Hj13|Hj13].
  { exists op, (get_int64 (<[(j - 4 - 1)%nat := b']> (put_int64 ts))), kb, vb.
    split; [|auto].
    rewrite insert_app_l by (rewrite put_int64_length; lia).
    rewrite put_get_int64 by (rewrite length_insert; apply put_int64_length).
    reflexivity. }
  rewrite insert_app_r_alt by (rewrite put_int64_length; lia).
  rewrite put_int64_length.
  rewrite insert_app_r_alt by (rewrite put_uint32_length; lia).
  rewrite put_uint32_length.
  destruct (decide (j < 17 + length kb)%nat) as [Hjk|Hjk].
  { exists op, ts, (<[(j - 4 - 1 - 8 - 4)%nat := b']> kb), vb.
    rewrite length_insert. split; [|auto].
    rewrite insert_app_l by lia. reflexivity. }
  rewrite insert_app_r_alt by lia.
  rewrite insert_app_r_alt by (rewrite put_uint32_length; lia).
  rewrite put_uint32_length.
  exists op, ts, kb, (<[(j - 4 - 1 - 8 - 4 - length kb - 4)%nat := b']> vb).
  rewrite length_insert. split; [reflexivity | auto].
Qed.

Lemma frame_length op ts kb vb :
  length (frame op ts kb vb) = (21 + length kb + length vb)%nat.
Proof.
  unfold frame. rewrite !length_app, !put_uint32_length, put_int64_length.
  cbn [length]. lia.
Qed.

(** Decoding a record one of whose bytes, outside the magic and the length
    fields, was replaced by a different byte: a checksum mismatch. *)
Lemma DecodeEntry_byte_replaced e j b b' rest :
  wf_entry e ->
  Encode e !! j = Some b ->
  b' <> b ->
  framing_byte e j = false ->
  exists msg,
    DecodeEntry (<[j := b']> (Encode e) ++ rest) = (inr (errorString msg), rest)
    /\ strings_Contains msg "checksum mismatch" = true.
Proof.
  intros Hwf Hj Hne Hframing. unfold Encode in *.
  rewrite (Encode_data_frame e Hwf) in *.
  destruct Hwf as (Ht & Hk & Hv). unfold len in Hv.
  unfold framing_byte in Hframing.
  rewrite <- length_list_byte_of_string in Hframing, Hk.
  set (kb := list_byte_of_string (Key e)) in *.
  set (vb := bytes_of (Value e)) in *.
  set (F := frame (Operation e) (Timestamp e) kb vb) in *.
  apply orb_false_iff in Hframing as [Hframing H17].
  apply orb_false_iff in Hframing as [H4 H13].
  apply Nat.ltb_ge in H4.
  assert (H13' : ~ (13 <= j < 17)%nat).
  { intros [? ?]. apply andb_false_iff in H13 as [Hc|Hc];
      [apply Nat.leb_gt in Hc | apply Nat.ltb_ge in Hc]; lia. }
  assert (H17' : ~ (17 + length kb <= j < 21 + length kb)%nat).
  { intros [? ?]. apply andb_false_iff in H17 as [Hc|Hc];
      [apply Nat.leb_gt in Hc | apply Nat.ltb_ge in Hc]; lia. }
  destruct (decide (j < length F)%nat) as [Hin|Hout].
  - rewrite lookup_app_l in Hj by exact Hin.
    rewrite insert_app_l by exact Hin.
    destruct (frame_insert (Operation e) (Timestamp e) kb vb j b' Hin H4 H13' H17')
      as (op' & ts' & kb' & vb' & HF & Hkl & Hvl).
    pose proof (ChecksumIEEE_detects_byte F j b b' Hj Hne) as Hcrc.
    fold F in HF. rewrite HF in *. rewrite <- app_assoc.
    rewrite DecodeEntry_frame; [ | lia | lia | apply ChecksumIEEE_range ].
    destruct (Z.eqb_spec (CRC32.ChecksumIEEE (frame op' ts' kb' vb'))
                (CRC32.ChecksumIEEE F)) as [E|_]; [contradiction|].
    eexists. split; reflexivity.
  - rewrite lookup_app_r in Hj by lia.
    rewrite insert_app_r_alt by lia. rewrite <- app_assoc.
    set (T := put_uint32 (CRC32.ChecksumIEEE F)) in *.
    set (T' := <[(j - length F)%nat := b']> T).
    assert (HT : length T' = 4%nat)
      by (subst T' T; rewrite length_insert; apply put_uint32_length).
    rewrite <- (put_get_uint32 T' HT). unfold F at 1.
    rewrite DecodeEntry_frame;
      [ | lia | lia
        | pose proof (be_get_range T') as Hr; rewrite HT in Hr; exact Hr ].
    fold F.
    destruct (Z.eqb_spec (CRC32.ChecksumIEEE F) (get_uint32 T')) as [E|_].
    + exfalso. assert (HTT : T' = T).
      { rewrite <- (put_get_uint32 T' HT), <- E. reflexivity. }
      assert (Hlk : T' !! (j - length F)%nat = Some b').
      { subst T'. apply list_lookup_insert_eq. eapply lookup_lt_Some, Hj. }
      rewrite HTT, Hj in Hlk. congruence.
    + eexists. split; reflexivity.
Qed.

Lemma flip_bit_replaces i bs b :
  bs !! (i / 8)%nat = Some b ->
  exists b', flip_bit i bs = <[(i / 8)%nat := b']> bs /\ b' <> b.
Proof.
  intros Hb. unfold flip_bit. rewrite Hb. eexists. split; [reflexivity|].
  intros E. apply (f_equal Z_of_byte) in E. rewrite Z_of_byte_of_Z in E.
  pose proof (Z_of_byte_range b) as Hr.
  set (k := 7 - Z.of_nat (i mod 8)) in *.
  assert (Hk : 0 <= k < 8).
  { pose proof (Nat.mod_upper_bound i 8 ltac:(lia)). lia. }
  assert (Hm : 0 < Z.shiftl 1 k < 2 ^ 8).
  { rewrite Z.shiftl_1_l. split; [apply Z.pow_pos_nonneg; lia|].
    apply Z.pow_lt_mono_r; lia. }
  pose proof (lxor_lt_pow2 (Z_of_byte b) (Z.shiftl 1 k) 8 ltac:(lia)
                ltac:(change (2 ^ 8) with 256; lia) ltac:(lia)) as Hx.
  change (2 ^ 8) with 256 in Hx. rewrite Z.mod_small in E by exact Hx.
  rewrite <- (Z.lxor_0_r (Z_of_byte b)) in E at 2.
  apply lxor_cancel_l in E. lia.
Qed.

Lemma Replay_loop_decode_error {A : Type} fuel
    (callback : Entry -> A -> option error * A) r err r' a :
  DecodeEntry r = (inr err, r') ->
  Replay_loop (S fuel) callback r a = Some (replay_verdict err, a).
Proof.
  intros H. cbn [Replay_loop]. rewrite H. unfold replay_verdict.
  repeat match goal with |- context [if ?b then _ else _] => destruct b end;
    reflexivity.
Qed.

(** Replaying a session's log followed by bytes that do not decode: the
    session is applied, then the loop stops with the verdict on the error. *)
Lemma Replay_loop_session_then ops tl err r fuel m :
  Forall (fun o => wf_entry (op_entry o.1 o.2)) ops ->
  DecodeEntry tl = (inr err, r) ->
  (length (log_of ops ++ tl) < fuel)%nat ->
  Replay_loop fuel replay_callback (log_of ops ++ tl) m
  = Some (replay_verdict err, apply_ops m (map loaded_op ops)).
Proof.
  intros Hwf Htl. revert fuel m.
  induction Hwf as [|[now o] ops Hwf Hops IH]; intros fuel m Hfuel.
  - destruct fuel; [simpl in Hfuel; lia|].
    unfold log_of. cbn [map concat app].
    apply (Replay_loop_decode_error _ _ _ _ _ _ Htl).
  - cbn [fst snd] in Hwf.
    unfold log_of in *. cbn [map concat fst snd] in *.
    rewrite <- app_assoc in *.
    rewrite length_app in Hfuel. pose proof (Encode_length (op_entry now o)).
    destruct fuel as [|fuel]; [lia|].
    cbn [Replay_loop]. rewrite (DecodeEntry_Encode _ _ Hwf).
    replace (negb _ && negb _) with false by (destruct o; reflexivity).
    fold (loaded (Value (op_entry now o))).
    rewrite replay_callback_op.
    rewrite IH by lia.
    destruct o; reflexivity.
Qed.

Lemma Open_session_then ops tl err r cfg :
  Forall (fun o => wf_entry (op_entry o.1 o.2)) ops ->
  DecodeEntry tl = (inr err, r) ->
  (OpenWithConfig (dir_with_wal (log_of ops ++ tl)) NoFault cfg).1
  = match replay_verdict err with
    | Some err' => inr (Errorf_w "failed to replay WAL: " err')
    | None =>
        inl {| data := apply_ops ∅ (map loaded_op ops);
               wal := {| file := {| closed := false |}; dataDir := DataDir cfg;
                         syncMode := SyncWrites cfg |};
               config := cfg |}
    end.
Proof.
  intros Hops Hdec.
  unfold OpenWithConfig, NewWAL, Replay, file_Seek, dir_with_wal.
  cbn [closed file set_wal_log wal_log default snapshot_dat snapshot_dat_tmp
       from_option id].
  rewrite (Replay_loop_session_then ops tl err r _ _ Hops Hdec) by lia.
  destruct (replay_verdict err); reflexivity.
Qed.

(** Corrupt-tail safety as far as the code has it: a log of whole records
    whose final record has one bit flipped outside its magic and its two
    length fields opens without error, with every earlier record applied. *)
Lemma Open_flipped_tail ops e i cfg :
  Forall (fun o => wf_entry (op_entry o.1 o.2)) ops ->
  wf_entry e ->
  (i / 8 < length (Encode e))%nat ->
  framing_byte e (i / 8) = false ->
  (OpenWithConfig (dir_with_wal (log_of ops ++ flip_bit i (Encode e))) NoFault cfg).1
  = inl {| data := apply_ops ∅ (map loaded_op ops);
           wal := {| file := {| closed := false |}; dataDir := DataDir cfg;
                     syncMode := SyncWrites cfg |};
           config := cfg |}.
Proof.
  intros Hops Hwf Hi Hframing.
  destruct (lookup_lt_is_Some_2 _ _ Hi) as [b Hb].
  destruct (flip_bit_replaces i (Encode e) b Hb) as (b' & -> & Hne).
  destruct (DecodeEntry_byte_replaced e (i / 8) b b' [] Hwf Hb Hne Hframing)
    as (msg & Hdec & Hmsg).
  rewrite app_nil_r in Hdec.
  rewrite (Open_session_then ops _ _ _ cfg Hops Hdec).
  unfold replay_verdict. cbn [is_io_EOF Error]. rewrite Hmsg. reflexivity.
Qed.

Lemma DecodeEntry_bad_magic M tl :
  length M = 4%nat ->
  get_uint32 M <> EntryMagic ->
  DecodeEntry (M ++ tl)
  = (inr (errorString ("invalid magic: expected 0x" ++ fmt_X EntryMagic
                       ++ ", got 0x" ++ fmt_X (get_uint32 M))), tl).
Proof.
  intros HM Hne. unfold DecodeEntry.
  rewrite (io_ReadFull_app 4 M tl) by (rewrite HM; reflexivity).
  cbv beta iota zeta.
  destruct (Z.eqb_spec (get_uint32 M) EntryMagic) as [E|_]; [contradiction|].
  reflexivity.
Qed.

Lemma flip_bit_app i l1 l2 :
  (i / 8 < length l1)%nat -> flip_bit i (l1 ++ l2) = flip_bit i l1 ++ l2.
Proof.
  intros Hi. unfold flip_bit. rewrite lookup_app_l by exact Hi.
  destruct (lookup_lt_is_Some_2 _ _ Hi) as [b ->].
  apply insert_app_l. exact Hi.
Qed.

(** The other side: with any of the 32 bits of the final record's magic
    flipped, the loop meets an invalid-magic error, which it does not take
    for a corrupt tail, and open fails, whatever the records are. *)
Lemma Open_flipped_magic ops e i cfg :
  Forall (fun o => wf_entry (op_entry o.1 o.2)) ops ->
  (i < 32)%nat ->
  exists err,
    (OpenWithConfig (dir_with_wal (log_of ops ++ flip_bit i (Encode e))) NoFault cfg).1
    = inr err.
Proof.
  intros Hops Hi.
  assert (Hdec : exists M,
             flip_bit i (Encode e) = M ++ drop 4 (Encode e)
             /\ length M = 4%nat
             /\ get_uint32 M <> EntryMagic
             /\ replay_verdict
                  (errorString ("invalid magic: expected 0x" ++ fmt_X EntryMagic
                                ++ ", got 0x" ++ fmt_X (get_uint32 M)))
                <> None).
  { unfold Encode, Encode_data. rewrite <- !app_assoc.
    set (tl := _ ++ _ ++ _ ++ _ ++ _ ++ _ ++ _).
    exists (flip_bit i (put_uint32 EntryMagic)).
    change (drop 4 (put_uint32 EntryMagic ++ tl)) with tl.
    split; [apply flip_bit_app; rewrite put_uint32_length;
            apply Nat.Div0.div_lt_upper_bound; lia|].
    clear tl. do 32 (destruct i as [|i]; [vm_compute; repeat split; discriminate|]).
    lia. }
  destruct Hdec as (M & -> & HM & Hne & Hverdict).
  rewrite (Open_session_then ops _ _ _ cfg Hops (DecodeEntry_bad_magic M _ HM Hne)).
  destruct (replay_verdict _) as [err'|]; [|contradiction].
  eexists. reflexivity.
Qed.

End Replaced.

(** * Further properties of the code *)

(** ** Replay over whole records *)

Section ReplayEntries.
Import Bin BinFacts.

Lemma Replay_loop_entries {A : Type} (callback : Entry -> A -> option error * A)
    es tl err r fuel a :
  Forall wf_entry es ->
  DecodeEntry tl = (inr err, r) ->
  (length (encode_all es ++ tl) < fuel)%nat ->
  Replay_loop fuel callback (encode_all es ++ tl) a
  = Some (match replay_entries callback es a with
          | (Some e, a') => (Some e, a')
          | (None, a') => (replay_verdict err, a')
          end).
Proof.
  intros Hwf Htl. revert fuel a.
  induction Hwf as [|e es Hwf Hes IH]; intros fuel a Hfuel.
  - destruct fuel; [simpl in Hfuel; lia|].
    unfold encode_all. cbn [map concat app replay_entries].
    apply (Replay_loop_decode_error _ _ _ _ _ _ Htl).
  - unfold encode_all in *. cbn [map concat] in *.
    rewrite <- app_assoc in *.
    rewrite length_app in Hfuel. pose proof (Encode_length e).
    destruct fuel as [|fuel]; [lia|].
    cbn [Replay_loop replay_entries]. rewrite (DecodeEntry_Encode _ _ Hwf).
    fold (loaded (Value e)). fold (decoded e).
    assert (Hop : Operation (decoded e) = Operation e) by reflexivity.
    rewrite Hop.
    destruct (negb _ && negb _); [apply IH; lia|].
    destruct (callback (decoded e) a) as [[err'|] a']; [reflexivity|].
    apply IH. lia.
Qed.

Lemma DecodeEntry_end :
  DecodeEntry [] = (inr (Errorf_w "failed to read magic: " io_EOF), []).
Proof. reflexivity. Qed.

Lemma Replay_entries_then {A : Type}
    (callback : Entry -> A -> option error * A) w d es tl err r a :
  closed (file w) = false ->
  wal_log d = Some (encode_all es ++ tl) ->
  Forall wf_entry es ->
  DecodeEntry tl = (inr err, r) ->
  Replay w d NoFault callback a
  = match replay_entries callback es a with
    | (Some e, a') => (Some e, a')
    | (None, a') => (replay_verdict err, a')
    end.
Proof.
  intros Hopen Hlog Hwf Htl. unfold Replay, file_Seek.
  rewrite Hopen, Hlog. cbn [default from_option id].
  rewrite (Replay_loop_entries callback es tl err r _ a Hwf Htl) by lia.
  destruct (replay_entries callback es a) as [[e|] a']; [reflexivity|].
  destruct (replay_verdict err); reflexivity.
Qed.

Lemma Replay_entries_whole {A : Type}
    (callback : Entry -> A -> option error * A) w d es a :
  closed (file w) = false ->
  wal_log d = Some (encode_all es) ->
  Forall wf_entry es ->
  Replay w d NoFault callback a = replay_entries callback es a.
Proof.
  intros Hopen Hlog Hwf.
  rewrite (Replay_entries_then callback w d es [] _ [] a Hopen
             ltac:(rewrite app_nil_r; exact Hlog) Hwf DecodeEntry_end).
  destruct (replay_entries callback es a) as [[e|] a']; reflexivity.
Qed.

Lemma replay_entries_callback es m :
  replay_entries replay_callback es m = (None, fold_left apply_entry es m).
Proof.
  revert m. induction es as [|e es IH]; intros m; [reflexivity|].
  cbn [replay_entries fold_left]. unfold apply_entry at 2.
  unfold replay_callback, decoded. cbn [Operation Key Value with_value].
  destruct (Byte.eqb (Operation e) OpSet); cbn [negb andb]; [apply IH|].
  destruct (Byte.eqb (Operation e) OpDelete); cbn [negb andb]; apply IH.
Qed.

Lemma Open_entries_then es tl err r cfg :
  Forall wf_entry es ->
  DecodeEntry tl = (inr err, r) ->
  (OpenWithConfig (dir_with_wal (encode_all es ++ tl)) NoFault cfg).1
  = match replay_verdict err with
    | Some err' => inr (Errorf_w "failed to replay WAL: " err')
    | None => inl (opened (fold_left apply_entry es ∅) cfg)
    end.
Proof.
  intros Hwf Htl. unfold OpenWithConfig, NewWAL, dir_with_wal.
  cbn [set_wal_log wal_log default from_option id snapshot_dat snapshot_dat_tmp].
  erewrite Replay_entries_then; [ | reflexivity | reflexivity | exact Hwf | exact Htl ].
  rewrite replay_entries_callback.
  destruct (replay_verdict err); reflexivity.
Qed.

End ReplayEntries.

(** X1. [Replay] on an open log that holds whole records: the callback is
    handed each Set or Delete record, decoded, in file order; records with
    another operation code are passed over; the first error of the callback
    ends the replay and is returned wrapped; at the end of the log the
    replay returns no error. *)
Theorem Replay_whole_records {A : Type}
    (callback : Entry -> A -> option error * A)
    (w : WAL) (d : Dir) (es : list Entry) (a : A) :
  closed (file w) = false ->
  wal_log d = Some (encode_all es) ->
  Forall wf_entry es ->
  Replay w d NoFault callback a = replay_entries callback es a.
Proof. apply Replay_entries_whole. Qed.

Lemma Replay_whole_records_witness :
  Replay (wal_open "wal-test" true)
    (dir_with_wal (encode_all [NewSetEntry 1 "key1" value1;
                               mkEntry x03 2 "key2" value2;
                               NewDeleteEntry 3 "key3"]))
    NoFault collect []
  = replay_entries collect [NewSetEntry 1 "key1" value1;
                            mkEntry x03 2 "key2" value2;
                            NewDeleteEntry 3 "key3"] [].
Proof.
  apply (Replay_whole_records collect (wal_open "wal-test" true)
           (dir_with_wal (encode_all [NewSetEntry 1 "key1" value1;
                                      mkEntry x03 2 "key2" value2;
                                      NewDeleteEntry 3 "key3"]))).
  - reflexivity.
  - reflexivity.
  - repeat constructor; wf_compute.
Defined.

(** ** Recovery by the store *)

Lemma Open_dir_NoFault d cfg :
  (OpenWithConfig d NoFault cfg).2 = set_wal_log d (Some (default [] (wal_log d))).
Proof.
  unfold OpenWithConfig, NewWAL.
  destruct (Replay _ _ _ _ _) as [[err|] m]; [|reflexivity].
  destruct (WAL_Close _ _); reflexivity.
Qed.

(** X2. Opening a store over a log of whole records recovers the map they
    describe, in file order: a Set inserts or overwrites its key, a Delete
    removes its key (an absent key is no error), a record with any other
    operation code changes nothing; the log is left as it was. *)
Theorem Open_replays_records (es : list Entry) (cfg : Config) :
  Forall wf_entry es ->
  OpenWithConfig (dir_with_wal (encode_all es)) NoFault cfg
  = (inl (opened (fold_left apply_entry es ∅) cfg), dir_with_wal (encode_all es)).
Proof.
  intros Hwf.
  rewrite (surjective_pairing (OpenWithConfig _ _ _)), Open_dir_NoFault.
  rewrite <- (app_nil_r (encode_all es)) at 1.
  rewrite (Open_entries_then es [] _ [] cfg Hwf DecodeEntry_end).
  reflexivity.
Qed.

Lemma Open_replays_records_witness :
  OpenWithConfig
    (dir_with_wal (encode_all [NewSetEntry 1 "key1" value1;
                               mkEntry x03 2 "key1" value2;
                               NewDeleteEntry 3 "key3"]))
    NoFault cfg0
  = (inl (opened (fold_left apply_entry
                    [NewSetEntry 1 "key1" value1;
                     mkEntry x03 2 "key1" value2;
                     NewDeleteEntry 3 "key3"] ∅) cfg0),
     dir_with_wal (encode_all [NewSetEntry 1 "key1" value1;
                               mkEntry x03 2 "key1" value2;
                               NewDeleteEntry 3 "key3"])).
Proof.
  apply (Open_replays_records [NewSetEntry 1 "key1" value1;
                               mkEntry x03 2 "key1" value2;
                               NewDeleteEntry 3 "key3"] cfg0).
  repeat constructor; wf_compute.
Defined.

(** X3. [OpenWithConfig] never changes what the directory holds, whether it
    succeeds or fails and whatever failure is injected: the bytes of
    [wal.log] stay as they are (a missing log is at most created empty, a
    corrupt tail is not cut off), and the snapshot files are not touched. *)
Theorem Open_preserves_directory (d : Dir) (flt : Fault) (cfg : Config) :
  default [] (wal_log (OpenWithConfig d flt cfg).2) = default [] (wal_log d)
  /\ snapshot_dat (OpenWithConfig d flt cfg).2 = snapshot_dat d
  /\ snapshot_dat_tmp (OpenWithConfig d flt cfg).2 = snapshot_dat_tmp d.
Proof.
  unfold OpenWithConfig, NewWAL.
  destruct flt; cbv beta iota; try (repeat split; reflexivity);
    (destruct (Replay _ _ _ _ _) as [[err|] m];
     [destruct (WAL_Close _ _)|]; repeat split; reflexivity).
Qed.

(** ** Torn records *)

Section Torn.
Import Bin BinFacts.

Lemma io_ReadFull_take_ok k bs rest m :
  Z.of_nat (length bs) = k ->
  (length bs <= m)%nat ->
  io_ReadFull k (take m (bs ++ rest)) = (inl bs, take (m - length bs) rest).
Proof.
  intros Hk Hle. rewrite take_app_ge by exact Hle.
  apply io_ReadFull_app. exact Hk.
Qed.

Lemma io_ReadFull_take_short k bs rest m :
  Z.of_nat (length bs) = k ->
  (m < length bs)%nat ->
  exists err,
    io_ReadFull k (take m (bs ++ rest)) = (inr err, [])
    /\ (err = io_EOF \/ err = io_ErrUnexpectedEOF).
Proof.
  intros Hk Hlt. rewrite take_app_le by lia.
  assert (Hlen : length (take m bs) = m) by (rewrite length_take; lia).
  unfold io_ReadFull.
  destruct (Z.leb_spec k 0); [lia|].
  destruct (Z.leb_spec k (Z.of_nat (length (take m bs)))); [lia|].
  destruct (take m bs); eexists; split; eauto.
Qed.

Lemma prefix_app p s t :
  String.prefix p s = true -> String.prefix p (s ++ t) = true.
Proof.
  revert s. induction p as [|a p IH]; intros s.
  { intros _. destruct s; cbn; [destruct t|]; reflexivity. }
  destruct s as [|b s]; [discriminate|].
  change (String b s ++ t)%string with (String b (s ++ t)).
  cbn [String.prefix]. destruct (ascii_dec a b); [apply IH | discriminate].
Qed.

Lemma strings_Contains_prefix s p :
  String.prefix p s = true -> strings_Contains s p = true.
Proof. intros H. destruct s; cbn [strings_Contains]; rewrite H; reflexivity. Qed.

(** A failed read of a field is a clean stop for the replay loop. *)
Lemma replay_verdict_failed_read (field : string) err :
  String.prefix "failed to read" field = true ->
  replay_verdict (Errorf_w field err) = None
  /\ strings_Contains (Error (Errorf_w field err)) "failed to read" = true.
Proof.
  intros Hfield. unfold replay_verdict, Errorf_w. cbn [is_io_EOF Error].
  rewrite (strings_Contains_prefix _ _ (prefix_app _ _ (Error err) Hfield)).
  split; [|reflexivity].
  destruct (strings_Contains _ "checksum mismatch"); reflexivity.
Qed.

(** A proper prefix of an encoded record does not decode: some field cannot
    be read in full. *)
Lemma DecodeEntry_torn e n :
  wf_entry e ->
  (n < length (Encode e))%nat ->
  exists err r,
    DecodeEntry (take n (Encode e)) = (inr err, r)
    /\ replay_verdict err = None
    /\ strings_Contains (Error err) "failed to read" = true.
Proof.
  intros Hwf Hn. unfold Encode in *. rewrite (Encode_data_frame e Hwf) in *.
  destruct Hwf as (Ht & Hk & Hv). unfold len in Hv.
  rewrite <- length_list_byte_of_string in Hk.
  set (kb := list_byte_of_string (Key e)) in *.
  set (vb := bytes_of (Value e)) in *.
  set (c := CRC32.ChecksumIEEE _) in *.
  rewrite length_app, frame_length, put_uint32_length in Hn.
  unfold frame. rewrite <- !app_assoc. unfold DecodeEntry.
  assert (Hstop : forall field err (r : Reader),
             err = io_EOF \/ err = io_ErrUnexpectedEOF ->
             String.prefix "failed to read" field = true ->
             exists err' (r' : Reader),
               (@inr Entry error (Errorf_w field err), r) = (inr err', r')
               /\ replay_verdict err' = None
               /\ strings_Contains (Error err') "failed to read" = true).
  { intros field err r _ Hfield. do 2 eexists. split; [reflexivity|].
    apply replay_verdict_failed_read. exact Hfield. }
  destruct (decide (4 <= n)%nat) as [H1|H1].
  2:{ destruct (io_ReadFull_take_short 4 (put_uint32 EntryMagic) (
          [Operation e] ++ put_int64 (Timestamp e)
          ++ put_uint32 (Z.of_nat (length kb)) ++ kb
          ++ put_uint32 (Z.of_nat (length vb)) ++ vb ++ put_uint32 c) n)
        as (err & -> & Herr);
        [rewrite put_uint32_length; reflexivity | rewrite put_uint32_length; lia|].
      apply Hstop; [exact Herr | reflexivity]. }
  rewrite (io_ReadFull_take_ok 4 (put_uint32 EntryMagic))
    by (rewrite put_uint32_length; (reflexivity || lia)).
  rewrite put_uint32_length. cbv beta iota zeta.
  rewrite (get_put_uint32 EntryMagic) by (unfold EntryMagic; lia).
  rewrite Z.eqb_refl. cbn [negb].
  destruct (decide (1 <= n - 4)%nat) as [H2|H2].
  2:{ destruct (io_ReadFull_take_short 1 [Operation e] (
          put_int64 (Timestamp e)
          ++ put_uint32 (Z.of_nat (length kb)) ++ kb
          ++ put_uint32 (Z.of_nat (length vb)) ++ vb ++ put_uint32 c) (n - 4))
        as (err & -> & Herr); [reflexivity | cbn [length]; lia|].
      apply Hstop; [exact Herr | reflexivity]. }
  rewrite (io_ReadFull_take_ok 1 [Operation e]) by (reflexivity || exact H2).
  cbn [length hd]. cbv beta iota zeta.
  destruct (decide (8 <= n - 4 - 1)%nat) as [H3|H3].
  2:{ destruct (io_ReadFull_take_short 8 (put_int64 (Timestamp e)) (
          put_uint32 (Z.of_nat (length kb)) ++ kb
          ++ put_uint32 (Z.of_nat (length vb)) ++ vb ++ put_uint32 c) (n - 4 - 1))
        as (err & -> & Herr);
        [rewrite put_int64_length; reflexivity | rewrite put_int64_length; lia|].
      apply Hstop; [exact Herr | reflexivity]. }
  rewrite (io_ReadFull_take_ok 8 (put_int64 (Timestamp e)))
    by (rewrite put_int64_length; (reflexivity || lia)).
  rewrite put_int64_length. cbv beta iota zeta.
  destruct (decide (4 <= n - 4 - 1 - 8)%nat) as [H4|H4].
  2:{ destruct (io_ReadFull_take_short 4 (put_uint32 (Z.of_nat (length kb))) (
          kb ++ put_uint32 (Z.of_nat (length vb)) ++ vb ++ put_uint32 c)
          (n - 4 - 1 - 8))
        as (err & -> & Herr);
        [rewrite put_uint32_length; reflexivity | rewrite put_uint32_length; lia|].
      apply Hstop; [exact Herr | reflexivity]. }
  rewrite (io_ReadFull_take_ok 4 (put_uint32 (Z.of_nat (length kb))))
    by (rewrite put_uint32_length; (reflexivity || lia)).
  rewrite put_uint32_length. cbv beta iota zeta.
  rewrite (get_put_uint32 (Z.of_nat (length kb))) by lia.
  destruct (decide (length kb <= n - 4 - 1 - 8 - 4)%nat) as [H5|H5].
  2:{ destruct (io_ReadFull_take_short (Z.of_nat (length kb)) kb (
          put_uint32 (Z.of_nat (length vb)) ++ vb ++ put_uint32 c)
          (n - 4 - 1 - 8 - 4))
        as (err & -> & Herr); [reflexivity | lia|].
      apply Hstop; [exact Herr | reflexivity]. }
  rewrite (io_ReadFull_take_ok (Z.of_nat (length kb)) kb) by (reflexivity || lia).
  cbv beta iota zeta.
  destruct (decide (4 <= n - 4 - 1 - 8 - 4 - length kb)%nat) as [H6|H6].
  2:{ destruct (io_ReadFull_take_short 4 (put_uint32 (Z.of_nat (length vb))) (
          vb ++ put_uint32 c) (n - 4 - 1 - 8 - 4 - length kb))
        as (err & -> & Herr);
        [rewrite put_uint32_length; reflexivity | rewrite put_uint32_length; lia|].
      apply Hstop; [exact Herr | reflexivity]. }
  rewrite (io_ReadFull_take_ok 4 (put_uint32 (Z.of_nat (length vb))))
    by (rewrite put_uint32_length; (reflexivity || lia)).
  rewrite put_uint32_length. cbv beta iota zeta.
  rewrite (get_put_uint32 (Z.of_nat (length vb))) by lia.
  set (m := (n - 4 - 1 - 8 - 4 - length kb - 4)%nat) in *.
  destruct (decide (length vb <= m)%nat) as [H7|H7].
  2:{ assert (Hpos : (0 <? Z.of_nat (length vb)) = true) by (apply Z.ltb_lt; lia).
      rewrite Hpos.
      destruct (io_ReadFull_take_short (Z.of_nat (length vb)) vb (put_uint32 c) m)
        as (err & -> & Herr); [reflexivity | lia|].
      apply Hstop; [exact Herr | reflexivity]. }
  assert (Hval : (if 0 <? Z.of_nat (length vb)
                  then io_ReadFull (Z.of_nat (length vb)) (take m (vb ++ put_uint32 c))
                  else (inl [], take m (vb ++ put_uint32 c)))
                 = (inl vb, take (m - length vb) (put_uint32 c))).
  { destruct (Z.ltb_spec 0 (Z.of_nat (length vb))) as [Hpos|Hz].
    - apply io_ReadFull_take_ok; [reflexivity | exact H7].
    - assert (Hnil : vb = []) by (apply length_zero_iff_nil; lia).
      rewrite Hnil. cbn [app length]. rewrite Nat.sub_0_r. reflexivity. }
  rewrite Hval. cbv beta iota zeta.
  rewrite <- (app_nil_r (put_uint32 c)).
  destruct (io_ReadFull_take_short 4 (put_uint32 c) [] (m - length vb))
    as (err & -> & Herr);
    [rewrite put_uint32_length; reflexivity | rewrite put_uint32_length; lia|].
  apply Hstop; [exact Herr | reflexivity].
Qed.

End Torn.

(** X4. A record cut short is never taken for a record: every proper prefix
    of an encoded record, the empty one included, fails to decode with an
    error that reports a failed read, which the replay loop takes as the end
    of the log. *)
Theorem torn_record_fails_to_decode (e : Entry) (n : nat) :
  wf_entry e ->
  (n < length (Encode e))%nat ->
  exists err r,
    DecodeEntry (take n (Encode e)) = (inr err, r)
    /\ strings_Contains (Error err) "failed to read" = true
    /\ replay_verdict err = None.
Proof.
  intros Hwf Hn.
  destruct (DecodeEntry_torn e n Hwf Hn) as (err & r & H & Hv & Hc).
  exists err, r. auto.
Qed.

Lemma torn_record_fails_to_decode_witness :
  exists err r,
    DecodeEntry (take 10 (Encode (NewSetEntry 1 "test-key"
                                    (Some (list_byte_of_string "test-value")))))
    = (inr err, r)
    /\ strings_Contains (Error err) "failed to read" = true
    /\ replay_verdict err = None.
Proof.
  apply (torn_record_fails_to_decode
           (NewSetEntry 1 "test-key" (Some (list_byte_of_string "test-value"))) 10).
  - wf_compute.
  - vm_compute. lia.
Defined.

(** X5. Recovery tolerates a torn tail: a log of whole records followed by a
    proper prefix of one more record (a write cut short by a crash) opens
    without error, with every whole record applied and the torn one
    dropped. *)
Theorem Open_torn_tail (es : list Entry) (e : Entry) (n : nat) (cfg : Config) :
  Forall wf_entry es ->
  wf_entry e ->
  (n < length (Encode e))%nat ->
  (OpenWithConfig (dir_with_wal (encode_all es ++ take n (Encode e))) NoFault cfg).1
  = inl (opened (fold_left apply_entry es ∅) cfg).
Proof.
  intros Hes Hwf Hn.
  destruct (DecodeEntry_torn e n Hwf Hn) as (err & r & Hdec & Hv & _).
  rewrite (Open_entries_then es _ err r cfg Hes Hdec), Hv. reflexivity.
Qed.

Lemma Open_torn_tail_witness :
  (OpenWithConfig
     (dir_with_wal (encode_all [NewSetEntry 1 "key1" value1]
                    ++ take 20 (Encode (NewSetEntry 2 "key2" value2))))
     NoFault cfg0).1
  = inl (opened (fold_left apply_entry [NewSetEntry 1 "key1" value1] ∅) cfg0).
Proof.
  apply (Open_torn_tail [NewSetEntry 1 "key1" value1]
           (NewSetEntry 2 "key2" value2) 20 cfg0).
  - repeat constructor; wf_compute.
  - wf_compute.
  - vm_compute. lia.
Defined.

(** ** Corrupt records *)

(** X6. [DecodeEntry] detects every change of one byte in the operation,
    timestamp, key, value or checksum of an encoded record (any byte but
    those of the magic and of the two length fields): it returns a checksum
    mismatch, never a record, whatever bytes follow. *)
Theorem corrupt_byte_is_detected (e : Entry) (j : nat) (b b' : byte)
    (rest : list byte) :
  wf_entry e ->
  Encode e !! j = Some b ->
  b' <> b ->
  framing_byte e j = false ->
  exists msg,
    DecodeEntry (<[j := b']> (Encode e) ++ rest) = (inr (errorString msg), rest)
    /\ strings_Contains msg "checksum mismatch" = true.
Proof. apply DecodeEntry_byte_replaced. Qed.

Lemma corrupt_byte_is_detected_witness :
  exists msg,
    DecodeEntry (<[26%nat := x58]> (Encode (NewSetEntry 1 "key1" value1)) ++ [])
    = (inr (errorString msg), [])
    /\ strings_Contains msg "checksum mismatch" = true.
Proof.
  apply (corrupt_byte_is_detected (NewSetEntry 1 "key1" value1) 26 x61 x58 []).
  - wf_compute.
  - vm_compute. reflexivity.
  - discriminate.
  - reflexivity.
Defined.

(** X7. Recovery stops at the first record that fails its checksum and does
    not look past it: whatever follows that record in the log, whole valid
    records included, is not applied. The store opens with the records
    before it. *)
Theorem Open_stops_at_corrupt_record (es : list Entry) (e : Entry) (j : nat)
    (b b' : byte) (tl : list byte) (cfg : Config) :
  Forall wf_entry es ->
  wf_entry e ->
  Encode e !! j = Some b ->
  b' <> b ->
  framing_byte e j = false ->
  (OpenWithConfig
     (dir_with_wal (encode_all es ++ <[j := b']> (Encode e) ++ tl)) NoFault cfg).1
  = inl (opened (fold_left apply_entry es ∅) cfg).
Proof.
  intros Hes Hwf Hj Hne Hframing.
  destruct (DecodeEntry_byte_replaced e j b b' tl Hwf Hj Hne Hframing)
    as (msg & Hdec & Hmsg).
  rewrite (Open_entries_then es _ _ _ cfg Hes Hdec).
  unfold replay_verdict. cbn [is_io_EOF Error]. rewrite Hmsg. reflexivity.
Qed.

Lemma Open_stops_at_corrupt_record_witness :
  (OpenWithConfig
     (dir_with_wal (encode_all [NewSetEntry 1 "key1" value1]
                    ++ <[26%nat := x58]> (Encode (NewSetEntry 2 "key2" value2))
                    ++ Encode (NewSetEntry 3 "key3" value1)))
     NoFault cfg0).1
  = inl (opened (fold_left apply_entry [NewSetEntry 1 "key1" value1] ∅) cfg0).
Proof.
  apply (Open_stops_at_corrupt_record [NewSetEntry 1 "key1" value1]
           (NewSetEntry 2 "key2" value2) 26 x61 x58
           (Encode (NewSetEntry 3 "key3" value1)) cfg0).
  - repeat constructor; wf_compute.
  - wf_compute.
  - vm_compute. reflexivity.
  - discriminate.
  - reflexivity.
Defined.

(** X8. Whatever bytes it is given, an error of [DecodeEntry] is never the
    bare [io.EOF] (it is always wrapped, so the comparison with [io.EOF] in
    [Replay] never holds), and it is either one the replay loop takes as a
    clean stop or an invalid-magic error: a wrong magic is the only decoding
    failure that makes [Replay] return an error. *)
Theorem DecodeEntry_error_kinds (r : list byte) (err : error) (r' : list byte) :
  DecodeEntry r = (inr err, r') ->
  is_io_EOF err = false
  /\ (replay_verdict err = None
      \/ exists magic,
           magic <> EntryMagic
           /\ err = errorString ("invalid magic: expected 0x" ++ fmt_X EntryMagic
                                 ++ ", got 0x" ++ fmt_X magic)).
Proof.
  unfold DecodeEntry.
  assert (Hread : forall field e0,
             String.prefix "failed to read" field = true ->
             is_io_EOF (Errorf_w field e0) = false
             /\ (replay_verdict (Errorf_w field e0) = None
                 \/ exists magic,
                      magic <> EntryMagic
                      /\ Errorf_w field e0
                         = errorString ("invalid magic: expected 0x"
                                        ++ fmt_X EntryMagic
                                        ++ ", got 0x" ++ fmt_X magic))).
  { intros field e0 Hf. split; [reflexivity|]. left.
    apply replay_verdict_failed_read. exact Hf. }
  destruct (io_ReadFull 4 r) as [[magicB|e1] r1];
    [|intros [= <- <-]; apply Hread; reflexivity].
  destruct (Z.eqb_spec (Bin.get_uint32 magicB) EntryMagic) as [_|Hne]; cbn [negb].
  2:{ intros [= <- <-]. split; [reflexivity|]. right. eauto. }
  destruct (io_ReadFull 1 r1) as [[opB|e2] r2];
    [|intros [= <- <-]; apply Hread; reflexivity].
  destruct (io_ReadFull 8 r2) as [[tsB|e3] r3];
    [|intros [= <- <-]; apply Hread; reflexivity].
  destruct (io_ReadFull 4 r3) as [[klB|e4] r4];
    [|intros [= <- <-]; apply Hread; reflexivity].
  destruct (io_ReadFull (Bin.get_uint32 klB) r4) as [[key|e5] r5];
    [|intros [= <- <-]; apply Hread; reflexivity].
  destruct (io_ReadFull 4 r5) as [[vlB|e6] r6];
    [|intros [= <- <-]; apply Hread; reflexivity].
  destruct (if 0 <? Bin.get_uint32 vlB then io_ReadFull (Bin.get_uint32 vlB) r6
            else (inl [], r6)) as [[value|e7] r7];
    [|intros [= <- <-]; apply Hread; reflexivity].
  destruct (io_ReadFull 4 r7) as [[ckB|e8] r8];
    [|intros [= <- <-]; apply Hread; reflexivity].
  destruct (negb _); [|discriminate].
  intros [= <- <-]. split; [reflexivity|]. left.
  unfold replay_verdict. cbn [is_io_EOF Error].
  rewrite strings_Contains_prefix; [reflexivity|].
  apply prefix_app with (s := "checksum mismatch: expected 0x"%string).
  reflexivity.
Qed.

Lemma DecodeEntry_error_kinds_witness :
  is_io_EOF (Errorf_w "failed to read magic: " io_EOF) = false
  /\ (replay_verdict (Errorf_w "failed to read magic: " io_EOF) = None
      \/ exists magic,
           magic <> EntryMagic
           /\ Errorf_w "failed to read magic: " io_EOF
              = errorString ("invalid magic: expected 0x" ++ fmt_X EntryMagic
                             ++ ", got 0x" ++ fmt_X magic)).
Proof.
  apply (DecodeEntry_error_kinds [] (Errorf_w "failed to read magic: " io_EOF) []).
  reflexivity.
Defined.

(** ** The write-ahead log *)

Section WALFacts.
Import Bin BinFacts.

Lemma Encode_wf_length e :
  wf_entry e ->
  length (Encode e) = (25 + String.length (Key e) + len (Value e))%nat.
Proof.
  intros Hwf. unfold Encode. rewrite (Encode_data_frame e Hwf).
  rewrite length_app, frame_length, put_uint32_length,
    length_list_byte_of_string.
  unfold len. lia.
Qed.

Lemma Append_open w d e :
  closed (file w) = false ->
  Append w d NoFault e
  = (None, set_wal_log d (Some (default [] (wal_log d) ++ Encode e))).
Proof.
  intros Hopen. unfold Append, file_Write, file_Sync. rewrite Hopen.
  destruct (syncMode w); reflexivity.
Qed.

Lemma append_all_open w l sn tmp es :
  closed (file w) = false ->
  append_all w (mkDir (Some l) sn tmp) es
  = (None, mkDir (Some (l ++ encode_all es)) sn tmp).
Proof.
  intros Hopen. revert l. induction es as [|e es IH]; intros l.
  - unfold encode_all. cbn. rewrite app_nil_r. reflexivity.
  - cbn [append_all]. rewrite (Append_open w _ e Hopen).
    unfold set_wal_log. cbn [wal_log snapshot_dat snapshot_dat_tmp default
                             from_option id].
    rewrite IH. unfold encode_all. cbn [map concat]. rewrite app_assoc.
    reflexivity.
Qed.

Lemma replay_entries_collect es seen :
  Forall (fun e => Operation e = OpSet \/ Operation e = OpDelete) es ->
  replay_entries collect es seen = (None, seen ++ map decoded es).
Proof.
  intros Hops. revert seen.
  induction Hops as [|e es Hop Hes IH]; intros seen.
  - cbn. rewrite app_nil_r. reflexivity.
  - cbn [replay_entries map].
    replace (negb _ && negb _) with false
      by (destruct Hop as [-> | ->]; reflexivity).
    unfold collect at 1. rewrite IH, <- app_assoc. reflexivity.
Qed.

Lemma encode_all_app es1 es2 :
  encode_all (es1 ++ es2) = encode_all es1 ++ encode_all es2.
Proof. unfold encode_all. rewrite map_app, concat_app. reflexivity. Qed.

Lemma encode_all_snoc es e :
  encode_all (es ++ [e]) = encode_all es ++ Encode e.
Proof.
  rewrite encode_all_app. unfold encode_all at 2. cbn [map concat].
  rewrite app_nil_r. reflexivity.
Qed.

End WALFacts.

(** X9. What is appended is what is replayed: after records are appended
    to a log that already holds whole records, a replay (by this handle or
    by one opened later on the same file) hands the callback the earlier
    records and then the appended ones, each once, in order, with the
    operation, timestamp, key and value bytes they were written with. *)
Theorem Append_then_Replay (w w' : WAL) (sn tmp : option (list byte))
    (es0 es : list Entry) :
  closed (file w) = false ->
  closed (file w') = false ->
  Forall wf_entry (es0 ++ es) ->
  Forall (fun e => Operation e = OpSet \/ Operation e = OpDelete) (es0 ++ es) ->
  exists d',
    append_all w (mkDir (Some (encode_all es0)) sn tmp) es = (None, d')
    /\ Replay w' d' NoFault collect [] = (None, map decoded (es0 ++ es)).
Proof.
  intros Hopen Hopen' Hwf Hops. eexists. split.
  - apply append_all_open. exact Hopen.
  - rewrite (Replay_entries_whole collect w' _ (es0 ++ es) [] Hopen');
      [ apply (replay_entries_collect _ [] Hops)
      | cbn [wal_log]; rewrite encode_all_app; reflexivity
      | exact Hwf ].
Qed.

Lemma Append_then_Replay_witness :
  exists d',
    append_all (wal_open "wal-test" true)
      (mkDir (Some (encode_all [NewSetEntry 1 "key1" value1])) None None)
      [NewSetEntry 2 "key2" value2; NewDeleteEntry 3 "key3"] = (None, d')
    /\ Replay (wal_open "wal-test" false) d' NoFault collect []
       = (None, map decoded ([NewSetEntry 1 "key1" value1]
                             ++ [NewSetEntry 2 "key2" value2;
                                 NewDeleteEntry 3 "key3"])).
Proof.
  apply (Append_then_Replay (wal_open "wal-test" true) (wal_open "wal-test" false)
           None None [NewSetEntry 1 "key1" value1]
           [NewSetEntry 2 "key2" value2; NewDeleteEntry 3 "key3"]).
  - reflexivity.
  - reflexivity.
  - repeat constructor; wf_compute.
  - repeat constructor; (left; reflexivity) || (right; reflexivity).
Defined.

(** X10. [Append] only ever adds at the end of the log: whether it succeeds
    or fails, and whatever failure is injected, the bytes the log held stay
    in place as a prefix and the snapshot files are not touched; when it
    returns no error, what was added is exactly the encoding of the record,
    25 bytes plus the lengths of key and value. *)
Theorem Append_only_appends (w : WAL) (d : Dir) (flt : Fault) (e : Entry) :
  wf_entry e ->
  exists added,
    default [] (wal_log (Append w d flt e).2) = default [] (wal_log d) ++ added
    /\ snapshot_dat (Append w d flt e).2 = snapshot_dat d
    /\ snapshot_dat_tmp (Append w d flt e).2 = snapshot_dat_tmp d
    /\ ((Append w d flt e).1 = None ->
        added = Encode e
        /\ length added = (25 + String.length (Key e) + len (Value e))%nat).
Proof.
  intros Hwf. unfold Append, file_Write, file_Sync.
  destruct (closed (file w)).
  - exists []. cbn. rewrite app_nil_r.
    split; [reflexivity | split; [reflexivity | split; [reflexivity|]]].
    discriminate.
  - destruct flt as [| | |n|i| | | | |]; cbn [fst snd];
      try (exists (Encode e); destruct (syncMode w); cbn;
           (split; [reflexivity | split; [reflexivity | split; [reflexivity|]]]);
           first [ discriminate
                 | intros _; split; [reflexivity | apply Encode_wf_length, Hwf] ]).
    exists (take n (Encode e)). cbn.
    split; [reflexivity | split; [reflexivity | split; [reflexivity|]]].
    discriminate.
Qed.

Lemma Append_only_appends_witness :
  exists added,
    default [] (wal_log (Append (wal_open "wal-test" true)
                           (dir_with_wal (Encode (NewSetEntry 1 "key1" value1)))
                           NoFault (NewSetEntry 2 "key2" value2)).2)
    = default [] (wal_log (dir_with_wal (Encode (NewSetEntry 1 "key1" value1))))
      ++ added
    /\ snapshot_dat (Append (wal_open "wal-test" true)
                       (dir_with_wal (Encode (NewSetEntry 1 "key1" value1)))
                       NoFault (NewSetEntry 2 "key2" value2)).2
       = snapshot_dat (dir_with_wal (Encode (NewSetEntry 1 "key1" value1)))
    /\ snapshot_dat_tmp (Append (wal_open "wal-test" true)
                           (dir_with_wal (Encode (NewSetEntry 1 "key1" value1)))
                           NoFault (NewSetEntry 2 "key2" value2)).2
       = snapshot_dat_tmp (dir_with_wal (Encode (NewSetEntry 1 "key1" value1)))
    /\ ((Append (wal_open "wal-test" true)
           (dir_with_wal (Encode (NewSetEntry 1 "key1" value1)))
           NoFault (NewSetEntry 2 "key2" value2)).1 = None ->
        added = Encode (NewSetEntry 2 "key2" value2)
        /\ length added
           = (25 + String.length (Key (NewSetEntry 2 "key2" value2))
              + len (Value (NewSetEntry 2 "key2" value2)))%nat).
Proof.
  apply (Append_only_appends (wal_open "wal-test" true)
           (dir_with_wal (Encode (NewSetEntry 1 "key1" value1)))
           NoFault (NewSetEntry 2 "key2" value2)).
  wf_compute.
Defined.

(** X11. Once the file handle of a log is closed, [Append], [Replay],
    [Truncate] and [Close] all return an error, under every injected
    failure or none, and none of them changes the directory, the handle or
    the state the callback threads. *)
Theorem closed_WAL_refuses {A : Type} (w : WAL) (d : Dir) (flt : Fault)
    (e : Entry) (callback : Entry -> A -> option error * A) (a : A) :
  closed (file w) = true ->
  (exists err, Append w d flt e = (Some err, d))
  /\ (exists err, Replay w d flt callback a = (Some err, a))
  /\ (exists err, Truncate w d flt = (Some err, d))
  /\ (exists err, WAL_Close w flt = (Some err, w)).
Proof.
  intros Hclosed.
  unfold Append, file_Write, Replay, file_Seek, Truncate, WAL_Close, file_Sync.
  rewrite Hclosed. repeat split; eexists; reflexivity.
Qed.

Lemma closed_WAL_refuses_witness :
  (exists err, Append (wal store_wal_closed) empty_dir NoFault
                 (NewSetEntry 5 "key2" value2) = (Some err, empty_dir))
  /\ (exists err, Replay (wal store_wal_closed) empty_dir NoFault collect []
                  = (Some err, []))
  /\ (exists err, Truncate (wal store_wal_closed) empty_dir NoFault
                  = (Some err, empty_dir))
  /\ (exists err, WAL_Close (wal store_wal_closed) NoFault
                  = (Some err, wal store_wal_closed)).
Proof.
  apply (closed_WAL_refuses (wal store_wal_closed) empty_dir NoFault
           (NewSetEntry 5 "key2" value2) collect []).
  reflexivity.
Defined.

Lemma Open_whole_log d es cfg :
  wal_log d = Some (encode_all es) ->
  Forall wf_entry es ->
  (OpenWithConfig d NoFault cfg).1 = inl (opened (fold_left apply_entry es ∅) cfg).
Proof.
  intros Hlog Hwf. destruct d as [l sn tmp]. cbn [wal_log] in Hlog. subst l.
  rewrite (Open_independent_of_snapshot _ sn tmp None None).
  change (mkDir (Some (encode_all es)) None None)
    with (dir_with_wal (encode_all es)).
  rewrite <- (app_nil_r (encode_all es)).
  rewrite (Open_entries_then es [] _ [] cfg Hwf DecodeEntry_end). reflexivity.
Qed.

(** X12. [Truncate] on an open log empties it and leaves it usable: a
    replay right after it hands the callback nothing, and records appended
    after it are replayed, in order, with nothing left of what the log held
    before; the snapshot file is not touched. *)
Theorem Truncate_then_Append (w : WAL) (d : Dir) (es : list Entry) :
  closed (file w) = false ->
  Forall wf_entry es ->
  Forall (fun e => Operation e = OpSet \/ Operation e = OpDelete) es ->
  exists d1 d2,
    Truncate w d NoFault = (None, d1)
    /\ wal_log d1 = Some []
    /\ Replay w d1 NoFault collect [] = (None, [])
    /\ append_all w d1 es = (None, d2)
    /\ Replay w d2 NoFault collect [] = (None, map decoded es)
    /\ snapshot_dat d2 = snapshot_dat d.
Proof.
  intros Hopen Hwf Hops. unfold Truncate. rewrite Hopen.
  destruct d as [l sn tmp]. unfold set_wal_log.
  cbn [wal_log snapshot_dat snapshot_dat_tmp].
  do 2 eexists. split; [reflexivity|]. split; [reflexivity|].
  split.
  { rewrite (Replay_entries_whole collect w (mkDir (Some []) sn tmp) [] []
               Hopen eq_refl (List.Forall_nil _)).
    reflexivity. }
  split; [apply (append_all_open w [] sn tmp es Hopen)|].
  split; [|reflexivity].
  rewrite (Replay_entries_whole collect w
             (mkDir (Some ([] ++ encode_all es)) sn tmp) es [] Hopen eq_refl Hwf).
  apply (replay_entries_collect es [] Hops).
Qed.

Lemma Truncate_then_Append_witness :
  exists d1 d2,
    Truncate (wal_open "wal-test" true)
      (dir_with_wal (Encode (NewSetEntry 1 "key" value1))) NoFault = (None, d1)
    /\ wal_log d1 = Some []
    /\ Replay (wal_open "wal-test" true) d1 NoFault collect [] = (None, [])
    /\ append_all (wal_open "wal-test" true) d1
         [NewSetEntry 2 "new-key" value2] = (None, d2)
    /\ Replay (wal_open "wal-test" true) d2 NoFault collect []
       = (None, map decoded [NewSetEntry 2 "new-key" value2])
    /\ snapshot_dat d2
       = snapshot_dat (dir_with_wal (Encode (NewSetEntry 1 "key" value1))).
Proof.
  apply (Truncate_then_Append (wal_open "wal-test" true)
           (dir_with_wal (Encode (NewSetEntry 1 "key" value1)))
           [NewSetEntry 2 "new-key" value2]).
  - reflexivity.
  - repeat constructor; wf_compute.
  - repeat constructor.
Defined.

(** ** The store's writes and the log *)

(** X13. [Append] does not take back a write whose sync fails. With
    sync-on-write, a [Set] or [Delete] whose record is one of the data model
    (a clock reading that is an int64, a key and a value shorter than 2^32
    bytes, what the 32-bit length fields carry) and that fails at the sync
    step returns an error and leaves the map as it was, but its record stays
    in the log: the next open of the directory applies it after the records
    that were there. *)
Theorem failed_sync_record_is_replayed (s : Store) (d : Dir) (now : Z) (o : Op)
    (es : list Entry) (cfg : Config) :
  closed (file (wal s)) = false ->
  syncMode (wal s) = true ->
  wal_log d = Some (encode_all es) ->
  Forall wf_entry es ->
  wf_entry (op_entry now o) ->
  exists err d',
    run_op s d FailSync now o = (Some err, s, d')
    /\ (OpenWithConfig d' NoFault cfg).1
       = inl (opened (fold_left apply_entry (es ++ [op_entry now o]) ∅) cfg).
Proof.
  intros Hopen Hsync Hlog Hes Hwf.
  assert (Happ : Append (wal s) d FailSync (op_entry now o)
                 = (Some (Errorf_w "failed to sync WAL: " os_EIO),
                    set_wal_log d (Some (encode_all (es ++ [op_entry now o]))))).
  { unfold Append, file_Write, file_Sync. rewrite Hopen, Hsync, Hlog.
    rewrite encode_all_snoc. reflexivity. }
  exists (Errorf_w "WAL append failed: " (Errorf_w "failed to sync WAL: " os_EIO)),
    (set_wal_log d (Some (encode_all (es ++ [op_entry now o])))).
  split.
  - destruct o; cbn [run_op op_entry] in *; unfold Set_, Delete;
      rewrite Happ; reflexivity.
  - apply Open_whole_log; [reflexivity|].
    apply Forall_app. split; [exact Hes | constructor; [exact Hwf | constructor]].
Qed.

Lemma failed_sync_record_is_replayed_witness :
  exists err d',
    run_op store_one_key (dir_with_wal (encode_all [NewSetEntry 1 "key1" value1]))
      FailSync 2 (DoSet "key2" value2) = (Some err, store_one_key, d')
    /\ (OpenWithConfig d' NoFault cfg0).1
       = inl (opened (fold_left apply_entry
                        ([NewSetEntry 1 "key1" value1]
                         ++ [op_entry 2 (DoSet "key2" value2)]) ∅) cfg0).
Proof.
  apply (failed_sync_record_is_replayed store_one_key
           (dir_with_wal (encode_all [NewSetEntry 1 "key1" value1]))
           2 (DoSet "key2" value2) [NewSetEntry 1 "key1" value1] cfg0).
  - reflexivity.
  - reflexivity.
  - reflexivity.
  - repeat constructor; wf_compute.
  - wf_compute.
Defined.

Section StoreFacts.

Lemma Append_success w d flt e d' :
  Append w d flt e = (None, d') ->
  closed (file w) = false
  /\ d' = set_wal_log d (Some (default [] (wal_log d) ++ Encode e)).
Proof.
  unfold Append, file_Write, file_Sync.
  destruct (closed (file w)); [discriminate|].
  destruct flt; destruct (syncMode w); intros [= <-]; auto.
Qed.

Lemma run_op_success s d flt now o s' d' :
  run_op s d flt now o = (None, s', d') ->
  closed (file (wal s)) = false
  /\ s' = with_data s (apply_op (data s) o)
  /\ d' = set_wal_log d (Some (default [] (wal_log d) ++ Encode (op_entry now o))).
Proof.
  destruct o as [key value|key]; cbn [run_op op_entry apply_op];
    unfold Set_, Delete;
    destruct (Append _ _ _ _) as [[err|] d1] eqn:E; intros [= <- <-];
    apply Append_success in E as [Hopen ->]; auto.
Qed.

Lemma same_bytes_apply m1 m2 now o :
  same_bytes m1 m2 ->
  same_bytes (apply_op m1 o) (apply_entry m2 (op_entry now o)).
Proof.
  intros H k. destruct o as [key value|key]; cbn.
  - destruct (decide (key = k)) as [->|Hne].
    + rewrite !lookup_insert_eq. reflexivity.
    + rewrite !lookup_insert_ne by exact Hne. apply H.
  - destruct (decide (key = k)) as [->|Hne].
    + rewrite !lookup_delete_eq. reflexivity.
    + rewrite !lookup_delete_ne by exact Hne. apply H.
Qed.

End StoreFacts.

(** X14. A successful [Set] is read back: [Get] on the key returns the
    value it was given, found; every other key reads as before; [Len]
    grows by one when the key is new and stays when it is overwritten. *)
Theorem Set_then_Get (s : Store) (d : Dir) (flt : Fault) (now : Z)
    (key : string) (value : slice) (s' : Store) (d' : Dir) :
  Set_ s d flt now key value = (None, s', d') ->
  Get s' key = (value, true)
  /\ (forall k, k <> key -> Get s' k = Get s k)
  /\ Len s' = (if (Get s key).2 then Len s else S (Len s)).
Proof.
  intros H. apply (run_op_success s d flt now (DoSet key value)) in H
    as (_ & -> & _).
  unfold Get, Len. cbn [data with_data apply_op]. split; [|split].
  - rewrite lookup_insert_eq. reflexivity.
  - intros k Hne. rewrite lookup_insert_ne by congruence. reflexivity.
  - destruct (data s !! key) as [v|] eqn:E; cbn [snd].
    + rewrite map_size_insert_Some by eauto. reflexivity.
    + rewrite map_size_insert_None by exact E. reflexivity.
Qed.

Lemma Set_then_Get_witness :
  Get (with_data store_one_key (<["key2"%string := value2]> (data store_one_key)))
    "key2" = (value2, true)
  /\ (forall k, k <> "key2"%string ->
        Get (with_data store_one_key
               (<["key2"%string := value2]> (data store_one_key))) k
        = Get store_one_key k)
  /\ Len (with_data store_one_key (<["key2"%string := value2]> (data store_one_key)))
     = (if (Get store_one_key "key2").2 then Len store_one_key
        else S (Len store_one_key)).
Proof.
  apply (Set_then_Get store_one_key empty_dir NoFault 2 "key2" value2 _
           (set_wal_log empty_dir (Some ([] ++ Encode (NewSetEntry 2 "key2" value2))))).
  reflexivity.
Defined.

(** X15. A successful [Delete] is read back: [Get] on the key reports it
    not found, with a nil value; every other key reads as before; [Len]
    drops by one when the key was there and stays when it was not (deleting
    an absent key is no error). *)
Theorem Delete_then_Get (s : Store) (d : Dir) (flt : Fault) (now : Z)
    (key : string) (s' : Store) (d' : Dir) :
  Delete s d flt now key = (None, s', d') ->
  Get s' key = (None, false)
  /\ (forall k, k <> key -> Get s' k = Get s k)
  /\ Len s' = (if (Get s key).2 then pred (Len s) else Len s).
Proof.
  intros H. apply (run_op_success s d flt now (DoDelete key)) in H
    as (_ & -> & _).
  unfold Get, Len. cbn [data with_data apply_op]. split; [|split].
  - rewrite lookup_delete_eq. reflexivity.
  - intros k Hne. rewrite lookup_delete_ne by congruence. reflexivity.
  - destruct (data s !! key) as [v|] eqn:E; cbn [snd].
    + rewrite map_size_delete, E. reflexivity.
    + rewrite delete_id by exact E. reflexivity.
Qed.

Lemma Delete_then_Get_witness :
  Get (with_data store_one_key (delete "key1"%string (data store_one_key))) "key1"
  = (None, false)
  /\ (forall k, k <> "key1"%string ->
        Get (with_data store_one_key (delete "key1"%string (data store_one_key))) k
        = Get store_one_key k)
  /\ Len (with_data store_one_key (delete "key1"%string (data store_one_key)))
     = (if (Get store_one_key "key1").2 then pred (Len store_one_key)
        else Len store_one_key).
Proof.
  apply (Delete_then_Get store_one_key empty_dir NoFault 2 "key1" _
           (set_wal_log empty_dir (Some ([] ++ Encode (NewDeleteEntry 2 "key1"))))).
  reflexivity.
Defined.

(** X16. The store keeps its map in step with its log, for writes within
    the 32-bit length fields: when the log holds whole records and the map
    is what they replay to, a [Set] or [Delete] whose record is one of the
    data model (a clock reading that is an int64, a key and a value shorter
    than 2^32 bytes) and that returns success, under any injected failure,
    leaves a log of whole records (the old ones and the new one) and a map
    that is again what the log replays to. *)
Theorem write_keeps_map_in_step (s : Store) (d : Dir) (flt : Fault) (now : Z)
    (o : Op) (s' : Store) (d' : Dir) :
  in_sync s d ->
  wf_entry (op_entry now o) ->
  run_op s d flt now o = (None, s', d') ->
  in_sync s' d'.
Proof.
  intros (es & Hes & Hlog & Hsame) Hwf Hrun.
  apply run_op_success in Hrun as (_ & -> & ->).
  exists (es ++ [op_entry now o]). split; [|split].
  - apply Forall_app. split; [exact Hes | constructor; [exact Hwf | constructor]].
  - rewrite Hlog, encode_all_snoc. reflexivity.
  - rewrite fold_left_app. cbn [fold_left data with_data].
    apply same_bytes_apply. exact Hsame.
Qed.

Lemma write_keeps_map_in_step_witness :
  in_sync (with_data store_one_key (<["key2"%string := value2]> (data store_one_key)))
    (set_wal_log (dir_with_wal (encode_all [NewSetEntry 1 "key1" value1]))
       (Some (encode_all [NewSetEntry 1 "key1" value1]
              ++ Encode (NewSetEntry 2 "key2" value2)))).
Proof.
  apply (write_keeps_map_in_step store_one_key
           (dir_with_wal (encode_all [NewSetEntry 1 "key1" value1]))
           NoFault 2 (DoSet "key2" value2)).
  - exists [NewSetEntry 1 "key1" value1].
    split; [repeat constructor; wf_compute|].
    split; [reflexivity|]. intros k. reflexivity.
  - wf_compute.
  - reflexivity.
Defined.

(** X17. Recovery after a crash: when the log holds whole records and the
    map is what they replay to, opening the directory again, without any
    [Close], succeeds and gives a store whose map has the same keys with
    the same value bytes, and which is in step with the log in turn. *)
Theorem reopen_recovers_map (s : Store) (d : Dir) (cfg : Config) :
  in_sync s d ->
  exists s2,
    OpenWithConfig d NoFault cfg = (inl s2, d)
    /\ same_bytes (data s2) (data s)
    /\ in_sync s2 d.
Proof.
  intros (es & Hes & Hlog & Hsame).
  exists (opened (fold_left apply_entry es ∅) cfg). split; [|split].
  - rewrite (surjective_pairing (OpenWithConfig d NoFault cfg)),
      Open_dir_NoFault, (Open_whole_log d es cfg Hlog Hes).
    f_equal. destruct d as [l sn tmp]. cbn [wal_log] in Hlog. subst l.
    reflexivity.
  - intros k. symmetry. apply Hsame.
  - exists es. split; [exact Hes|]. split; [exact Hlog|]. intros k. reflexivity.
Qed.

Lemma reopen_recovers_map_witness :
  exists s2,
    OpenWithConfig (dir_with_wal (encode_all [NewSetEntry 1 "key1" value1]))
      NoFault cfg0
    = (inl s2, dir_with_wal (encode_all [NewSetEntry 1 "key1" value1]))
    /\ same_bytes (data s2) (data store_one_key)
    /\ in_sync s2 (dir_with_wal (encode_all [NewSetEntry 1 "key1" value1])).
Proof.
  apply (reopen_recovers_map store_one_key
           (dir_with_wal (encode_all [NewSetEntry 1 "key1" value1])) cfg0).
  exists [NewSetEntry 1 "key1" value1].
  split; [repeat constructor; wf_compute|].
  split; [reflexivity|]. intros k. reflexivity.
Defined.

(** X18. After a [Close] that returned success the store refuses writes:
    every later [Set], [Delete] and [Close] returns an error, under any
    injected failure or none, and changes neither the map nor the
    directory; [Get] still answers from the map as before the [Close]. *)
Theorem closed_store_refuses (s : Store) (d : Dir) (flt0 flt : Fault) (now : Z)
    (o : Op) (s' : Store) (d' : Dir) :
  Close s d flt0 = (None, s', d') ->
  (exists err, run_op s' d' flt now o = (Some err, s', d'))
  /\ (exists err, Close s' d' flt = (Some err, s', d'))
  /\ (forall k, Get s' k = Get s k).
Proof.
  unfold Close. destruct (Truncate (wal s) d flt0) as [[e|] d1].
  { destruct (WAL_Close (wal s) flt0). discriminate. }
  destruct (WAL_Close (wal s) flt0) as [[e|] w] eqn:Hc; [discriminate|].
  intros [= <- <-].
  assert (Hclosed : closed (file w) = true).
  { unfold WAL_Close in Hc. destruct (file_Sync _ _); [discriminate|].
    destruct flt0; inversion Hc; reflexivity. }
  split; [|split; [|reflexivity]].
  - destruct o; cbn [run_op]; unfold Set_, Delete, Append, file_Write;
      cbn [wal with_wal]; rewrite Hclosed; eexists; reflexivity.
  - unfold Truncate, WAL_Close, file_Sync. cbn [wal with_wal].
    rewrite Hclosed. eexists. reflexivity.
Qed.

Lemma closed_store_refuses_witness :
  (exists err,
      run_op (with_wal store_one_key (wal store_wal_closed))
        (dir_with_wal []) NoFault 5 (DoSet "key2" value2)
      = (Some err, with_wal store_one_key (wal store_wal_closed), dir_with_wal []))
  /\ (exists err,
        Close (with_wal store_one_key (wal store_wal_closed)) (dir_with_wal [])
          NoFault
        = (Some err, with_wal store_one_key (wal store_wal_closed),
           dir_with_wal []))
  /\ (forall k, Get (with_wal store_one_key (wal store_wal_closed)) k
                = Get store_one_key k).
Proof.
  apply (closed_store_refuses store_one_key
           (dir_with_wal (Encode (NewSetEntry 1 "key1" value1)))
           NoFault NoFault 5 (DoSet "key2" value2)).
  reflexivity.
Defined.

(** ** Snapshot files *)

(** X19. [writeSnapshot] replaces the snapshot in one step or not at all:
    whatever failure is injected, it never touches the log; when it returns
    an error the snapshot file is exactly what it was before (absent, if it
    was absent) and the temp file is gone, except that a failed creation
    leaves the temp file as it was and a failed rename leaves the complete
    temp file behind; when it returns no error the snapshot file holds the
    new snapshot and no temp file is left. *)
Theorem writeSnapshot_all_or_nothing (range : MapRange) (d : Dir) (flt : Fault)
    (now : Z) (m : gmap string slice) :
  wal_log (writeSnapshot range d flt now m).2 = wal_log d
  /\ match (writeSnapshot range d flt now m).1 with
     | None =>
         snapshot_dat (writeSnapshot range d flt now m).2
         = Some (snapshot_bytes range now m)
         /\ snapshot_dat_tmp (writeSnapshot range d flt now m).2 = None
         /\ snapshotExists (writeSnapshot range d flt now m).2 = true
     | Some _ =>
         snapshot_dat (writeSnapshot range d flt now m).2 = snapshot_dat d
         /\ (snapshot_dat_tmp (writeSnapshot range d flt now m).2 = None
             \/ (flt = FailOpen
                 /\ snapshot_dat_tmp (writeSnapshot range d flt now m).2
                    = snapshot_dat_tmp d)
             \/ (flt = FailRename
                 /\ snapshot_dat_tmp (writeSnapshot range d flt now m).2
                    = Some (snapshot_bytes range now m)))
     end.
Proof.
  unfold writeSnapshot.
  destruct flt as [| | |n|i| | | | |];
    [ | | | | destruct i as [|[|i]] | | | | | ];
    cbv beta iota zeta;
    repeat match goal with
           | |- context [if (?x <? ?y)%nat then _ else _] => destruct (x <? y)%nat
           | |- context [if Nat.even ?x then _ else _] => destruct (Nat.even x)
           end;
    cbn [fst snd wal_log snapshot_dat snapshot_dat_tmp rename_tmp
         set_snapshot_dat_tmp];
    auto 6.
Qed.

Section SnapshotFiles.
Import Bin BinFacts.

Lemma loadSnapshot_header now cnt rest d :
  0 <= cnt < 2 ^ 32 ->
  snapshot_dat d
  = Some (snapshot_header now cnt
          ++ put_uint32 (CRC32.ChecksumIEEE (snapshot_header now cnt)) ++ rest) ->
  loadSnapshot d NoFault = loadSnapshot_entries (Z.to_nat cnt) 0 rest ∅.
Proof.
  intros Hcnt Hd. unfold loadSnapshot. rewrite Hd. unfold snapshot_header.
  rewrite <- !app_assoc.
  rewrite (io_ReadFull_uint32 SnapshotMagic).
  cbv beta iota zeta.
  rewrite (get_put_uint32 SnapshotMagic) by (unfold SnapshotMagic; lia).
  rewrite Z.eqb_refl. cbn [negb].
  rewrite (io_ReadFull_int64 now).
  cbv beta iota zeta.
  rewrite (io_ReadFull_uint32 cnt).
  cbv beta iota zeta.
  rewrite (get_put_uint32 cnt) by lia.
  rewrite int64_get_put, put_int64_int64.
  rewrite <- !app_assoc.
  set (c := CRC32.ChecksumIEEE _).
  rewrite (io_ReadFull_uint32 c).
  cbv beta iota zeta.
  rewrite (get_put_uint32 c) by (subst c; apply ChecksumIEEE_range).
  rewrite Z.eqb_refl. reflexivity.
Qed.

Lemma fold_insert_notin (f : slice -> slice) (l : list (string * slice))
    (acc : gmap string slice) (k : string) :
  k ∉ l.*1 ->
  fold_left (fun m kv => <[kv.1 := f kv.2]> m) l acc !! k = acc !! k.
Proof.
  revert acc. induction l as [|[k' v'] l IH]; intros acc Hnotin; [reflexivity|].
  cbn [fmap list_fmap fst] in Hnotin. apply not_elem_of_cons in Hnotin as [Hne Hl].
  cbn [fold_left fst snd]. rewrite (IH _ Hl).
  apply lookup_insert_ne. congruence.
Qed.

End SnapshotFiles.

(** X20. [loadSnapshot] reads exactly as many entries as the header counts,
    inserting them in file order: a key that occurs more than once gets the
    value of its last entry, a key with no entry is absent, each value comes
    back as a non-nil slice, and bytes that follow the counted entries are
    not looked at. *)
Theorem loadSnapshot_reads_entries_in_order (now : Z) (l : list (string * slice))
    (trailing : list byte) (d : Dir) :
  Z.of_nat (length l) < 2 ^ 32 ->
  Forall wf_pair l ->
  snapshot_dat d = Some (snapshot_file now l ++ trailing) ->
  exists m,
    loadSnapshot d NoFault = inl m
    /\ m = fold_left (fun m kv => <[kv.1 := loaded kv.2]> m) l ∅
    /\ (forall l1 k v l2, l = l1 ++ (k, v) :: l2 -> k ∉ l2.*1 ->
          m !! k = Some (loaded v))
    /\ (forall k, k ∉ l.*1 -> m !! k = None).
Proof.
  intros Hlen Hwf Hd. eexists. split; [|split; [reflexivity|split]].
  - unfold snapshot_file in Hd. rewrite <- !app_assoc in Hd.
    rewrite (BinFacts.uint32_small (Z.of_nat (length l))) in Hd by lia.
    rewrite (loadSnapshot_header now (Z.of_nat (length l)) _ d ltac:(lia) Hd),
      Nat2Z.id.
    apply loadSnapshot_entries_written. exact Hwf.
  - intros l1 k v l2 -> Hnotin.
    rewrite fold_left_app. cbn [fold_left fst snd].
    rewrite fold_insert_notin by exact Hnotin. apply lookup_insert_eq.
  - intros k Hnotin. rewrite fold_insert_notin by exact Hnotin.
    apply lookup_empty.
Qed.

Lemma loadSnapshot_reads_entries_in_order_witness :
  exists m,
    loadSnapshot
      (dir_with_snapshot_file
         (snapshot_file 1 [("key1"%string, value1); ("key1"%string, value2)]
          ++ [x00; x01])) NoFault = inl m
    /\ m = fold_left (fun m kv => <[kv.1 := loaded kv.2]> m)
             [("key1"%string, value1); ("key1"%string, value2)] ∅
    /\ (forall l1 k v l2,
          [("key1"%string, value1); ("key1"%string, value2)] = l1 ++ (k, v) :: l2 ->
          k ∉ l2.*1 -> m !! k = Some (loaded v))
    /\ (forall k, k ∉ [("key1"%string, value1); ("key1"%string, value2)].*1 ->
          m !! k = None).
Proof.
  apply (loadSnapshot_reads_entries_in_order 1
           [("key1"%string, value1); ("key1"%string, value2)] [x00; x01]
           (dir_with_snapshot_file
              (snapshot_file 1 [("key1"%string, value1); ("key1"%string, value2)]
               ++ [x00; x01]))).
  - vm_compute. reflexivity.
  - repeat constructor; wf_compute.
  - reflexivity.
Defined.

Section SnapshotHeader.
Import Bin BinFacts.

Lemma put_uint32_changed z j b b' :
  0 <= z < 2 ^ 32 ->
  put_uint32 z !! j = Some b -> b' <> b ->
  get_uint32 (<[j := b']> (put_uint32 z)) <> z.
Proof.
  intros Hz Hj Hne E.
  assert (Hlen : length (<[j := b']> (put_uint32 z)) = 4%nat)
    by (rewrite length_insert; apply put_uint32_length).
  pose proof (put_get_uint32 _ Hlen) as Hput. rewrite E in Hput.
  assert (Hlk : <[j := b']> (put_uint32 z) !! j = Some b')
    by (apply list_lookup_insert_eq; eapply lookup_lt_Some, Hj).
  rewrite <- Hput, Hj in Hlk. congruence.
Qed.

Lemma header_change_rejected now cnt rest j b b' d :
  0 <= cnt < 2 ^ 32 ->
  (j < 20)%nat ->
  (snapshot_header now cnt
   ++ put_uint32 (CRC32.ChecksumIEEE (snapshot_header now cnt))) !! j = Some b ->
  b' <> b ->
  snapshot_dat d
  = Some (<[j := b']> (snapshot_header now cnt
                       ++ put_uint32 (CRC32.ChecksumIEEE (snapshot_header now cnt))
                       ++ rest)) ->
  exists err, loadSnapshot d NoFault = inr err.
Proof.
  intros Hcnt Hj Hb Hne Hd. unfold loadSnapshot. rewrite Hd. clear Hd.
  set (H := snapshot_header now cnt) in *.
  assert (HH : length H = 16%nat).
  { subst H. unfold snapshot_header.
    rewrite !length_app, !put_uint32_length, put_int64_length. reflexivity. }
  destruct (decide (j < 16)%nat) as [Hin|Hout].
  - (* inside the 16 bytes the checksum covers *)
    rewrite lookup_app_l in Hb by lia.
    rewrite insert_app_l by lia.
    pose proof (ChecksumIEEE_detects_byte H j b b' Hb Hne) as Hcrc.
    pose proof (ChecksumIEEE_range H) as Hr.
    revert Hcrc Hr. generalize (CRC32.ChecksumIEEE H). intros c Hcrc Hr.
    subst H. unfold snapshot_header in *.
    destruct (decide (j < 4)%nat) as [Hm|Hm].
    + rewrite lookup_app_l in Hb by (rewrite put_uint32_length; lia).
      rewrite insert_app_l by (rewrite put_uint32_length; lia).
      rewrite <- !app_assoc.
      rewrite (io_ReadFull_app 4 (<[j := b']> (put_uint32 SnapshotMagic)))
        by (rewrite length_insert, put_uint32_length; reflexivity).
      cbv beta iota zeta.
      destruct (Z.eqb_spec (get_uint32 (<[j := b']> (put_uint32 SnapshotMagic)))
                  SnapshotMagic) as [E|_]; [|cbn [negb]; eauto].
      exfalso.
      exact (put_uint32_changed SnapshotMagic j b b'
               ltac:(unfold SnapshotMagic; lia) Hb Hne E).
    + rewrite insert_app_r_alt in Hcrc |- * by (rewrite put_uint32_length; lia).
      rewrite put_uint32_length in *. rewrite <- !app_assoc.
      rewrite (io_ReadFull_uint32 SnapshotMagic).
      cbv beta iota zeta.
      rewrite (get_put_uint32 SnapshotMagic) by (unfold SnapshotMagic; lia).
      rewrite Z.eqb_refl. cbn [negb].
      destruct (decide (j < 12)%nat) as [Ht|Ht].
      * rewrite insert_app_l in Hcrc |- * by (rewrite put_int64_length; lia).
        set (TS' := <[(j - 4)%nat := b']> (put_int64 now)) in *.
        assert (HTS : length TS' = 8%nat)
          by (subst TS'; rewrite length_insert; apply put_int64_length).
        rewrite <- !app_assoc.
        rewrite (io_ReadFull_app 8 TS') by (rewrite HTS; reflexivity).
        cbv beta iota zeta.
        rewrite (io_ReadFull_uint32 cnt). cbv beta iota zeta.
        rewrite (io_ReadFull_uint32 c). cbv beta iota zeta.
        rewrite (put_get_int64 TS' HTS), (get_put_uint32 cnt) by lia.
        rewrite (get_put_uint32 c) by exact Hr.
        rewrite <- !app_assoc.
        destruct (Z.eqb_spec (CRC32.ChecksumIEEE
                                (put_uint32 SnapshotMagic ++ TS' ++ put_uint32 cnt))
                    c) as [E|_]; [contradiction | cbn [negb]; eauto].
      * rewrite insert_app_r_alt in Hcrc |- * by (rewrite put_int64_length; lia).
        rewrite put_int64_length in *.
        set (C' := <[(j - 4 - 8)%nat := b']> (put_uint32 cnt)) in *.
        assert (HC : length C' = 4%nat)
          by (subst C'; rewrite length_insert; apply put_uint32_length).
        rewrite <- !app_assoc.
        rewrite (io_ReadFull_int64 now). cbv beta iota zeta.
        rewrite (io_ReadFull_app 4 C') by (rewrite HC; reflexivity).
        cbv beta iota zeta.
        rewrite (io_ReadFull_uint32 c). cbv beta iota zeta.
        rewrite int64_get_put, put_int64_int64, (put_get_uint32 C' HC).
        rewrite (get_put_uint32 c) by exact Hr.
        rewrite <- !app_assoc.
        destruct (Z.eqb_spec (CRC32.ChecksumIEEE
                                (put_uint32 SnapshotMagic ++ put_int64 now ++ C'))
                    c) as [E|_]; [contradiction | cbn [negb]; eauto].
  - (* inside the stored checksum *)
    rewrite lookup_app_r in Hb by lia.
    rewrite insert_app_r_alt by lia.
    rewrite insert_app_l by (rewrite put_uint32_length; lia).
    rewrite HH in *.
    pose proof (put_uint32_changed _ _ _ _ (ChecksumIEEE_range H) Hb Hne) as Hchg.
    set (C' := <[(j - 16)%nat := b']> (put_uint32 (CRC32.ChecksumIEEE H))) in *.
    assert (HC : length C' = 4%nat)
      by (subst C'; rewrite length_insert; apply put_uint32_length).
    subst H. unfold snapshot_header in *. rewrite <- !app_assoc.
    rewrite (io_ReadFull_uint32 SnapshotMagic).
    cbv beta iota zeta.
    rewrite (get_put_uint32 SnapshotMagic) by (unfold SnapshotMagic; lia).
    rewrite Z.eqb_refl. cbn [negb].
    rewrite (io_ReadFull_int64 now). cbv beta iota zeta.
    rewrite (io_ReadFull_uint32 cnt). cbv beta iota zeta.
    rewrite (get_put_uint32 cnt) by lia.
    rewrite int64_get_put, put_int64_int64. rewrite <- !app_assoc.
    rewrite (io_ReadFull_app 4 C') by (rewrite HC; reflexivity).
    cbv beta iota zeta.
    destruct (Z.eqb_spec
                (CRC32.ChecksumIEEE
                   (put_uint32 SnapshotMagic ++ put_int64 now ++ put_uint32 cnt))
                (get_uint32 C')) as [E|_]; [|cbn [negb]; eauto].
    exfalso. apply Hchg. symmetry. exact E.
Qed.

End SnapshotHeader.

(** X21. [loadSnapshot] rejects a snapshot whose header was damaged: change
    any one byte among the 20 of the header that [writeSnapshot] wrote
    (magic, timestamp, entry count, header checksum) and the load returns an
    error instead of a map. *)
Theorem loadSnapshot_rejects_damaged_header (range : MapRange) (now : Z)
    (m : gmap string slice) (j : nat) (b b' : byte) (d : Dir) :
  (j < 20)%nat ->
  snapshot_bytes range now m !! j = Some b ->
  b' <> b ->
  snapshot_dat d = Some (<[j := b']> (snapshot_bytes range now m)) ->
  exists err, loadSnapshot d NoFault = inr err.
Proof.
  intros Hj Hb Hne Hd. unfold snapshot_bytes in *.
  set (cnt := Bin.uint32 (Z.of_nat (size m))) in *.
  apply (header_change_rejected now cnt (concat (map snapshot_entry (range m)))
           j b b' d); try assumption.
  - subst cnt. apply BinFacts.uint32_range.
  - rewrite app_assoc in Hb. rewrite lookup_app_l in Hb; [exact Hb|].
    rewrite length_app. unfold snapshot_header.
    rewrite !length_app, !put_uint32_length, put_int64_length. cbn. lia.
Qed.

Lemma loadSnapshot_rejects_damaged_header_witness :
  exists err,
    loadSnapshot
      (dir_with_snapshot_file
         (<[0%nat := x00]>
            (snapshot_bytes map_to_list 1 {[ "key1"%string := value1 ]})))
      NoFault = inr err.
Proof.
  apply (loadSnapshot_rejects_damaged_header map_to_list 1
           {[ "key1"%string := value1 ]} 0 x4b x00
           (dir_with_snapshot_file
              (<[0%nat := x00]>
                 (snapshot_bytes map_to_list 1 {[ "key1"%string := value1 ]})))).
  - lia.
  - vm_compute. reflexivity.
  - discriminate.
  - reflexivity.
Defined.

Section SnapshotTruncated.
Import Bin BinFacts.

Lemma snapshot_entry_length k v :
  Z.of_nat (String.length k) < 2 ^ 32 ->
  Z.of_nat (len v) < 2 ^ 32 ->
  length (snapshot_entry (k, v)) = (12 + String.length k + len v)%nat.
Proof.
  intros Hk Hv. unfold snapshot_entry.
  rewrite (snapshot_entryBuf_wf k v Hk Hv).
  rewrite !length_app, !put_uint32_length, length_list_byte_of_string.
  unfold len. lia.
Qed.

(** An entry cut short does not load. *)
Lemma loadSnapshot_entry_torn n i k v m acc :
  Z.of_nat (String.length k) < 2 ^ 32 ->
  Z.of_nat (len v) < 2 ^ 32 ->
  (m < length (snapshot_entry (k, v)))%nat ->
  exists err,
    loadSnapshot_entries (S n) i (take m (snapshot_entry (k, v))) acc = inr err.
Proof.
  intros Hk Hv Hm. rewrite (snapshot_entry_length k v Hk Hv) in Hm.
  unfold snapshot_entry. rewrite (snapshot_entryBuf_wf k v Hk Hv).
  rewrite <- length_list_byte_of_string in Hk, Hm.
  set (kb := list_byte_of_string k) in *. unfold len in Hv, Hm.
  set (vb := bytes_of v) in *.
  set (c := CRC32.ChecksumIEEE _).
  cbn [loadSnapshot_entries]. rewrite <- !app_assoc.
  destruct (decide (4 <= m)%nat) as [H1|H1].
  2:{ destruct (io_ReadFull_take_short 4 (put_uint32 (Z.of_nat (length kb)))
                  (kb ++ put_uint32 (Z.of_nat (length vb)) ++ vb ++ put_uint32 c) m)
        as (err & -> & _);
        [rewrite put_uint32_length; reflexivity | rewrite put_uint32_length; lia|].
      eauto. }
  rewrite (io_ReadFull_take_ok 4 (put_uint32 (Z.of_nat (length kb))))
    by (rewrite put_uint32_length; (reflexivity || lia)).
  rewrite put_uint32_length. cbv beta iota zeta.
  rewrite (get_put_uint32 (Z.of_nat (length kb))) by lia.
  destruct (decide (length kb <= m - 4)%nat) as [H2|H2].
  2:{ destruct (io_ReadFull_take_short (Z.of_nat (length kb)) kb
                  (put_uint32 (Z.of_nat (length vb)) ++ vb ++ put_uint32 c) (m - 4))
        as (err & -> & _); [reflexivity | lia|].
      eauto. }
  rewrite (io_ReadFull_take_ok (Z.of_nat (length kb)) kb) by (reflexivity || lia).
  cbv beta iota zeta.
  destruct (decide (4 <= m - 4 - length kb)%nat) as [H3|H3].
  2:{ destruct (io_ReadFull_take_short 4 (put_uint32 (Z.of_nat (length vb)))
                  (vb ++ put_uint32 c) (m - 4 - length kb))
        as (err & -> & _);
        [rewrite put_uint32_length; reflexivity | rewrite put_uint32_length; lia|].
      eauto. }
  rewrite (io_ReadFull_take_ok 4 (put_uint32 (Z.of_nat (length vb))))
    by (rewrite put_uint32_length; (reflexivity || lia)).
  rewrite put_uint32_length. cbv beta iota zeta.
  rewrite (get_put_uint32 (Z.of_nat (length vb))) by lia.
  set (m' := (m - 4 - length kb - 4)%nat) in *.
  destruct (decide (length vb <= m')%nat) as [H4|H4].
  2:{ assert (Hpos : (0 <? Z.of_nat (length vb)) = true) by (apply Z.ltb_lt; lia).
      rewrite Hpos.
      destruct (io_ReadFull_take_short (Z.of_nat (length vb)) vb (put_uint32 c) m')
        as (err & -> & _); [reflexivity | lia|].
      eauto. }
  assert (Hval : (if 0 <? Z.of_nat (length vb)
                  then io_ReadFull (Z.of_nat (length vb)) (take m' (vb ++ put_uint32 c))
                  else (inl [], take m' (vb ++ put_uint32 c)))
                 = (inl vb, take (m' - length vb) (put_uint32 c))).
  { destruct (Z.ltb_spec 0 (Z.of_nat (length vb))) as [Hpos|Hz].
    - apply io_ReadFull_take_ok; [reflexivity | exact H4].
    - assert (Hnil : vb = []) by (apply length_zero_iff_nil; lia).
      rewrite Hnil. cbn [app length]. rewrite Nat.sub_0_r. reflexivity. }
  rewrite Hval. cbv beta iota zeta.
  rewrite <- (app_nil_r (put_uint32 c)).
  destruct (io_ReadFull_take_short 4 (put_uint32 c) [] (m' - length vb))
    as (err & -> & _);
    [rewrite put_uint32_length; reflexivity | rewrite put_uint32_length; lia|].
  eauto.
Qed.

(** The entry loop on entries cut short somewhere does not load. *)
Lemma loadSnapshot_entries_torn l i m acc :
  Forall wf_pair l ->
  (m < length (concat (map snapshot_entry l)))%nat ->
  exists err,
    loadSnapshot_entries (length l) i (take m (concat (map snapshot_entry l))) acc
    = inr err.
Proof.
  intros Hwf. revert i m acc.
  induction Hwf as [|[k v] l [Hk Hv] Hl IH]; intros i m acc Hm.
  - cbn in Hm. lia.
  - cbn [fst snd] in Hk, Hv. cbn [map concat length] in *.
    rewrite length_app in Hm.
    destruct (decide (length (snapshot_entry (k, v)) <= m)%nat) as [Hle|Hgt].
    + rewrite take_app_ge by exact Hle.
      rewrite loadSnapshot_entries_step by assumption.
      apply IH. lia.
    + rewrite take_app_le by lia.
      apply loadSnapshot_entry_torn; [assumption | assumption | lia].
Qed.

Lemma loadSnapshot_truncated now l n d :
  Z.of_nat (length l) < 2 ^ 32 ->
  Forall wf_pair l ->
  (n < length (snapshot_file now l))%nat ->
  snapshot_dat d = Some (take n (snapshot_file now l)) ->
  exists err, loadSnapshot d NoFault = inr err.
Proof.
  intros Hlen Hwf Hn Hd. unfold snapshot_file in *.
  rewrite (uint32_small (Z.of_nat (length l))) in * by lia.
  set (cnt := Z.of_nat (length l)) in *.
  set (ents := concat (map snapshot_entry l)) in *.
  destruct (decide (20 <= n)%nat) as [Hhdr|Hhdr].
  - (* the header is whole *)
    assert (HH : length (snapshot_header now cnt) = 16%nat).
    { unfold snapshot_header.
      rewrite !length_app, !put_uint32_length, put_int64_length. reflexivity. }
    rewrite !length_app, HH, put_uint32_length in Hn.
    rewrite take_app_ge in Hd by lia.
    rewrite take_app_ge in Hd by (rewrite put_uint32_length; lia).
    rewrite HH, put_uint32_length in Hd.
    rewrite (loadSnapshot_header now cnt _ d ltac:(subst cnt; lia) Hd).
    subst cnt. rewrite Nat2Z.id.
    apply loadSnapshot_entries_torn; [exact Hwf | subst ents; lia].
  - (* the header is cut *)
    clear Hn. unfold loadSnapshot. rewrite Hd. unfold snapshot_header.
    rewrite <- !app_assoc.
    set (c := CRC32.ChecksumIEEE _).
    destruct (decide (4 <= n)%nat) as [H1|H1].
    2:{ destruct (io_ReadFull_take_short 4 (put_uint32 SnapshotMagic)
                    (put_int64 now ++ put_uint32 cnt ++ put_uint32 c ++ ents) n)
          as (err & -> & _);
          [rewrite put_uint32_length; reflexivity | rewrite put_uint32_length; lia|].
        eauto. }
    rewrite (io_ReadFull_take_ok 4 (put_uint32 SnapshotMagic))
      by (rewrite put_uint32_length; (reflexivity || lia)).
    rewrite put_uint32_length. cbv beta iota zeta.
    rewrite (get_put_uint32 SnapshotMagic) by (unfold SnapshotMagic; lia).
    rewrite Z.eqb_refl. cbn [negb].
    destruct (decide (8 <= n - 4)%nat) as [H2|H2].
    2:{ destruct (io_ReadFull_take_short 8 (put_int64 now)
                    (put_uint32 cnt ++ put_uint32 c ++ ents) (n - 4))
          as (err & -> & _);
          [rewrite put_int64_length; reflexivity | rewrite put_int64_length; lia|].
        eauto. }
    rewrite (io_ReadFull_take_ok 8 (put_int64 now))
      by (rewrite put_int64_length; (reflexivity || lia)).
    rewrite put_int64_length. cbv beta iota zeta.
    destruct (decide (4 <= n - 4 - 8)%nat) as [H3|H3].
    2:{ destruct (io_ReadFull_take_short 4 (put_uint32 cnt)
                    (put_uint32 c ++ ents) (n - 4 - 8))
          as (err & -> & _);
          [rewrite put_uint32_length; reflexivity | rewrite put_uint32_length; lia|].
        eauto. }
    rewrite (io_ReadFull_take_ok 4 (put_uint32 cnt))
      by (rewrite put_uint32_length; (reflexivity || lia)).
    rewrite put_uint32_length. cbv beta iota zeta.
    destruct (io_ReadFull_take_short 4 (put_uint32 c) ents (n - 4 - 8 - 4))
      as (err & -> & _);
      [rewrite put_uint32_length; reflexivity | rewrite put_uint32_length; lia|].
    eauto.
Qed.

End SnapshotTruncated.

(** X22. [loadSnapshot] rejects a snapshot that was cut short: for a map
    of the data model (fewer than 2^32 entries, every key and every value
    shorter than 2^32 bytes), every proper prefix of the file
    [writeSnapshot] wrote for it, whatever the order of its entries, loads
    as an error, never as a smaller map. *)
Theorem loadSnapshot_rejects_truncated (range : MapRange) (now : Z)
    (m : gmap string slice) (n : nat) (d : Dir) :
  range_ok range ->
  wf_map m ->
  (n < length (snapshot_bytes range now m))%nat ->
  snapshot_dat d = Some (take n (snapshot_bytes range now m)) ->
  exists err, loadSnapshot d NoFault = inr err.
Proof.
  intros Hrange [Hsize Hwf] Hn Hd.
  destruct (range_list_to_map range m Hrange) as (_ & _ & Hlen).
  assert (Hfile : snapshot_bytes range now m = snapshot_file now (range m))
    by (unfold snapshot_bytes, snapshot_file; rewrite Hlen; reflexivity).
  rewrite Hfile in *.
  apply (loadSnapshot_truncated now (range m) n d); try assumption.
  - rewrite Hlen. exact Hsize.
  - apply (range_Forall range m _ Hrange Hwf).
Qed.

Lemma loadSnapshot_rejects_truncated_witness :
  exists err,
    loadSnapshot
      (dir_with_snapshot_file
         (take 30 (snapshot_bytes map_to_list 1 {[ "key1"%string := value1 ]})))
      NoFault = inr err.
Proof.
  apply (loadSnapshot_rejects_truncated map_to_list 1
           {[ "key1"%string := value1 ]} 30
           (dir_with_snapshot_file
              (take 30 (snapshot_bytes map_to_list 1
                          {[ "key1"%string := value1 ]})))).
  - intros m. reflexivity.
  - split; [vm_compute; reflexivity|].
    apply map_Forall_insert_2; [wf_compute | apply map_Forall_empty].
  - vm_compute. lia.
  - reflexivity.
Defined.

(** ** The record codec before the checksum *)

Section LegacyCodec.
Import Bin BinFacts.

(** The earlier revision's record is what the current one checksums. *)
Lemma EntryV0_record_data e : EntryV0.record e = Encode_data e.
Proof.
  unfold EntryV0.record, EntryV0.Encode, EntryV0.buffer_Write, Encode_data.
  cbv beta iota zeta.
  destruct (0 <? uint32 (Z.of_nat (len (Value e)))); cbn [snd];
    rewrite ?app_nil_r, <- ?app_assoc; reflexivity.
Qed.

Lemma EntryV0_Encode_buffer e buf :
  EntryV0.Encode EntryV0.buffer_Write e buf = (None, buf ++ EntryV0.record e).
Proof.
  rewrite EntryV0_record_data.
  unfold EntryV0.Encode, EntryV0.buffer_Write, Encode_data.
  cbv beta iota zeta.
  destruct (0 <? uint32 (Z.of_nat (len (Value e))));
    rewrite ?app_nil_r, <- ?app_assoc; reflexivity.
Qed.

Lemma EntryV0_DecodeEntry_frame op ts key value rest :
  Z.of_nat (length key) < 2 ^ 32 ->
  Z.of_nat (length value) < 2 ^ 32 ->
  EntryV0.DecodeEntry (frame op ts key value ++ rest) =
    (inl {| Operation := op; Timestamp := int64 ts;
            Key := string_of_list_byte key; Value := Some value |}, rest).
Proof.
  intros Hk Hv. unfold frame, EntryV0.DecodeEntry.
  rewrite <- !app_assoc.
  rewrite (io_ReadFull_uint32 EntryMagic).
  cbv beta iota zeta.
  rewrite (get_put_uint32 EntryMagic) by (unfold EntryMagic; lia).
  rewrite Z.eqb_refl. cbn [negb].
  rewrite (io_ReadFull_app 1 [op] _ eq_refl).
  cbv beta iota zeta. cbn [hd].
  rewrite (io_ReadFull_int64 ts).
  cbv beta iota zeta.
  rewrite (io_ReadFull_uint32 (Z.of_nat (length key))).
  cbv beta iota zeta.
  rewrite (get_put_uint32 (Z.of_nat (length key))) by lia.
  rewrite (io_ReadFull_app _ key _ eq_refl).
  cbv beta iota zeta.
  rewrite (io_ReadFull_uint32 (Z.of_nat (length value))).
  cbv beta iota zeta.
  rewrite (get_put_uint32 (Z.of_nat (length value))) by lia.
  assert (Hval : (if 0 <? Z.of_nat (length value)
                  then io_ReadFull (Z.of_nat (length value)) (value ++ rest)
                  else (inl [], value ++ rest))
                 = (inl value, rest)).
  { destruct value as [|v value]; [reflexivity|].
    replace (0 <? Z.of_nat (length (v :: value))) with true
      by (symmetry; apply Z.ltb_lt; simpl length; lia).
    apply io_ReadFull_app. reflexivity. }
  rewrite Hval. cbv beta iota zeta.
  rewrite int64_get_put. reflexivity.
Qed.

Lemma EntryV0_DecodeEntry_record e rest :
  wf_entry e ->
  EntryV0.DecodeEntry (EntryV0.record e ++ rest) = (inl (decoded e), rest).
Proof.
  intros Hwf. rewrite EntryV0_record_data, (Encode_data_frame e Hwf).
  destruct Hwf as (Ht & Hk & Hv). unfold len in Hv.
  rewrite EntryV0_DecodeEntry_frame;
    [ | rewrite length_list_byte_of_string; lia | lia ].
  rewrite int64_small, string_of_list_byte_of_string by lia.
  reflexivity.
Qed.

(** Replacing a byte of the value in the record layout. *)
Lemma frame_insert_value op ts kb vb j b' :
  (j < length vb)%nat ->
  <[(21 + length kb + j)%nat := b']> (frame op ts kb vb)
  = frame op ts kb (<[j := b']> vb).
Proof.
  intros Hj. unfold frame.
  rewrite insert_app_r_alt by (rewrite put_uint32_length; lia).
  rewrite put_uint32_length.
  rewrite (insert_app_r_alt [op]) by (cbn [length]; lia).
  cbn [length].
  rewrite insert_app_r_alt by (rewrite put_int64_length; lia).
  rewrite put_int64_length.
  rewrite insert_app_r_alt by (rewrite put_uint32_length; lia).
  rewrite put_uint32_length.
  rewrite insert_app_r_alt by lia.
  rewrite insert_app_r_alt by (rewrite put_uint32_length; lia).
  rewrite put_uint32_length.
  replace (21 + length kb + j - 4 - 1 - 8 - 4 - length kb - 4)%nat with j by lia.
  rewrite length_insert. reflexivity.
Qed.

End LegacyCodec.

Section LegacyWriter.
Import Bin BinFacts.

Context {W : Type} (Write : list byte -> W -> option error * W)
        (contents : W -> list byte).

(** What [io.Writer] asks of [Write]: it writes the bytes it is given, or,
    when it returns an error, some prefix of them. *)
Hypothesis Write_contract : forall p w o w',
  Write p w = (o, w') ->
  exists q, q `prefix_of` p /\ contents w' = contents w ++ q /\ (o = None -> q = p).

Lemma Write_next done p rest w0 w o w' :
  contents w = contents w0 ++ done ->
  Write p w = (o, w') ->
  match o with
  | Some _ =>
      exists q, q `prefix_of` (done ++ p ++ rest) /\ contents w' = contents w0 ++ q
  | None => contents w' = contents w0 ++ done ++ p
  end.
Proof.
  intros Hw HW.
  destruct (Write_contract _ _ _ _ HW) as (q & [k Hk] & Hc & Hn).
  destruct o as [err|].
  - exists (done ++ q). split.
    + exists (k ++ rest). rewrite Hk, <- !app_assoc. reflexivity.
    + rewrite Hc, Hw, <- app_assoc. reflexivity.
  - rewrite Hc, Hw, (Hn eq_refl), <- app_assoc. reflexivity.
Qed.

Lemma EntryV0_Encode_prefix e w o w' :
  EntryV0.Encode Write e w = (o, w') ->
  exists q,
    q `prefix_of` Encode_data e
    /\ contents w' = contents w ++ q
    /\ (o = None -> q = Encode_data e).
Proof.
  unfold EntryV0.Encode, Encode_data. cbv zeta.
  set (p1 := put_uint32 EntryMagic).
  set (p2 := [Operation e]).
  set (p3 := put_int64 (Timestamp e)).
  set (p4 := put_uint32 (uint32 (Z.of_nat (String.length (Key e))))).
  set (p5 := list_byte_of_string (Key e)).
  set (valueLen := uint32 (Z.of_nat (len (Value e)))).
  set (p6 := put_uint32 valueLen).
  set (p7 := bytes_of (Value e)).
  set (tl := if 0 <? valueLen then p7 else []).
  assert (H0 : contents w = contents w ++ []) by (rewrite app_nil_r; reflexivity).
  destruct (Write p1 w) as [[err|] w1] eqn:E1.
  { intros [= <- <-].
    destruct (Write_next [] p1 (p2 ++ p3 ++ p4 ++ p5 ++ p6 ++ tl) _ _ _ _ H0 E1)
      as (q & Hq & Hc).
    exists q. split; [exact Hq | split; [exact Hc | discriminate]]. }
  pose proof (Write_next [] p1 [] _ _ _ _ H0 E1) as H1. cbn [app] in H1.
  destruct (Write p2 w1) as [[err|] w2] eqn:E2.
  { intros [= <- <-].
    destruct (Write_next p1 p2 (p3 ++ p4 ++ p5 ++ p6 ++ tl) _ _ _ _ H1 E2)
      as (q & Hq & Hc).
    exists q. split; [exact Hq | split; [exact Hc | discriminate]]. }
  pose proof (Write_next p1 p2 [] _ _ _ _ H1 E2) as H2.
  destruct (Write p3 w2) as [[err|] w3] eqn:E3.
  { intros [= <- <-].
    destruct (Write_next (p1 ++ p2) p3 (p4 ++ p5 ++ p6 ++ tl) _ _ _ _ H2 E3)
      as (q & Hq & Hc).
    exists q. rewrite <- !app_assoc in Hq.
    split; [exact Hq | split; [exact Hc | discriminate]]. }
  pose proof (Write_next (p1 ++ p2) p3 [] _ _ _ _ H2 E3) as H3.
  destruct (Write p4 w3) as [[err|] w4] eqn:E4.
  { intros [= <- <-].
    destruct (Write_next ((p1 ++ p2) ++ p3) p4 (p5 ++ p6 ++ tl) _ _ _ _ H3 E4)
      as (q & Hq & Hc).
    exists q. rewrite <- !app_assoc in Hq.
    split; [exact Hq | split; [exact Hc | discriminate]]. }
  pose proof (Write_next ((p1 ++ p2) ++ p3) p4 [] _ _ _ _ H3 E4) as H4.
  destruct (Write p5 w4) as [[err|] w5] eqn:E5.
  { intros [= <- <-].
    destruct (Write_next (((p1 ++ p2) ++ p3) ++ p4) p5 (p6 ++ tl) _ _ _ _ H4 E5)
      as (q & Hq & Hc).
    exists q. rewrite <- !app_assoc in Hq.
    split; [exact Hq | split; [exact Hc | discriminate]]. }
  pose proof (Write_next (((p1 ++ p2) ++ p3) ++ p4) p5 [] _ _ _ _ H4 E5) as H5.
  destruct (Write p6 w5) as [[err|] w6] eqn:E6.
  { intros [= <- <-].
    destruct (Write_next ((((p1 ++ p2) ++ p3) ++ p4) ++ p5) p6 tl _ _ _ _ H5 E6)
      as (q & Hq & Hc).
    exists q. rewrite <- !app_assoc in Hq.
    split; [exact Hq | split; [exact Hc | discriminate]]. }
  pose proof (Write_next ((((p1 ++ p2) ++ p3) ++ p4) ++ p5) p6 [] _ _ _ _ H5 E6)
    as H6.
  subst tl. destruct (0 <? valueLen).
  - destruct (Write p7 w6) as [[err|] w7] eqn:E7.
    { intros [= <- <-].
      destruct (Write_next (((((p1 ++ p2) ++ p3) ++ p4) ++ p5) ++ p6) p7 []
                  _ _ _ _ H6 E7) as (q & Hq & Hc).
      exists q. rewrite app_nil_r, <- !app_assoc in Hq.
      split; [exact Hq | split; [exact Hc | discriminate]]. }
    pose proof (Write_next (((((p1 ++ p2) ++ p3) ++ p4) ++ p5) ++ p6) p7 []
                  _ _ _ _ H6 E7) as H7.
    intros [= <- <-]. rewrite <- !app_assoc in H7.
    eexists. split; [reflexivity | split; [exact H7 | reflexivity]].
  - intros [= <- <-]. rewrite <- !app_assoc in H6.
    exists (p1 ++ p2 ++ p3 ++ p4 ++ p5 ++ p6 ++ []).
    split; [reflexivity|]. rewrite app_nil_r. split; [exact H6 | reflexivity].
Qed.

End LegacyWriter.

(** The writer that takes a bounded number of bytes keeps to the contract. *)
Lemma limited_Write_contract err p w o w' :
  EntryV0.limited_Write err p w = (o, w') ->
  exists q, q `prefix_of` p /\ w'.2 = w.2 ++ q /\ (o = None -> q = p).
Proof.
  unfold EntryV0.limited_Write.
  destruct (length p <=? w.1)%nat; intros [= <- <-]; cbn [snd].
  - exists p. auto.
  - exists (take w.1 p). split; [apply prefix_take|]. split; [reflexivity | discriminate].
Qed.

(** X23. The record codec of the earlier revision, which has no checksum,
    round-trips: encoding a record into a buffer appends its bytes and
    returns no error, and decoding those bytes, whatever follows them,
    returns the record (its value as a non-nil slice) and consumes exactly
    them. *)
Theorem legacy_codec_roundtrip (e : Entry) (buf rest : list byte) :
  wf_entry e ->
  EntryV0.Encode EntryV0.buffer_Write e buf = (None, buf ++ EntryV0.record e)
  /\ EntryV0.DecodeEntry (EntryV0.record e ++ rest) = (inl (decoded e), rest).
Proof.
  intros Hwf. split.
  - apply EntryV0_Encode_buffer.
  - apply EntryV0_DecodeEntry_record. exact Hwf.
Qed.

Lemma legacy_codec_roundtrip_witness :
  EntryV0.Encode EntryV0.buffer_Write (NewSetEntry 1 "key1" value1) [x00]
  = (None, [x00] ++ EntryV0.record (NewSetEntry 1 "key1" value1))
  /\ EntryV0.DecodeEntry (EntryV0.record (NewSetEntry 1 "key1" value1) ++ [x4b])
     = (inl (decoded (NewSetEntry 1 "key1" value1)), [x4b]).
Proof.
  apply (legacy_codec_roundtrip (NewSetEntry 1 "key1" value1) [x00] [x4b]).
  wf_compute.
Defined.

(** X24. The two revisions of the record format: the current record is the
    earlier one followed by the CRC-32 of its bytes. So the earlier decoder
    reads a current record and leaves its four checksum bytes unread, and
    the current decoder, given an earlier record with nothing after it,
    fails with a failed read, which [Replay] takes as the end of the log. *)
Theorem checksum_extends_legacy_record (e : Entry) (rest : list byte) :
  wf_entry e ->
  Encode e
  = EntryV0.record e ++ Bin.put_uint32 (CRC32.ChecksumIEEE (EntryV0.record e))
  /\ EntryV0.DecodeEntry (Encode e ++ rest)
     = (inl (decoded e),
        Bin.put_uint32 (CRC32.ChecksumIEEE (EntryV0.record e)) ++ rest)
  /\ exists err r,
       DecodeEntry (EntryV0.record e) = (inr err, r)
       /\ strings_Contains (Error err) "failed to read" = true
       /\ replay_verdict err = None.
Proof.
  intros Hwf.
  assert (HE : Encode e
               = EntryV0.record e
                 ++ Bin.put_uint32 (CRC32.ChecksumIEEE (EntryV0.record e)))
    by (rewrite EntryV0_record_data; reflexivity).
  split; [exact HE|]. split.
  - rewrite HE, <- app_assoc. apply EntryV0_DecodeEntry_record. exact Hwf.
  - assert (Hn : (length (EntryV0.record e) < length (Encode e))%nat).
    { rewrite HE, length_app, put_uint32_length. lia. }
    destruct (DecodeEntry_torn e _ Hwf Hn) as (err & r & Hdec & Hv & Hc).
    rewrite HE, take_app_length in Hdec at 1.
    exists err, r. auto.
Qed.

Lemma checksum_extends_legacy_record_witness :
  Encode (NewSetEntry 1 "key1" value1)
  = EntryV0.record (NewSetEntry 1 "key1" value1)
    ++ Bin.put_uint32 (CRC32.ChecksumIEEE (EntryV0.record (NewSetEntry 1 "key1" value1)))
  /\ EntryV0.DecodeEntry (Encode (NewSetEntry 1 "key1" value1) ++ [])
     = (inl (decoded (NewSetEntry 1 "key1" value1)),
        Bin.put_uint32 (CRC32.ChecksumIEEE (EntryV0.record (NewSetEntry 1 "key1" value1)))
        ++ [])
  /\ exists err r,
       DecodeEntry (EntryV0.record (NewSetEntry 1 "key1" value1)) = (inr err, r)
       /\ strings_Contains (Error err) "failed to read" = true
       /\ replay_verdict err = None.
Proof.
  apply (checksum_extends_legacy_record (NewSetEntry 1 "key1" value1) []).
  wf_compute.
Defined.

(** X25. The earlier decoder has no integrity check: a record one of whose
    value bytes was replaced decodes without error, to the record with the
    replaced byte in its value, and consumes exactly the record. *)
Theorem legacy_decoder_accepts_changed_value (e : Entry) (j : nat) (b' : byte)
    (rest : list byte) :
  wf_entry e ->
  (j < len (Value e))%nat ->
  EntryV0.DecodeEntry
    (<[(21 + String.length (Key e) + j)%nat := b']> (EntryV0.record e) ++ rest)
  = (inl (with_value e (Some (<[j := b']> (bytes_of (Value e))))), rest).
Proof.
  intros Hwf Hj. rewrite EntryV0_record_data, (Encode_data_frame e Hwf).
  destruct Hwf as (Ht & Hk & Hv). unfold len in Hv, Hj.
  rewrite <- (length_list_byte_of_string (Key e)).
  rewrite frame_insert_value by exact Hj.
  rewrite EntryV0_DecodeEntry_frame;
    [ | rewrite length_list_byte_of_string; lia | rewrite length_insert; lia ].
  rewrite int64_small, string_of_list_byte_of_string by lia.
  reflexivity.
Qed.

Lemma legacy_decoder_accepts_changed_value_witness :
  EntryV0.DecodeEntry
    (<[(21 + String.length (Key (NewSetEntry 1 "key1" value1)) + 5)%nat := x58]>
       (EntryV0.record (NewSetEntry 1 "key1" value1)) ++ [])
  = (inl (with_value (NewSetEntry 1 "key1" value1)
            (Some (<[5%nat := x58]> (bytes_of (Value (NewSetEntry 1 "key1" value1)))))),
     []).
Proof.
  apply (legacy_decoder_accepts_changed_value (NewSetEntry 1 "key1" value1)
           5 x58 []).
  - wf_compute.
  - vm_compute. lia.
Defined.

(** X26. The earlier [Encode] writes field by field into any [io.Writer]:
    for a writer that, as [io.Writer] asks, writes the bytes it is given or,
    on an error, a prefix of them, what reaches the writer is a prefix of
    the record, and the whole record when [Encode] returns no error. *)
Theorem legacy_Encode_writes_prefix {W : Type}
    (Write : list byte -> W -> option error * W) (contents : W -> list byte)
    (e : Entry) (w w' : W) (o : option error) :
  (forall p w o w',
     Write p w = (o, w') ->
     exists q, q `prefix_of` p /\ contents w' = contents w ++ q
               /\ (o = None -> q = p)) ->
  EntryV0.Encode Write e w = (o, w') ->
  exists q,
    q `prefix_of` EntryV0.record e
    /\ contents w' = contents w ++ q
    /\ (o = None -> q = EntryV0.record e).
Proof.
  intros Hcontract HE. rewrite EntryV0_record_data.
  exact (EntryV0_Encode_prefix Write contents Hcontract e w o w' HE).
Qed.

Lemma legacy_Encode_writes_prefix_witness :
  exists q,
    q `prefix_of` EntryV0.record (NewSetEntry 1 "key1" value1)
    /\ (EntryV0.Encode (EntryV0.limited_Write os_EIO)
          (NewSetEntry 1 "key1" value1) (10%nat, [])).2.2
       = [] ++ q
    /\ ((EntryV0.Encode (EntryV0.limited_Write os_EIO)
           (NewSetEntry 1 "key1" value1) (10%nat, [])).1 = None ->
        q = EntryV0.record (NewSetEntry 1 "key1" value1)).
Proof.
  apply (legacy_Encode_writes_prefix (EntryV0.limited_Write os_EIO) snd
           (NewSetEntry 1 "key1" value1) (10%nat, [])).
  - intros p w o w'. apply limited_Write_contract.
  - apply surjective_pairing.
Defined.

(** ** The store that keeps the map in memory only *)

Section MemStoreFacts.

Lemma MemStore_run_ops ms ops :
  MemStore.run_ops ms ops
  = (None, {| MemStore.data := apply_ops (MemStore.data ms) ops |}).
Proof.
  revert ms. induction ops as [|[now o] ops IH]; intros ms.
  - destruct ms; reflexivity.
  - cbn [MemStore.run_ops]. destruct o as [key value|key];
      cbn [MemStore.run_op MemStore.Set_ MemStore.Delete]; rewrite IH; reflexivity.
Qed.

Lemma Open_fresh d cfg :
  wal_log d = None \/ wal_log d = Some [] ->
  OpenWithConfig d NoFault cfg = (inl (opened ∅ cfg), set_wal_log d (Some [])).
Proof.
  intros H. destruct d as [l sn tmp]. cbn [wal_log] in H.
  destruct H as [-> | ->]; reflexivity.
Qed.

End MemStoreFacts.

(** X27. On a fresh data directory and with no failure injected, the store
    with the write-ahead log behaves to its caller as the earlier revision
    that keeps the map in memory only: after the same calls of [Set] and
    [Delete], none of which returns an error in either, [Get] of every key
    and [Len] give the same answers, and [Keys] gives the same keys up to
    order, each store ranging over its own map in an order of its own. *)
Theorem fresh_store_matches_memory_store (d : Dir) (cfg : Config)
    (ops : list (Z * Op)) :
  wal_log d = None \/ wal_log d = Some [] ->
  exists s d1 s' d2 ms ms',
    OpenWithConfig d NoFault cfg = (inl s, d1)
    /\ run_ops s d1 ops = (None, s', d2)
    /\ MemStore.OpenWithConfig cfg = inl ms
    /\ MemStore.run_ops ms ops = (None, ms')
    /\ (forall key, Get s' key = MemStore.Get ms' key)
    /\ Len s' = MemStore.Len ms'
    /\ (forall range1 range2 : MapRange,
          range_ok range1 -> range_ok range2 ->
          Keys range1 s' ≡ₚ MemStore.Keys range2 ms').
Proof.
  intros Hfresh.
  eexists _, _, _, _, _, _.
  split; [apply (Open_fresh d cfg Hfresh)|].
  split; [apply run_ops_log; reflexivity|].
  split; [reflexivity|].
  split; [apply MemStore_run_ops|].
  split; [reflexivity|]. split; [reflexivity|].
  intros range1 range2 H1 H2. unfold Keys, MemStore.Keys.
  cbn [data with_data opened MemStore.data].
  rewrite (H1 _), (H2 _). reflexivity.
Qed.

Lemma fresh_store_matches_memory_store_witness :
  exists s d1 s' d2 ms ms',
    OpenWithConfig empty_dir NoFault cfg0 = (inl s, d1)
    /\ run_ops s d1 two_sets = (None, s', d2)
    /\ MemStore.OpenWithConfig cfg0 = inl ms
    /\ MemStore.run_ops ms two_sets = (None, ms')
    /\ (forall key, Get s' key = MemStore.Get ms' key)
    /\ Len s' = MemStore.Len ms'
    /\ (forall range1 range2 : MapRange,
          range_ok range1 -> range_ok range2 ->
          Keys range1 s' ≡ₚ MemStore.Keys range2 ms').
Proof.
  apply (fresh_store_matches_memory_store empty_dir cfg0 two_sets).
  left. reflexivity.
Defined.

(** ** Damage inside a snapshot entry *)

Section SnapshotEntryDamage.
Import Bin BinFacts.

Lemma loadSnapshot_entries_frame n i kb vb ck rest acc :
  Z.of_nat (length kb) < 2 ^ 32 ->
  Z.of_nat (length vb) < 2 ^ 32 ->
  length ck = 4%nat ->
  loadSnapshot_entries (S n) i
    (put_uint32 (Z.of_nat (length kb)) ++ kb
     ++ put_uint32 (Z.of_nat (length vb)) ++ vb ++ ck ++ rest) acc
  = let stored := get_uint32 ck in
    let computed :=
      CRC32.ChecksumIEEE (put_uint32 (Z.of_nat (length kb)) ++ kb
                          ++ put_uint32 (Z.of_nat (length vb)) ++ vb) in
    if negb (computed =? stored) then
      inr (errorString ("entry " ++ fmt_d i ++ " checksum mismatch: expected 0x"
                        ++ fmt_X stored ++ ", got 0x" ++ fmt_X computed
                        ++ " (snapshot corrupted)"))
    else loadSnapshot_entries n (i + 1) rest
           (<[string_of_list_byte kb := Some vb]> acc).
Proof.
  intros Hkb Hvb Hck.
  cbn [loadSnapshot_entries].
  rewrite (io_ReadFull_uint32 (Z.of_nat (length kb))).
  cbv beta iota zeta.
  rewrite (get_put_uint32 (Z.of_nat (length kb))) by lia.
  rewrite (io_ReadFull_app _ kb _ eq_refl).
  cbv beta iota zeta.
  rewrite (io_ReadFull_uint32 (Z.of_nat (length vb))).
  cbv beta iota zeta.
  rewrite (get_put_uint32 (Z.of_nat (length vb))) by lia.
  assert (Hval : (if 0 <? Z.of_nat (length vb)
                  then io_ReadFull (Z.of_nat (length vb)) (vb ++ ck ++ rest)
                  else (inl [], vb ++ ck ++ rest))
                 = (inl vb, ck ++ rest)).
  { destruct vb as [|b vb]; [reflexivity|].
    replace (0 <? Z.of_nat (length (b :: vb))) with true
      by (symmetry; apply Z.ltb_lt; simpl length; lia).
    apply io_ReadFull_app. reflexivity. }
  rewrite Hval. cbv beta iota zeta.
  rewrite (io_ReadFull_app 4 ck) by (rewrite Hck; reflexivity).
  cbv beta iota zeta.
  rewrite <- !app_assoc. reflexivity.
Qed.

(** The entry loop past whole entries. *)
Lemma loadSnapshot_entries_through l n i rest acc :
  Forall wf_pair l ->
  loadSnapshot_entries (length l + n) i (concat (map snapshot_entry l) ++ rest) acc
  = loadSnapshot_entries n (i + Z.of_nat (length l)) rest
      (fold_left (fun m kv => <[kv.1 := loaded kv.2]> m) l acc).
Proof.
  intros Hwf. revert i acc.
  induction Hwf as [|[k v] l [Hk Hv] Hl IH]; intros i acc.
  - cbn [length map concat fold_left app Nat.add]. rewrite Z.add_0_r. reflexivity.
  - cbn [fst snd] in Hk, Hv.
    cbn [length map concat fold_left Nat.add]. rewrite <- app_assoc.
    rewrite loadSnapshot_entries_step by assumption.
    rewrite IH. cbn [fst snd]. f_equal. lia.
Qed.

(** One byte of an entry's key, value or checksum replaced: the entry's
    checksum does not match. *)
Lemma loadSnapshot_entry_changed n i k v j b b' rest acc :
  Z.of_nat (String.length k) < 2 ^ 32 ->
  Z.of_nat (len v) < 2 ^ 32 ->
  snapshot_entry (k, v) !! j = Some b ->
  b' <> b ->
  (4 <= j)%nat ->
  ~ (4 + String.length k <= j < 8 + String.length k)%nat ->
  exists stored computed,
    stored <> computed
    /\ loadSnapshot_entries (S n) i (<[j := b']> (snapshot_entry (k, v)) ++ rest) acc
       = inr (errorString ("entry " ++ fmt_d i ++ " checksum mismatch: expected 0x"
                           ++ fmt_X stored ++ ", got 0x" ++ fmt_X computed
                           ++ " (snapshot corrupted)")).
Proof.
  intros Hk Hv Hb Hne H4 Hlen.
  assert (Hj : (j < length (snapshot_entry (k, v)))%nat)
    by (eapply lookup_lt_Some, Hb).
  rewrite (snapshot_entry_length k v Hk Hv) in Hj.
  unfold snapshot_entry in *. rewrite (snapshot_entryBuf_wf k v Hk Hv) in *.
  rewrite <- length_list_byte_of_string in Hk, Hlen, Hj.
  set (kb := list_byte_of_string k) in *. unfold len in Hv, Hj.
  set (vb := bytes_of v) in *.
  set (buf := put_uint32 (Z.of_nat (length kb)) ++ kb
              ++ put_uint32 (Z.of_nat (length vb)) ++ vb) in *.
  assert (Hbuf : length buf = (8 + length kb + length vb)%nat).
  { subst buf. rewrite !length_app, !put_uint32_length. lia. }
  destruct (decide (j < length buf)%nat) as [Hin|Hout].
  - (* a byte of the key or of the value *)
    rewrite lookup_app_l in Hb by exact Hin.
    rewrite insert_app_l by exact Hin.
    pose proof (ChecksumIEEE_detects_byte buf j b b' Hb Hne) as Hcrc.
    pose proof (ChecksumIEEE_range buf) as Hr.
    revert Hcrc Hr. generalize (CRC32.ChecksumIEEE buf). intros c Hcrc Hr.
    subst buf.
    rewrite insert_app_r_alt in Hcrc |- * by (rewrite put_uint32_length; lia).
    rewrite put_uint32_length in *.
    destruct (decide (j - 4 < length kb)%nat) as [Hkey|Hval].
    + rewrite insert_app_l in Hcrc |- * by exact Hkey.
      set (kb' := <[(j - 4)%nat := b']> kb) in *.
      assert (Hkb' : length kb' = length kb) by (subst kb'; apply length_insert).
      rewrite <- Hkb' in Hcrc |- *. rewrite <- !app_assoc.
      rewrite loadSnapshot_entries_frame;
        [ | lia | lia | apply put_uint32_length ].
      cbv zeta. rewrite (get_put_uint32 c) by exact Hr.
      exists c. eexists. split; [|
        destruct (Z.eqb_spec
                    (CRC32.ChecksumIEEE
                       (put_uint32 (Z.of_nat (length kb')) ++ kb'
                        ++ put_uint32 (Z.of_nat (length vb)) ++ vb)) c)
          as [E|_]; [contradiction | reflexivity]].
      intros E. apply Hcrc. symmetry. exact E.
    + rewrite insert_app_r_alt in Hcrc |- * by lia.
      rewrite insert_app_r_alt in Hcrc |- * by (rewrite put_uint32_length; lia).
      rewrite put_uint32_length in *.
      set (vb' := <[(j - 4 - length kb - 4)%nat := b']> vb) in *.
      assert (Hvb' : length vb' = length vb) by (subst vb'; apply length_insert).
      rewrite <- Hvb' in Hcrc |- *. rewrite <- !app_assoc.
      rewrite loadSnapshot_entries_frame;
        [ | lia | lia | apply put_uint32_length ].
      cbv zeta. rewrite (get_put_uint32 c) by exact Hr.
      exists c. eexists. split; [|
        destruct (Z.eqb_spec
                    (CRC32.ChecksumIEEE
                       (put_uint32 (Z.of_nat (length kb)) ++ kb
                        ++ put_uint32 (Z.of_nat (length vb')) ++ vb')) c)
          as [E|_]; [contradiction | reflexivity]].
      intros E. apply Hcrc. symmetry. exact E.
  - (* a byte of the stored checksum *)
    rewrite lookup_app_r in Hb by lia.
    rewrite insert_app_r_alt by lia.
    pose proof (put_uint32_changed _ _ _ _ (ChecksumIEEE_range buf) Hb Hne) as Hchg.
    set (ck := <[(j - length buf)%nat := b']> (put_uint32 (CRC32.ChecksumIEEE buf)))
      in *.
    assert (Hck : length ck = 4%nat)
      by (subst ck; rewrite length_insert; apply put_uint32_length).
    subst buf. rewrite <- !app_assoc.
    rewrite loadSnapshot_entries_frame; [ | lia | lia | exact Hck ].
    cbv zeta.
    exists (get_uint32 ck). eexists. split; [|
      destruct (Z.eqb_spec
                  (CRC32.ChecksumIEEE
                     (put_uint32 (Z.of_nat (length kb)) ++ kb
                      ++ put_uint32 (Z.of_nat (length vb)) ++ vb))
                  (get_uint32 ck))
        as [E|_]; [exfalso; apply Hchg; symmetry; exact E | reflexivity]].
    exact Hchg.
Qed.

End SnapshotEntryDamage.

(** X28. [loadSnapshot] rejects a snapshot with a damaged entry: replace one
    byte of the key, the value or the checksum of any entry of a written
    snapshot file (the two length fields apart) and the load fails with a
    checksum mismatch that names the entry by its index, after reading the
    entries before it. *)
Theorem loadSnapshot_rejects_damaged_entry (now : Z)
    (l1 : list (string * slice)) (k : string) (v : slice)
    (l2 : list (string * slice)) (j : nat) (b b' : byte) (d : Dir) :
  Z.of_nat (length (l1 ++ (k, v) :: l2)) < 2 ^ 32 ->
  Forall wf_pair l1 ->
  wf_pair (k, v) ->
  snapshot_entry (k, v) !! j = Some b ->
  b' <> b ->
  (4 <= j)%nat ->
  ~ (4 + String.length k <= j < 8 + String.length k)%nat ->
  snapshot_dat d
  = Some (<[(20 + length (concat (map snapshot_entry l1)) + j)%nat := b']>
            (snapshot_file now (l1 ++ (k, v) :: l2))) ->
  exists stored computed,
    stored <> computed
    /\ loadSnapshot d NoFault
       = inr (errorString ("entry " ++ fmt_d (Z.of_nat (length l1))
                           ++ " checksum mismatch: expected 0x" ++ fmt_X stored
                           ++ ", got 0x" ++ fmt_X computed
                           ++ " (snapshot corrupted)")).
Proof.
  intros Hlen Hl1 [Hk Hv] Hb Hne H4 Hfield Hd. cbn [fst snd] in Hk, Hv.
  unfold snapshot_file in Hd.
  rewrite (BinFacts.uint32_small (Z.of_nat (length (l1 ++ (k, v) :: l2)))) in Hd
    by lia.
  set (cnt := Z.of_nat (length (l1 ++ (k, v) :: l2))) in *.
  assert (HH : length (snapshot_header now cnt) = 16%nat).
  { unfold snapshot_header.
    rewrite !length_app, !put_uint32_length, put_int64_length. reflexivity. }
  rewrite insert_app_r_alt in Hd by lia.
  rewrite insert_app_r_alt in Hd by (rewrite put_uint32_length; lia).
  rewrite HH, put_uint32_length in Hd.
  rewrite map_app, concat_app in Hd. cbn [map concat] in Hd.
  rewrite insert_app_r_alt in Hd by lia.
  replace (20 + length (concat (map snapshot_entry l1)) + j - 16 - 4
           - length (concat (map snapshot_entry l1)))%nat with j in Hd by lia.
  rewrite insert_app_l in Hd by (eapply lookup_lt_Some, Hb).
  rewrite (loadSnapshot_header now cnt _ d ltac:(subst cnt; lia) Hd).
  subst cnt. rewrite Nat2Z.id, length_app. cbn [length].
  rewrite loadSnapshot_entries_through by exact Hl1.
  rewrite Z.add_0_l.
  replace (S (length l2)) with (S (length l2 + 0)) by lia.
  apply (loadSnapshot_entry_changed _ _ k v j b b'); assumption.
Qed.

Lemma loadSnapshot_rejects_damaged_entry_witness :
  exists stored computed,
    stored <> computed
    /\ loadSnapshot
         (dir_with_snapshot_file
            (<[(20 + length (concat (map snapshot_entry [("key1"%string, value1)]))
                + 5)%nat := x58]>
               (snapshot_file 1 ([("key1"%string, value1)]
                                 ++ ("key2"%string, value2) :: []))))
         NoFault
       = inr (errorString ("entry "
                           ++ fmt_d (Z.of_nat (length [("key1"%string, value1)]))
                           ++ " checksum mismatch: expected 0x" ++ fmt_X stored
                           ++ ", got 0x" ++ fmt_X computed
                           ++ " (snapshot corrupted)")).
Proof.
  apply (loadSnapshot_rejects_damaged_entry 1 [("key1"%string, value1)]
           "key2" value2 [] 5 x65 x58
           (dir_with_snapshot_file
              (<[(20 + length (concat (map snapshot_entry [("key1"%string, value1)]))
                  + 5)%nat := x58]>
                 (snapshot_file 1 ([("key1"%string, value1)]
                                   ++ ("key2"%string, value2) :: []))))).
  - vm_compute. reflexivity.
  - constructor; [wf_compute | constructor].
  - wf_compute.
  - vm_compute. reflexivity.
  - discriminate.
  - lia.
  - cbn [String.length]. lia.
  - reflexivity.
Defined.

(** ** A value past the 32-bit length field *)

Section Oversize.
Import Bin BinFacts.

(** A record whose value has 2^32 bytes is encoded as the record with the
    empty value: the length wraps to 0 and no value byte is written. *)
Lemma Encode_wrapped op ts key v :
  Z.of_nat (len v) = 2 ^ 32 ->
  Encode {| Operation := op; Timestamp := ts; Key := key; Value := v |}
  = Encode {| Operation := op; Timestamp := ts; Key := key; Value := Some [] |}.
Proof.
  intros Hv. unfold Encode, Encode_data. cbn [Operation Timestamp Key Value].
  rewrite Hv, uint32_wraps. reflexivity.
Qed.

End Oversize.

(** X29. The bound on the value length is needed. A [Set] of a value of
    exactly 2^32 bytes on an open store returns success and [Get] reads the
    value back, but the record it appends carries a value length of 0 and no
    value byte: it is the record of a [Set] of the empty value, and the next
    open of the directory recovers the key with the empty value. *)
Theorem oversize_value_is_recovered_empty (s : Store) (d : Dir) (now : Z)
    (key : string) (v : slice) (es : list Entry) (cfg : Config) :
  closed (file (wal s)) = false ->
  wal_log d = Some (encode_all es) ->
  Forall wf_entry es ->
  - 2 ^ 63 <= now < 2 ^ 63 ->
  Z.of_nat (String.length key) < 2 ^ 32 ->
  Z.of_nat (len v) = 2 ^ 32 ->
  exists s' d' s2,
    Set_ s d NoFault now key v = (None, s', d')
    /\ Get s' key = (v, true)
    /\ wal_log d' = Some (encode_all (es ++ [NewSetEntry now key (Some [])]))
    /\ (OpenWithConfig d' NoFault cfg).1 = inl s2
    /\ Get s2 key = (Some [], true).
Proof.
  intros Hopen Hlog Hes Hnow Hkey Hv.
  assert (Hwf : wf_entry (NewSetEntry now key (Some []))).
  { unfold wf_entry, NewSetEntry. cbn [Timestamp Key Value].
    change (len (Some [])) with 0%nat. lia. }
  assert (Hlog' : wal_log (set_wal_log d
                             (Some (default [] (wal_log d)
                                    ++ Encode (NewSetEntry now key v))))
                  = Some (encode_all (es ++ [NewSetEntry now key (Some [])]))).
  { destruct d as [l sn tmp]. cbn [wal_log set_wal_log] in *. rewrite Hlog.
    cbn [default from_option id]. rewrite encode_all_snoc.
    unfold NewSetEntry. rewrite (Encode_wrapped OpSet now key v Hv). reflexivity. }
  eexists _, _, _. unfold Set_. rewrite (Append_open _ _ _ Hopen).
  split; [reflexivity|].
  split; [unfold Get; cbn [data with_data]; rewrite lookup_insert_eq; reflexivity|].
  split; [exact Hlog'|].
  split.
  - apply (Open_whole_log _ _ cfg Hlog').
    apply Forall_app. split; [exact Hes | constructor; [exact Hwf | constructor]].
  - unfold Get. cbn [data opened]. rewrite fold_left_app. cbn [fold_left].
    unfold apply_entry at 1. cbn [NewSetEntry Operation Key Value].
    change (Byte.eqb OpSet OpSet) with true. cbv iota.
    rewrite lookup_insert_eq. reflexivity.
Qed.

Lemma oversize_value_is_recovered_empty_witness :
  exists s' d' s2,
    Set_ store_one_key (dir_with_wal (encode_all [])) NoFault 2 "k" oversize_value
    = (None, s', d')
    /\ Get s' "k" = (oversize_value, true)
    /\ wal_log d' = Some (encode_all ([] ++ [NewSetEntry 2 "k" (Some [])]))
    /\ (OpenWithConfig d' NoFault cfg0).1 = inl s2
    /\ Get s2 "k" = (Some [], true).
Proof.
  apply (oversize_value_is_recovered_empty store_one_key
           (dir_with_wal (encode_all [])) 2 "k" oversize_value [] cfg0).
  - reflexivity.
  - reflexivity.
  - constructor.
  - lia.
  - cbn [String.length]. lia.
  - exact len_oversize_value.
Defined.
